(** * Contact Navigator: pool-based waterfall engine

    A shallow embedding of the quantitative core of the repository
    (engines/intent_profile.py, engines/pools.py, engines/gross.py and the
    cascade of engines/waterfall.py) together with the properties that its
    specification states about it.

    Numbers.  Python floats are modelled as exact rationals ([Q]); Python
    ints that stay ints are [Z] or [nat].  [round(x)] is [py_round]
    (round-half-to-even), [round(x, n)] is [round_nd n].  The arithmetic is
    exact: where a binary float sits next to a rounding tie (0.45, or a
    sum that is 22.5 only in exact arithmetic) the code can round the other
    way, so the properties below are stated so as to hold for either
    direction of such a tie.  The logistic ramp
    needs [exp] and is modelled over the real numbers ([R]) in its own
    section.  Dictionaries are [gmap string _]; dictionaries with a fixed
    set of keys are records, a key read through [.get(k, default)] being an
    [option] field.  The human-readable ['mechanism'] strings are display
    only and are left out. *)

From Stdlib Require Import QArith Qround Qminmax Qabs Qpower ZArith Lia List String Ascii.
From Stdlib Require Import Reals Psatz.
From stdpp Require Import gmap strings.

Local Open Scope Q_scope.

(* ===================================================================== *)
(** * Definitions *)
(* ===================================================================== *)

(** ** Python numerics *)

(** [round(x)] on a float: nearest integer, ties to the even one. *)
Definition py_round (x : Q) : Z :=
  let f := Qfloor x in
  match Qcompare (x - inject_Z f) (1 # 2) with
  | Lt => f
  | Gt => (f + 1)%Z
  | Eq => if Z.even f then f else (f + 1)%Z
  end.

Definition pow10 (n : nat) : Q := inject_Z (10 ^ Z.of_nat n).

(** [round(x, n)]: a float with [n] decimals. *)
Definition round_nd (n : nat) (x : Q) : Q :=
  Qred (inject_Z (py_round (x * pow10 n)) / pow10 n).

(** Values with at most [n] decimals. *)
Definition on_grid (n : nat) (x : Q) : Prop :=
  exists k : Z, x == inject_Z k / pow10 n.

Definition Qleb (x y : Q) : bool := Qle_bool x y.
Definition Qltb (x y : Q) : bool := negb (Qle_bool y x).

(** [sum(f(x) for x in l)] *)
Definition Qsum {A} (f : A -> Q) (l : list A) : Q :=
  fold_right (fun x acc => f x + acc) 0 l.

(** ** Python strings (ASCII) *)

Definition ascii_lower (c : ascii) : ascii :=
  let n := nat_of_ascii c in
  if ((65 <=? n) && (n <=? 90))%nat then ascii_of_nat (n + 32) else c.

Fixpoint str_lower (s : string) : string :=
  match s with
  | EmptyString => EmptyString
  | String c s' => String (ascii_lower c) (str_lower s')
  end.

(** [kw in s] *)
Fixpoint str_contains (kw s : string) : bool :=
  String.prefix kw s ||
  match s with
  | EmptyString => false
  | String _ s' => str_contains kw s'
  end.

(** [any(kw in s for kw in kws)] *)
Definition any_kw (kws : list string) (s : string) : bool :=
  existsb (fun kw => str_contains kw s) kws.

(** [x in l] for a list of strings *)
Definition str_in (x : string) (l : list string) : bool :=
  existsb (String.eqb x) l.

(** ** Data model *)

(** A queue as the loader builds it.  [volume], [aht], [intent] and
    [channel] are indexed directly by the engines; the other keys are read
    with [.get] and a default that differs from place to place.  No code
    of the repository ever writes ['preventable_transfer_pct'] or
    ['transfer_rate']. *)
Record Queue := {
  intent : string;
  channel : string;
  volume : Q;
  aht : Q;
  acw : option Q;
  transfer : option Q;
  transfer_rate : option Q;
  escalation : option Q;
  repeat_ : option Q;
  fcr : option Q;
  complexity : option Q;
  preventable_transfer_pct : option Q
}.

Record AhtDecomp := {
  talk_sec : Q; hold_sec : Q; search_sec : Q; other_sec : Q;
  wrap_sec : Q; total_handle_sec : Q; reducible_sec : Q
}.

Record TransferClass := {
  total_rate : Q; preventable_rate : Q; structural_rate : Q;
  preventable_share : Q
}.

Record Enrichment := {
  repeatability : Q;
  emotional_risk : Q;
  auth_required : Q;
  containment_feasibility : Q;
  deflection_eligible_pct : Q;
  aht_decomp : AhtDecomp;
  transfer_class : TransferClass;
  migration_readiness : Q
}.

(** An enriched queue: the queue's own keys plus the keys that
    [enrich_intents] adds ([None] for a queue that was not enriched). *)
Record EQueue := {
  raw : Queue;
  enr : option Enrichment
}.

Record Role := {
  role : string;
  headcount : Q;
  costPerFTE : Q
}.

(** The parameter dictionary.  [extra] holds the keys the cascade never
    reads (volumeGrowth, attritionMonthly, redeploymentPct, ...). *)
Record Params := {
  horizon : nat;
  discountRate : Q;
  wageInflation : Q;
  shrinkage : option Q;
  targetShrinkage : option Q;
  grossHoursPerYear : option Q;
  volumeAnnualizationFactor : option Q;
  locationArbitrage : option Q;
  extra : gmap string Q
}.

(** ** engines/intent_profile.py *)

Definition _repeatability_from_complexity (complexity : Q) : Q :=
  if Qleb complexity 0.20 then 0.85
  else if Qleb complexity 0.35 then 0.65
  else if Qleb complexity 0.50 then 0.45
  else if Qleb complexity 0.70 then 0.25
  else 0.10.

Definition _emotional_risk_from_complexity (complexity : Q) (intent_name : string) : Q :=
  let name_lower := str_lower intent_name in
  if any_kw ["complaint"; "dispute"; "cancel"; "fraud"; "bereavement";
             "hardship"; "escalat"; "threat"; "legal"]%string name_lower
  then 0.85
  else if any_kw ["refund"; "billing"; "overcharge"; "disconnect";
                  "terminate"; "close account"]%string name_lower
  then 0.60
  else if Qleb complexity 0.25 then 0.10
  else if Qleb complexity 0.45 then 0.25
  else if Qleb complexity 0.65 then 0.45
  else 0.65.

Definition _auth_required_from_complexity (complexity : Q) (intent_name : string) : Q :=
  let name_lower := str_lower intent_name in
  if any_kw ["faq"; "general"; "product info"; "hours"; "location";
             "status check"; "tracking"; "pricing"]%string name_lower
  then 0.10
  else if any_kw ["account change"; "password"; "transaction"; "transfer";
                  "payment"; "address change"; "personal detail"]%string name_lower
  then 0.90
  else if Qleb complexity 0.25 then 0.20
  else if Qleb complexity 0.50 then 0.50
  else 0.75.

Definition _containment_feasibility
    (repeatability emotional_risk auth_required complexity : Q) : Q :=
  let base := (repeatability * 0.40) + ((1 - emotional_risk) * 0.25)
              + ((1 - auth_required) * 0.25) + ((1 - complexity) * 0.10) in
  let base := if Qltb 0.80 auth_required then base * 0.50 else base in
  round_nd 3 (Qmin 1 (Qmax 0 base)).

Definition _decompose_aht (aht_minutes acw_minutes complexity : Q) : AhtDecomp :=
  let aht_sec := aht_minutes * 60 in
  let acw_sec := acw_minutes * 60 in
  let '(talk_pct, hold_pct, search_pct) :=
    if Qleb complexity 0.25 then (0.55, 0.05, 0.25)
    else if Qleb complexity 0.50 then (0.55, 0.10, 0.20)
    else if Qleb complexity 0.70 then (0.55, 0.15, 0.18)
    else (0.50, 0.20, 0.15) in
  let other_pct := Qmax 0 (1 - talk_pct - hold_pct - search_pct) in
  {| talk_sec := round_nd 1 (aht_sec * talk_pct);
     hold_sec := round_nd 1 (aht_sec * hold_pct);
     search_sec := round_nd 1 (aht_sec * search_pct);
     other_sec := round_nd 1 (aht_sec * other_pct);
     wrap_sec := round_nd 1 acw_sec;
     total_handle_sec := round_nd 1 (aht_sec + acw_sec);
     reducible_sec := round_nd 1 (aht_sec * search_pct
                                  + acw_sec * 0.80
                                  + aht_sec * talk_pct * 0.15
                                  + aht_sec * hold_pct * 0.30) |}.

Definition _transfer_classification
    (transfer_rate escalation_rate complexity : Q) : TransferClass :=
  if Qleb transfer_rate 0 then
    {| total_rate := 0; preventable_rate := 0; structural_rate := 0;
       preventable_share := 0 |}
  else
    let preventable_share :=
      if Qleb complexity 0.30 then 0.75
      else if Qleb complexity 0.55 then 0.50
      else if Qleb complexity 0.75 then 0.30
      else 0.15 in
    let preventable_share :=
      if Qltb 0.15 escalation_rate then preventable_share * 0.70
      else preventable_share in
    {| total_rate := round_nd 4 transfer_rate;
       preventable_rate := round_nd 4 (transfer_rate * preventable_share);
       structural_rate := round_nd 4 (transfer_rate * (1 - preventable_share));
       preventable_share := round_nd 3 preventable_share |}.

Definition _migration_readiness
    (channel : string) (complexity emotional_risk auth_required : Q) : Q :=
  if str_in channel ["Chat"; "Email"; "App/Self-Service"; "SMS/WhatsApp";
                     "Social Media"]%string
  then 0
  else if String.eqb channel "IVR" then 0.20 * (1 - complexity)
  else
    let base := 0.80 in
    let base := base - complexity * 0.30 in
    let base := base - emotional_risk * 0.25 in
    let base := base - auth_required * 0.15 in
    round_nd 3 (Qmax 0 (Qmin 1 base)).

(** The body of the loop of [enrich_intents] for one queue. *)
Definition enrich_queue (q : Queue) : EQueue :=
  let complexity := default 0.40 (complexity q) in
  let intent_name := intent q in
  let channel := channel q in
  let aht := aht q in
  let acw := default 1 (acw q) in
  let transfer_rate := default 0 (transfer q) in
  let escalation_rate := default 0 (escalation q) in
  let repeat_rate := default 0 (repeat_ q) in
  let repeatability := _repeatability_from_complexity complexity in
  let repeatability :=
    if Qltb 0.15 repeat_rate then Qmin 1 (repeatability + 0.15)
    else repeatability in
  let emotional_risk := _emotional_risk_from_complexity complexity intent_name in
  let auth_required := _auth_required_from_complexity complexity intent_name in
  let containment :=
    _containment_feasibility repeatability emotional_risk auth_required complexity in
  {| raw := q;
     enr := Some
       {| repeatability := round_nd 3 repeatability;
          emotional_risk := round_nd 3 emotional_risk;
          auth_required := round_nd 3 auth_required;
          containment_feasibility := containment;
          deflection_eligible_pct :=
            round_nd 3 (repeatability * (1 - auth_required * 0.30));
          aht_decomp := _decompose_aht aht acw complexity;
          transfer_class :=
            _transfer_classification transfer_rate escalation_rate complexity;
          migration_readiness :=
            _migration_readiness channel complexity emotional_risk auth_required |} |}.

Definition enrich_intents (queues : list Queue) : list EQueue :=
  map enrich_queue queues.

(** ** engines/pools.py *)

(** One opportunity pool.  The keys that only some pools carry are
    options; the breakdown lists and the other display-only keys are left
    out. *)
Record Pool := {
  ceiling_fte : Q;
  remaining_fte : Q;
  ceiling_saving : Z;
  ceiling_contacts : option Z;
  remaining_contacts : option Z;
  ceiling_seconds : option Z;
  remaining_seconds : option Z;
  remaining_saving : option Z
}.

(** [q.get(key, d)] for a key added by enrichment. *)
Definition eget {A} (f : Enrichment -> A) (d : A) (q : EQueue) : A :=
  match enr q with
  | Some e => f e
  | None => d
  end.

Definition weighted_cost_of (rs : list Role) (fallback : Q) : Q :=
  let fte := Qsum headcount rs in
  if Qltb 0 fte
  then Qsum (fun r => headcount r * costPerFTE r) rs / fte
  else fallback.

Record PoolResult := {
  pools_of : gmap string Pool;
  annualization_factor : Q
}.

Definition migratable_roles : list string :=
  ["Agent L1"; "Agent L2 / Specialist"; "Back-Office / Processing"]%string.

Definition compute_pools (enriched_queues : list EQueue) (roles : list Role)
    (params : Params) : PoolResult :=
  let total_volume_raw := Qsum (fun q => volume (raw q)) enriched_queues in
  let total_fte := Qsum headcount roles in
  let shrinkage_ := default 0.30 (shrinkage params) in
  let gross_hours_year := default 2080 (grossHoursPerYear params) in
  let net_prod_hours := gross_hours_year * (1 - shrinkage_) in
  let annualization := default 12 (volumeAnnualizationFactor params) in
  let total_volume := total_volume_raw * annualization in
  let annual_volume (q : EQueue) := volume (raw q) * annualization in
  let weighted_cost := weighted_cost_of roles 55000 in
  (* 1. deflection *)
  let deflectable_contacts :=
    Qsum (fun q => annual_volume q * eget deflection_eligible_pct 0 q
                   * eget containment_feasibility 0 q) enriched_queues in
  let avg_aht_sec :=
    Qsum (fun q => aht (raw q) * 60 * annual_volume q) enriched_queues
    / Qmax total_volume 1 in
  let deflection_hours := (deflectable_contacts * avg_aht_sec) / 3600 in
  let deflection_fte := deflection_hours / Qmax net_prod_hours 1 in
  let p_deflection :=
    {| ceiling_fte := round_nd 1 deflection_fte;
       remaining_fte := round_nd 1 deflection_fte;
       ceiling_saving := py_round (deflection_fte * weighted_cost);
       ceiling_contacts := Some (py_round deflectable_contacts);
       remaining_contacts := Some (py_round deflectable_contacts);
       ceiling_seconds := None; remaining_seconds := None;
       remaining_saving := None |} in
  (* 2. AHT reduction *)
  let total_reducible_seconds :=
    Qsum (fun q => annual_volume q
                   * eget (fun e => reducible_sec (aht_decomp e)) 0 q)
         enriched_queues in
  let aht_hours := total_reducible_seconds / 3600 in
  let aht_fte := aht_hours / Qmax net_prod_hours 1 in
  let p_aht :=
    {| ceiling_fte := round_nd 1 aht_fte;
       remaining_fte := round_nd 1 aht_fte;
       ceiling_saving := py_round (aht_fte * weighted_cost);
       ceiling_contacts := None; remaining_contacts := None;
       ceiling_seconds := Some (py_round total_reducible_seconds);
       remaining_seconds := Some (py_round total_reducible_seconds);
       remaining_saving := None |} in
  (* 3. transfer and escalation *)
  let total_preventable_transfers :=
    Qsum (fun q => annual_volume q
                   * eget (fun e => preventable_rate (transfer_class e)) 0 q)
         enriched_queues in
  let total_preventable_escalations :=
    Qsum (fun q =>
            let esc_rate := default 0 (escalation (raw q)) in
            let complexity := default 0.5 (complexity (raw q)) in
            let prev_esc_share := Qmax 0.10 (0.60 - complexity * 0.50) in
            annual_volume q * esc_rate * prev_esc_share) enriched_queues in
  let transfer_extra_sec := 180 in
  let transfer_hours := (total_preventable_transfers * transfer_extra_sec) / 3600 in
  let transfer_fte := transfer_hours / Qmax net_prod_hours 1 in
  let p_transfer :=
    {| ceiling_fte := round_nd 1 transfer_fte;
       remaining_fte := round_nd 1 transfer_fte;
       ceiling_saving := py_round (transfer_fte * weighted_cost);
       ceiling_contacts := Some (py_round total_preventable_transfers);
       remaining_contacts := Some (py_round total_preventable_transfers);
       ceiling_seconds := None; remaining_seconds := None;
       remaining_saving := None |} in
  let escalation_extra_sec := 300 in
  let esc_hours := (total_preventable_escalations * escalation_extra_sec) / 3600 in
  let esc_fte := esc_hours / Qmax net_prod_hours 1 in
  let p_escalation :=
    {| ceiling_fte := round_nd 1 esc_fte;
       remaining_fte := round_nd 1 esc_fte;
       ceiling_saving := py_round (esc_fte * weighted_cost);
       ceiling_contacts := Some (py_round total_preventable_escalations);
       remaining_contacts := Some (py_round total_preventable_escalations);
       ceiling_seconds := None; remaining_seconds := None;
       remaining_saving := None |} in
  (* 4. repeat / FCR *)
  let weighted_repeat :=
    Qsum (fun q => default 0 (repeat_ (raw q)) * annual_volume q) enriched_queues
    / Qmax total_volume 1 in
  let REPEAT_FLOOR := 0.02 in
  let use_repeat_fallback := Qltb weighted_repeat REPEAT_FLOOR in
  let weighted_fcr :=
    Qsum (fun q => default 0.75 (fcr (raw q)) * annual_volume q) enriched_queues
    / Qmax total_volume 1 in
  let fallback_repeat := Qmax 0.05 ((1 - weighted_fcr) * 0.60) in
  let total_repeat_contacts :=
    Qsum (fun q =>
            let repeat_rate :=
              if use_repeat_fallback then fallback_repeat
              else default 0 (repeat_ (raw q)) in
            let fcr_ := default 0.70 (fcr (raw q)) in
            let fcr_target := 0.90 - default 0.4 (complexity (raw q)) * 0.15 in
            let fcr_gap := Qmax 0 (fcr_target - fcr_) in
            let reducible_repeat :=
              annual_volume q * repeat_rate
              * Qmin 1 (fcr_gap / Qmax repeat_rate 0.01) in
            Qmin reducible_repeat (annual_volume q * repeat_rate * 0.70))
         enriched_queues in
  let repeat_hours := (total_repeat_contacts * avg_aht_sec) / 3600 in
  let repeat_fte := repeat_hours / Qmax net_prod_hours 1 in
  let p_repeat :=
    {| ceiling_fte := round_nd 1 repeat_fte;
       remaining_fte := round_nd 1 repeat_fte;
       ceiling_saving := py_round (repeat_fte * weighted_cost);
       ceiling_contacts := Some (py_round total_repeat_contacts);
       remaining_contacts := Some (py_round total_repeat_contacts);
       ceiling_seconds := None; remaining_seconds := None;
       remaining_saving := None |} in
  (* 5. location *)
  let migratable_volume :=
    Qsum (fun q => annual_volume q * eget migration_readiness 0 q)
         enriched_queues in
  let migratable_share := migratable_volume / Qmax total_volume 1 in
  let migratable_fte :=
    Qsum headcount (List.filter (fun r => str_in (role r) migratable_roles) roles) in
  let migratable_fte_adjusted := migratable_fte * migratable_share in
  let cost_arbitrage := default 0.35 (locationArbitrage params) in
  let location_saving := migratable_fte_adjusted * weighted_cost * cost_arbitrage in
  let p_location :=
    {| ceiling_fte := round_nd 1 migratable_fte_adjusted;
       remaining_fte := round_nd 1 migratable_fte_adjusted;
       ceiling_saving := py_round location_saving;
       ceiling_contacts := None; remaining_contacts := None;
       ceiling_seconds := None; remaining_seconds := None;
       remaining_saving := Some (py_round location_saving) |} in
  (* 6. shrinkage *)
  let current_shrinkage := shrinkage_ in
  let best_practice_shrinkage := default 0.22 (targetShrinkage params) in
  let shrinkage_gap := Qmax 0 (current_shrinkage - best_practice_shrinkage) in
  let shrinkage_fte := total_fte * shrinkage_gap in
  let shrinkage_saving := shrinkage_fte * weighted_cost in
  let p_shrinkage :=
    {| ceiling_fte := round_nd 1 shrinkage_fte;
       remaining_fte := round_nd 1 shrinkage_fte;
       ceiling_saving := py_round shrinkage_saving;
       ceiling_contacts := None; remaining_contacts := None;
       ceiling_seconds := None; remaining_seconds := None;
       remaining_saving := Some (py_round shrinkage_saving) |} in
  {| pools_of :=
       <["deflection"%string := p_deflection]>
       (<["aht_reduction"%string := p_aht]>
       (<["transfer_reduction"%string := p_transfer]>
       (<["escalation_reduction"%string := p_escalation]>
       (<["repeat_reduction"%string := p_repeat]>
       (<["location"%string := p_location]>
       (<["shrinkage_reduction"%string := p_shrinkage]> ∅))))));
     annualization_factor := annualization |}.

(** The dictionary that [consume_pool] returns; a key that a return
    statement omits keeps the value the callers' [.get] would not see. *)
Record Consumption := {
  consumed_fte : Q;
  consumed_contacts : Z;
  consumed_seconds : Z;
  capped : bool;
  pool_exhausted : bool;
  unknown_lever : bool;
  pool_remaining_fte : option Q
}.

(** A record written by [logging.warning]. *)
Inductive LogRecord :=
| UnknownLeverWarning (lever : string).

Definition lever_pool_map : gmap string string :=
  list_to_map
    [("deflection", "deflection"); ("aht_reduction", "aht_reduction");
     ("escalation_reduction", "escalation_reduction");
     ("transfer_reduction", "transfer_reduction");
     ("repeat_reduction", "repeat_reduction");
     ("cost_reduction", "location");
     ("shrinkage_reduction", "shrinkage_reduction")]%string.

(** [consume_pool]: the result, the pools after the in-place update, and
    the warnings logged by the call. *)
Definition consume_pool (pools : gmap string Pool) (lever : string)
    (amount_fte : Q) (amount_contacts amount_seconds : Z)
    : Consumption * gmap string Pool * list LogRecord :=
  let pool_key := default lever (lever_pool_map !! lever) in
  match pools !! pool_key with
  | None =>
      ({| consumed_fte := 0; consumed_contacts := 0; consumed_seconds := 0;
          capped := true; pool_exhausted := false; unknown_lever := true;
          pool_remaining_fte := None |},
       pools, [UnknownLeverWarning lever])
  | Some pool =>
      let remaining := remaining_fte pool in
      if Qleb remaining 0 then
        ({| consumed_fte := 0; consumed_contacts := 0; consumed_seconds := 0;
            capped := true; pool_exhausted := true; unknown_lever := false;
            pool_remaining_fte := None |},
         pools, [])
      else
        let actual_fte := Qmin amount_fte remaining in
        let cap_ratio := actual_fte / Qmax amount_fte 0.001 in
        let new_remaining := round_nd 1 (remaining - actual_fte) in
        let new_contacts :=
          match remaining_contacts pool with
          | Some rc =>
              if (0 <? amount_contacts)%Z
              then Some (Z.max 0 (py_round (inject_Z rc
                                            - inject_Z amount_contacts * cap_ratio)))
              else Some rc
          | None => None
          end in
        let new_seconds :=
          match remaining_seconds pool with
          | Some rs =>
              if (0 <? amount_seconds)%Z
              then Some (Z.max 0 (py_round (inject_Z rs
                                            - inject_Z amount_seconds * cap_ratio)))
              else Some rs
          | None => None
          end in
        let new_saving :=
          match remaining_saving pool with
          | Some rsv =>
              Some (Z.max 0 (py_round (inject_Z rsv
                       - actual_fte * inject_Z (ceiling_saving pool)
                         / Qmax (ceiling_fte pool) 0.1)))
          | None => None
          end in
        let pool' :=
          {| ceiling_fte := ceiling_fte pool;
             remaining_fte := new_remaining;
             ceiling_saving := ceiling_saving pool;
             ceiling_contacts := ceiling_contacts pool;
             remaining_contacts := new_contacts;
             ceiling_seconds := ceiling_seconds pool;
             remaining_seconds := new_seconds;
             remaining_saving := new_saving |} in
        ({| consumed_fte := round_nd 1 actual_fte;
            consumed_contacts :=
              if (amount_contacts =? 0)%Z then 0%Z
              else py_round (inject_Z amount_contacts * cap_ratio);
            consumed_seconds :=
              if (amount_seconds =? 0)%Z then 0%Z
              else py_round (inject_Z amount_seconds * cap_ratio);
            capped := Qltb cap_ratio 0.95;
            pool_exhausted := Qleb new_remaining 0.5;
            unknown_lever := false;
            pool_remaining_fte := Some new_remaining |},
         <[pool_key := pool']> pools, [])
  end.

(** ** engines/gross.py *)

(** An initiative as the cascade reads it.  A key that the cascade reads
    with [.get] has the same default everywhere it is read; a missing key
    is represented by that default ([benefitEndMonth] = 0, [startMonth] = 1,
    [ramp] = 12, ...). *)
Record Initiative := {
  id : string;
  layer : string;
  lever : string;
  impact : Q;
  adoption : Q;
  channels : list string;
  target_roles : list string;
  effort : string;
  ramp : Z;
  startMonth : Z;
  benefitEndMonth : Z;
  enabled : bool;
  matchScore : Q;
  score : Q
}.

(** The dictionary a gross-impact formula returns (without the
    explanatory strings). *)
Record Gross := {
  gross_fte : Q;
  gross_contacts : Z;
  gross_seconds : Z;
  gross_saving : Z;
  gross_fte_migrated : option Q;
  eligible_volume : Q;
  _is_location : bool
}.

Definition qvol (q : EQueue) : Q := volume (raw q).

Definition _gross_deflection (queues : list EQueue)
    (affected_fte cost net_hours impact adoption : Q) : Gross :=
  let total_deflectable :=
    Qsum (fun q =>
            let eligible_pct := eget deflection_eligible_pct 0 q in
            let containment := eget containment_feasibility 0 q in
            let effective_rate := eligible_pct * Qmin impact containment * adoption in
            qvol q * effective_rate) queues in
  let avg_aht_sec :=
    Qsum (fun q => aht (raw q) * 60 * qvol q) queues / Qmax (Qsum qvol queues) 1 in
  let hours_saved := (total_deflectable * avg_aht_sec) / 3600 in
  let gross_fte_ := hours_saved / Qmax net_hours 1 in
  {| gross_fte := round_nd 1 gross_fte_;
     gross_contacts := py_round total_deflectable;
     gross_seconds := 0;
     gross_saving := py_round (gross_fte_ * cost);
     gross_fte_migrated := None;
     eligible_volume := Qsum qvol queues;
     _is_location := false |}.

Definition _gross_aht_reduction (queues : list EQueue)
    (affected_fte cost net_hours impact adoption total_vol : Q) : Gross :=
  let total_seconds_saved :=
    Qsum (fun q =>
            let reducible :=
              eget (fun e => reducible_sec (aht_decomp e))
                   (aht (raw q) * 60 * 0.35) q in
            let seconds_per_contact := reducible * impact * adoption in
            qvol q * seconds_per_contact) queues in
  let hours_saved := total_seconds_saved / 3600 in
  let gross_fte_ := hours_saved / Qmax net_hours 1 in
  {| gross_fte := round_nd 1 gross_fte_;
     gross_contacts := 0;
     gross_seconds := py_round total_seconds_saved;
     gross_saving := py_round (gross_fte_ * cost);
     gross_fte_migrated := None;
     eligible_volume := total_vol;
     _is_location := false |}.

Definition _gross_escalation (queues : list EQueue)
    (affected_fte cost net_hours impact adoption : Q) : Gross :=
  let total_prevented :=
    Qsum (fun q =>
            let esc_rate := default 0 (escalation (raw q)) in
            let complexity := default 0.5 (complexity (raw q)) in
            let prev_share := Qmax 0.10 (0.60 - complexity * 0.50) in
            qvol q * esc_rate * prev_share * impact * adoption) queues in
  let extra_sec_per_esc := 900 in
  let hours_saved := (total_prevented * extra_sec_per_esc) / 3600 in
  let gross_fte_ := hours_saved / Qmax net_hours 1 in
  {| gross_fte := round_nd 1 gross_fte_;
     gross_contacts := py_round total_prevented;
     gross_seconds := 0;
     gross_saving := py_round (gross_fte_ * cost);
     gross_fte_migrated := None;
     eligible_volume := Qsum qvol queues;
     _is_location := false |}.

(** The preventable share that [_gross_transfer] applies to one queue:
    the queue's own ['preventable_transfer_pct'] when it has that key,
    otherwise the linear fallback. *)
Definition transfer_prev_share (q : EQueue) : Q :=
  let complexity := default 0.5 (complexity (raw q)) in
  default (Qmax 0.15 (0.55 - complexity * 0.40)) (preventable_transfer_pct (raw q)).

Definition _gross_transfer (queues : list EQueue)
    (affected_fte cost net_hours impact adoption : Q) : Gross :=
  let total_prevented :=
    Qsum (fun q =>
            let transfer_rate_ :=
              default (default 0 (transfer_rate (raw q))) (transfer (raw q)) in
            let prev_share := transfer_prev_share q in
            qvol q * transfer_rate_ * prev_share * impact * adoption) queues in
  let extra_sec_per_transfer := 180 in
  let hours_saved := (total_prevented * extra_sec_per_transfer) / 3600 in
  let gross_fte_ := hours_saved / Qmax net_hours 1 in
  {| gross_fte := round_nd 1 gross_fte_;
     gross_contacts := py_round total_prevented;
     gross_seconds := 0;
     gross_saving := py_round (gross_fte_ * cost);
     gross_fte_migrated := None;
     eligible_volume := Qsum qvol queues;
     _is_location := false |}.

Definition _gross_repeat (queues : list EQueue)
    (affected_fte cost net_hours impact adoption : Q) : Gross :=
  let total_vol := Qsum qvol queues in
  let weighted_repeat :=
    if Qltb 0 total_vol
    then Qsum (fun q => default 0 (repeat_ (raw q)) * qvol q) queues / total_vol
    else 0 in
  let REPEAT_FLOOR := 0.02 in
  let use_fallback := Qltb weighted_repeat REPEAT_FLOOR in
  let weighted_fcr :=
    Qsum (fun q => default 0.75 (fcr (raw q)) * qvol q) queues / Qmax total_vol 1 in
  let fallback_repeat := Qmax 0.05 ((1 - weighted_fcr) * 0.60) in
  let total_eliminated :=
    Qsum (fun q =>
            let repeat_rate :=
              if use_fallback then fallback_repeat
              else default 0 (repeat_ (raw q)) in
            let eliminable := qvol q * repeat_rate * impact * adoption in
            Qmin eliminable (qvol q * repeat_rate * 0.70)) queues in
  let avg_aht_sec :=
    Qsum (fun q => aht (raw q) * 60 * qvol q) queues / Qmax (Qsum qvol queues) 1 in
  let hours_saved := (total_eliminated * avg_aht_sec) / 3600 in
  let gross_fte_ := hours_saved / Qmax net_hours 1 in
  {| gross_fte := round_nd 1 gross_fte_;
     gross_contacts := py_round total_eliminated;
     gross_seconds := 0;
     gross_saving := py_round (gross_fte_ * cost);
     gross_fte_migrated := None;
     eligible_volume := Qsum qvol queues;
     _is_location := false |}.

Definition _gross_location (queues : list EQueue)
    (affected_fte cost impact adoption : Q) (params : Params) : Gross :=
  let total_vol := Qsum qvol queues in
  let migratable_share :=
    if Qltb 0 total_vol
    then Qsum (fun q => qvol q * eget migration_readiness 0 q) queues / total_vol
    else 0 in
  let fte_migrated := affected_fte * migratable_share * impact * adoption in
  let cost_arbitrage := default 0.35 (locationArbitrage params) in
  let saving := fte_migrated * cost * cost_arbitrage in
  {| gross_fte := 0;
     gross_contacts := 0;
     gross_seconds := 0;
     gross_saving := py_round saving;
     gross_fte_migrated := Some (round_nd 1 fte_migrated);
     eligible_volume := total_vol;
     _is_location := true |}.

Definition _gross_shrinkage (affected_fte cost impact adoption : Q)
    (params : Params) : Gross :=
  let current_shrinkage := default 0.30 (shrinkage params) in
  let shrinkage_reduction := current_shrinkage * impact * adoption in
  let target := default 0.22 (targetShrinkage params) in
  let max_reduction := Qmax 0 (current_shrinkage - target) in
  let shrinkage_reduction := Qmin shrinkage_reduction max_reduction in
  let fte_freed := affected_fte * shrinkage_reduction in
  let saving := fte_freed * cost in
  {| gross_fte := round_nd 1 fte_freed;
     gross_contacts := 0;
     gross_seconds := 0;
     gross_saving := py_round saving;
     gross_fte_migrated := None;
     eligible_volume := 0;
     _is_location := false |}.

Definition _gross_generic (affected_fte cost impact adoption : Q) : Gross :=
  let raw_fte := affected_fte * impact * adoption * 0.75 in
  let saving := raw_fte * cost in
  {| gross_fte := round_nd 1 raw_fte;
     gross_contacts := 0;
     gross_seconds := 0;
     gross_saving := py_round saving;
     gross_fte_migrated := None;
     eligible_volume := 0;
     _is_location := false |}.

(** The queues a formula is restricted to: those on the initiative's
    channels, or every queue when there is none. *)
Definition matching_queues (initiative : Initiative)
    (enriched_queues : list EQueue) : list EQueue :=
  match List.filter (fun q => str_in (channel (raw q)) (channels initiative))
               enriched_queues with
  | [] => enriched_queues
  | m => m
  end.

Definition affected_roles (initiative : Initiative) (roles : list Role) : list Role :=
  List.filter (fun r => str_in (role r) (target_roles initiative)) roles.

(** The dispatch of [compute_gross_impact] on the lever, once the queues
    to use are chosen. *)
Definition gross_dispatch (initiative : Initiative) (queues : list EQueue)
    (roles : list Role) (params : Params) : Gross :=
  let lever := lever initiative in
  let impact := impact initiative in
  let adoption := adoption initiative in
  let affected := affected_roles initiative roles in
  let affected_fte := Qsum headcount affected in
  let weighted_cost := weighted_cost_of affected 55000 in
  let shrinkage_ := default 0.30 (shrinkage params) in
  let net_prod_hours := default 2080 (grossHoursPerYear params) * (1 - shrinkage_) in
  let total_matching_volume := Qsum qvol queues in
  if String.eqb lever "deflection" then
    _gross_deflection queues affected_fte weighted_cost net_prod_hours impact adoption
  else if String.eqb lever "aht_reduction" then
    _gross_aht_reduction queues affected_fte weighted_cost net_prod_hours
                         impact adoption total_matching_volume
  else if String.eqb lever "escalation_reduction" then
    _gross_escalation queues affected_fte weighted_cost net_prod_hours impact adoption
  else if String.eqb lever "repeat_reduction" then
    _gross_repeat queues affected_fte weighted_cost net_prod_hours impact adoption
  else if String.eqb lever "transfer_reduction" then
    _gross_transfer queues affected_fte weighted_cost net_prod_hours impact adoption
  else if String.eqb lever "cost_reduction" then
    _gross_location queues affected_fte weighted_cost impact adoption params
  else if String.eqb lever "shrinkage_reduction" then
    _gross_shrinkage affected_fte weighted_cost impact adoption params
  else
    _gross_generic affected_fte weighted_cost impact adoption.

Definition compute_gross_impact (initiative : Initiative)
    (enriched_queues : list EQueue) (roles : list Role)
    (pools_data : option PoolResult) (params : Params) : Gross :=
  gross_dispatch initiative (matching_queues initiative enriched_queues) roles params.

(** ** engines/waterfall.py: caps, ramp phasing and the cascade *)

Definition INITIATIVE_FTE_CAPS : gmap string Q :=
  list_to_map
    [("deflection", 0.18); ("aht_reduction", 0.12);
     ("escalation_reduction", 0.10); ("repeat_reduction", 0.12);
     ("shrinkage_reduction", 0.10); ("cost_reduction", 0.15)]%string.

Definition ABSOLUTE_SINGLE_INIT_CAP : Q := 0.20.
Definition PER_ROLE_MAX_REDUCTION : Q := 0.45.

Definition LEVER_ORDER : list string :=
  ["deflection"; "aht_reduction"; "repeat_reduction"; "transfer_reduction";
   "escalation_reduction"; "shrinkage_reduction"; "cost_reduction"]%string.

(** The keys that [run_waterfall] writes on an initiative.  A key that is
    absent before the run is represented by an arbitrary value: the run
    never reads one before writing it. *)
Record Annotations := {
  _fteImpact : Q;
  _annualSaving : Q;
  _effectiveImpact : Q;
  _contributionPct : Q;
  _poolConsumed : Q;
  _poolCapped : bool;
  _grossFTE : Q;
  _grossSaving : Q;
  _rampPcts : list Q;
  _yearlyFactors : list Q;
  _startMonth : Z;
  _endMonth : Z;
  _rampCompleteMonth : Z;
  _linkedQueues : nat;
  _capApplied : bool
}.

(** One element of the [initiatives] list: the keys the run reads and the
    keys it writes. *)
Record InitRec := {
  ini : Initiative;
  ann : Annotations
}.

Record AuditEntry := {
  a_id : string;
  a_lever : string;
  a_gross_fte : Q;
  a_net_fte : Q;
  a_saving : Q;
  a_pool_capped : bool;
  a_safety_capped : option bool;
  a_gross_migrated : option Q;
  a_net_migrated : option Q
}.

Record RoleLedger := {
  baseline : Q;
  yearly : list Q
}.

(** The mutable state of one cascade: the pools, the two per-role
    ledgers, the audit trail and the warnings logged so far. *)
Record Ledgers := {
  pools : gmap string Pool;
  role_impact : gmap string RoleLedger;
  role_cum : gmap string Q;
  audit_trail : list AuditEntry;
  warnings : list LogRecord
}.

(** The inputs of a run other than the initiatives. *)
Record Data := {
  params : Params;
  roles : list Role;
  queues : list Queue;
  totalFTE : Q
}.

Section Cascade.

(** The float that [_s_curve_ramp(months_since_golive, ramp_months)]
    returns; the function itself is modelled over the reals below. *)
Variable ramp_value : Z -> Z -> Q.

(** The inner loop of [_compute_yearly_factors] for one year: the sum of
    the ramp and the number of active months among months [m .. m+n-1]. *)
Fixpoint year_months (start_month end_month ramp_months : Z) (m : Z) (n : nat)
    : Q * Z :=
  match n with
  | O => (0, 0%Z)
  | S n' =>
      let '(s, a) := year_months start_month end_month ramp_months (m + 1) n' in
      if ((m <? start_month) || (end_month <? m))%Z then (s, a)
      else (ramp_value (m - start_month + 1) ramp_months + s, (a + 1)%Z)
  end.

Definition _compute_yearly_factors (start_month end_month : Z)
    (horizon_years : nat) (ramp_months : Z) : list Q :=
  let total_months := (Z.of_nat horizon_years * 12)%Z in
  let end_month := if (end_month <=? 0)%Z then total_months else end_month in
  let end_month := Z.min end_month total_months in
  map (fun yr =>
         let yr_start := (Z.of_nat yr * 12 + 1)%Z in
         let '(month_sum, active_months) :=
           year_months start_month end_month ramp_months yr_start 12 in
         if (0 <? active_months)%Z then
           let avg_ramp := month_sum / inject_Z active_months in
           round_nd 4 (avg_ramp * inject_Z active_months / 12)
         else 0)
      (seq 0 horizon_years).

(** [role_cum[r['role']]] *)
Definition cum_of (rc : gmap string Q) (r : Role) : Q :=
  default 0 (rc !! role r).

(** [for r in affected: role_cum[r['role']] += red * (r['headcount'] / tot_aff)] *)
Definition add_role_cum (red tot_aff : Q) (affected : list Role)
    (rc : gmap string Q) : gmap string Q :=
  fold_left
    (fun rc r => alter (fun c => c + red * (headcount r / tot_aff)) (role r) rc)
    affected rc.

(** The two nested loops that add the phased reduction to the yearly
    ledger of every affected role. *)
Definition add_role_impact (red tot_aff : Q) (yearly_factors : list Q)
    (affected : list Role) (ri : gmap string RoleLedger)
    : gmap string RoleLedger :=
  fold_left
    (fun ri r =>
       alter (fun led =>
                {| baseline := baseline led;
                   yearly :=
                     imap (fun yr v =>
                             v + red * nth yr yearly_factors 0
                                 * (headcount r / tot_aff))
                          (yearly led) |})
             (role r) ri)
    affected ri.

(** [sum(1 for q in queues if q['channel'] in init['channels'])] *)
Definition linked_queues (i : Initiative) (qs : list Queue) : nat :=
  length (List.filter (fun q => str_in (channel q) (channels i)) qs).

(** What the cascade needs besides the ledgers: the annualized enriched
    queues, the pool result, and the run's inputs. *)
Record Env := {
  e_data : Data;
  e_annual_queues : list EQueue;
  e_pool_result : option PoolResult
}.

(** The reduction that step 4c grants: the per-type cap, the absolute cap
    and the room left under the per-role cap. *)
Definition capped_reduction (lever : string) (net_fte tot_aff : Q)
    (affected : list Role) (rc : gmap string Q) : Q :=
  let type_cap := default 0.12 (INITIATIVE_FTE_CAPS !! lever) * tot_aff in
  let abs_cap := ABSOLUTE_SINGLE_INIT_CAP * tot_aff in
  let red := Qmin (Qmin net_fte type_cap) abs_cap in
  let avail :=
    Qsum (fun r => Qmax 0 (headcount r * PER_ROLE_MAX_REDUCTION - cum_of rc r))
         affected in
  let red := Qmin red avail in
  Qmax 0 red.

Definition has_key {A} (m : gmap string A) (k : string) : bool :=
  match m !! k with
  | Some _ => true
  | None => false
  end.

(** The body of the cascade loop for one initiative: the ledgers after
    it and the keys it writes on the initiative. *)
Definition process_initiative (env : Env) (led : Ledgers)
    (i : Initiative) (a : Annotations) : Ledgers * Annotations :=
  let d := e_data env in
  let horizon := horizon (params d) in
  let affected := affected_roles i (roles d) in
  let tot_aff := Qsum headcount affected in
  if Qeq_bool tot_aff 0 then
    (led,
     {| _fteImpact := 0; _annualSaving := 0; _effectiveImpact := 0;
        _contributionPct := 0; _poolConsumed := 0; _poolCapped := false;
        _grossFTE := _grossFTE a; _grossSaving := _grossSaving a;
        _rampPcts := _rampPcts a; _yearlyFactors := _yearlyFactors a;
        _startMonth := _startMonth a; _endMonth := _endMonth a;
        _rampCompleteMonth := _rampCompleteMonth a;
        _linkedQueues := _linkedQueues a; _capApplied := _capApplied a |})
  else
    let lever := lever i in
    let gross := compute_gross_impact i (e_annual_queues env) (roles d)
                                      (e_pool_result env) (params d) in
    let raw_fte := gross_fte gross in
    let start_m := Z.max 1 (startMonth i) in
    let benefit_end := benefitEndMonth i in
    let ramp_months := ramp i in
    let yearly_factors :=
      _compute_yearly_factors start_m benefit_end horizon ramp_months in
    let end_m :=
      if (0 <? benefit_end)%Z then benefit_end else (Z.of_nat horizon * 12)%Z in
    if _is_location gross then
      let gross_migrated := default 0 (gross_fte_migrated gross) in
      let gross_saving_ := inject_Z (gross_saving gross) in
      let '(gross_saving_, gross_migrated', pool_capped, pools', logs) :=
        if negb (size (pools led) =? 0)%nat
           && has_key (pools led) "cost_reduction"
           && Qltb 0 gross_migrated
        then
          let '(loc_consumption, pools', logs) :=
            consume_pool (pools led) "cost_reduction" gross_migrated 0 0 in
          let consumed := consumed_fte loc_consumption in
          if Qltb consumed gross_migrated && Qltb 0 gross_migrated
          then (gross_saving_ * (consumed / gross_migrated), consumed,
                capped loc_consumption, pools', logs)
          else (gross_saving_, gross_migrated, capped loc_consumption,
                pools', logs)
        else (gross_saving_, gross_migrated, false, pools led, []) in
      let annual_saving := inject_Z (py_round gross_saving_) in
      ({| pools := pools';
          role_impact := role_impact led;
          role_cum := role_cum led;
          audit_trail :=
            audit_trail led ++
            [{| a_id := id i; a_lever := lever; a_gross_fte := 0;
                a_net_fte := 0; a_saving := annual_saving;
                a_pool_capped := pool_capped; a_safety_capped := None;
                a_gross_migrated := Some gross_migrated;
                a_net_migrated := Some (round_nd 1 gross_migrated') |}];
          warnings := warnings led ++ logs |},
       {| _fteImpact := 0; _annualSaving := annual_saving;
          _effectiveImpact := 0; _contributionPct := _contributionPct a;
          _poolConsumed := round_nd 1 gross_migrated';
          _poolCapped := pool_capped;
          _grossFTE := 0; _grossSaving := inject_Z (gross_saving gross);
          _rampPcts := firstn horizon yearly_factors;
          _yearlyFactors := firstn horizon yearly_factors;
          _startMonth := start_m; _endMonth := end_m;
          _rampCompleteMonth := (start_m + ramp_months)%Z;
          _linkedQueues := linked_queues i (queues d);
          _capApplied := pool_capped |})
    else
      let '(consumption, pools', logs) :=
        consume_pool (pools led) lever raw_fte
                     (gross_contacts gross) (gross_seconds gross) in
      let net_fte := consumed_fte consumption in
      let pool_capped := capped consumption in
      let red := capped_reduction lever net_fte tot_aff affected (role_cum led) in
      let wtd :=
        Qsum (fun r => headcount r * costPerFTE r) affected / Qmax tot_aff 1 in
      let cap_applied := Qltb red (raw_fte * 0.95) in
      ({| pools := pools';
          role_impact :=
            add_role_impact red tot_aff yearly_factors affected (role_impact led);
          role_cum := add_role_cum red tot_aff affected (role_cum led);
          audit_trail :=
            audit_trail led ++
            [{| a_id := id i; a_lever := lever;
                a_gross_fte := round_nd 1 raw_fte; a_net_fte := round_nd 1 red;
                a_saving := inject_Z (py_round (red * wtd));
                a_pool_capped := pool_capped;
                a_safety_capped := Some cap_applied;
                a_gross_migrated := None; a_net_migrated := None |}];
          warnings := warnings led ++ logs |},
       {| _fteImpact := round_nd 1 red;
          _annualSaving := round_nd 0 (red * wtd);
          _effectiveImpact := round_nd 4 (red / Qmax tot_aff 1);
          _contributionPct := _contributionPct a;
          _poolConsumed := round_nd 1 red;
          _poolCapped := pool_capped;
          _grossFTE := round_nd 1 raw_fte;
          _grossSaving := round_nd 0 (raw_fte * wtd);
          _rampPcts := firstn horizon yearly_factors;
          _yearlyFactors := firstn horizon yearly_factors;
          _startMonth := start_m; _endMonth := end_m;
          _rampCompleteMonth := (start_m + ramp_months)%Z;
          _linkedQueues := linked_queues i (queues d);
          _capApplied := cap_applied |}).

(** *** Order of the cascade *)

Definition layer_order (l : string) : Z :=
  if String.eqb l "AI & Automation" then 0
  else if String.eqb l "Operating Model" then 1
  else if String.eqb l "Location Strategy" then 2
  else 9.

Fixpoint index_of (x : string) (l : list string) (n : Z) : option Z :=
  match l with
  | [] => None
  | y :: l' => if String.eqb x y then Some n else index_of x l' (n + 1)
  end.

Definition lever_order (lv : string) : Z :=
  default 9%Z (index_of lv LEVER_ORDER 0).

Definition sort_key (i : Initiative) : Z * Z * Q :=
  (layer_order (layer i), lever_order (lever i), - matchScore i).

(** Python's [<] on the key tuples. *)
Definition key_lt (a b : Z * Z * Q) : bool :=
  let '(a1, a2, a3) := a in
  let '(b1, b2, b3) := b in
  if (a1 <? b1)%Z then true
  else if (b1 <? a1)%Z then false
  else if (a2 <? b2)%Z then true
  else if (b2 <? a2)%Z then false
  else Qltb a3 b3.

(** [sorted(..., key=...)] is stable: an element goes after the elements
    already placed whose key is not greater. *)
Fixpoint insert_stable {A} (key : A -> Z * Z * Q) (x : A) (l : list A) : list A :=
  match l with
  | [] => [x]
  | y :: l' =>
      if key_lt (key x) (key y) then x :: y :: l'
      else y :: insert_stable key x l'
  end.

Definition sorted_by {A} (key : A -> Z * Z * Q) (l : list A) : list A :=
  fold_left (fun acc x => insert_stable key x acc) l [].

(** Positions in [initiatives] of the enabled ones. *)
Definition enabled_indices (inits : list InitRec) : list nat :=
  List.filter (fun k => match inits !! k with
                   | Some r => enabled (ini r)
                   | None => false
                   end)
         (seq 0 (length inits)).

(** [sorted_inits], as positions in [initiatives]. *)
Definition sorted_inits (inits : list InitRec) : list nat :=
  sorted_by (fun k => match inits !! k with
                      | Some r => sort_key (ini r)
                      | None => (9%Z, 9%Z, 0)
                      end)
            (enabled_indices inits).

(** *** Steps 1 to 3 of [run_waterfall] *)

Definition annualize (annualization : Q) (q : EQueue) : EQueue :=
  {| raw :=
       {| intent := intent (raw q); channel := channel (raw q);
          volume := inject_Z (py_round (volume (raw q) * annualization));
          aht := aht (raw q); acw := acw (raw q);
          transfer := transfer (raw q); transfer_rate := transfer_rate (raw q);
          escalation := escalation (raw q); repeat_ := repeat_ (raw q);
          fcr := fcr (raw q); complexity := complexity (raw q);
          preventable_transfer_pct := preventable_transfer_pct (raw q) |};
     enr := enr q |}.

Definition make_env (d : Data) : Env :=
  let enriched_queues := enrich_intents (queues d) in
  let pool_result := compute_pools enriched_queues (roles d) (params d) in
  let annualization := annualization_factor pool_result in
  {| e_data := d;
     e_annual_queues := map (annualize annualization) enriched_queues;
     e_pool_result := Some pool_result |}.

Definition initial_ledgers (d : Data) : Ledgers :=
  let pool_result := compute_pools (enrich_intents (queues d)) (roles d) (params d) in
  {| pools := pools_of pool_result;
     role_impact :=
       fold_left (fun m r =>
                    <[role r := {| baseline := headcount r;
                                   yearly := repeat 0 (horizon (params d)) |}]> m)
                 (roles d) ∅;
     role_cum := fold_left (fun m r => <[role r := 0]> m) (roles d) ∅;
     audit_trail := [];
     warnings := [] |}.

(** *** Step 4: the cascade over the sorted initiatives *)

Definition cascade_step (env : Env) (st : Ledgers * list InitRec) (k : nat)
    : Ledgers * list InitRec :=
  match st.2 !! k with
  | None => st
  | Some r =>
      let '(led', a') := process_initiative env st.1 (ini r) (ann r) in
      (led', <[k := {| ini := ini r; ann := a' |}]> st.2)
  end.

Definition cascade (env : Env) (led : Ledgers) (inits : list InitRec)
    (order : list nat) : Ledgers * list InitRec :=
  fold_left (cascade_step env) order (led, inits).

(** The ledgers and the initiatives when the cascade of
    [run_waterfall(data, initiatives)] is over. *)
Definition run_cascade (d : Data) (inits : list InitRec)
    : Ledgers * list InitRec :=
  cascade (make_env d) (initial_ledgers d) inits (sorted_inits inits).

(** *** The contribution percentages *)

Definition set_contribution (v : Q) (r : InitRec) : InitRec :=
  let a := ann r in
  {| ini := ini r;
     ann :=
       {| _fteImpact := _fteImpact a; _annualSaving := _annualSaving a;
          _effectiveImpact := _effectiveImpact a; _contributionPct := v;
          _poolConsumed := _poolConsumed a; _poolCapped := _poolCapped a;
          _grossFTE := _grossFTE a; _grossSaving := _grossSaving a;
          _rampPcts := _rampPcts a; _yearlyFactors := _yearlyFactors a;
          _startMonth := _startMonth a; _endMonth := _endMonth a;
          _rampCompleteMonth := _rampCompleteMonth a;
          _linkedQueues := _linkedQueues a; _capApplied := _capApplied a |} |}.

Definition contribution_pct (tot_isav s : Q) : Q :=
  if Qltb 0 tot_isav
  then Qmin 100 (Qmax 0 (round_nd 1 (s / Qmax tot_isav 1 * 100)))
  else 0.

Definition write_contribution (inits : list InitRec) : list InitRec :=
  let tot_isav :=
    Qsum (fun r => _annualSaving (ann r))
         (List.filter (fun r => enabled (ini r) && Qltb 0 (_annualSaving (ann r)))
                 inits) in
  map (fun r =>
         if enabled (ini r)
         then set_contribution (contribution_pct tot_isav (_annualSaving (ann r))) r
         else set_contribution 0 r)
      inits.

(** *** Scenario and sensitivity sub-runs: their effect on the base run *)

(** [data['params'].get(pk, 0)] *)
Definition get_param (pk : string) (p : Params) : Q :=
  if String.eqb pk "discountRate" then discountRate p
  else if String.eqb pk "wageInflation" then wageInflation p
  else if String.eqb pk "shrinkage" then default 0 (shrinkage p)
  else if String.eqb pk "targetShrinkage" then default 0 (targetShrinkage p)
  else if String.eqb pk "grossHoursPerYear" then default 0 (grossHoursPerYear p)
  else if String.eqb pk "volumeAnnualizationFactor"
       then default 0 (volumeAnnualizationFactor p)
  else if String.eqb pk "locationArbitrage" then default 0 (locationArbitrage p)
  else default 0 (extra p !! pk).

(** [params[pk] = v] on a copy of the dictionary. *)
Definition set_param (pk : string) (v : Q) (p : Params) : Params :=
  {| horizon := horizon p;
     discountRate := if String.eqb pk "discountRate" then v else discountRate p;
     wageInflation := if String.eqb pk "wageInflation" then v else wageInflation p;
     shrinkage := if String.eqb pk "shrinkage" then Some v else shrinkage p;
     targetShrinkage :=
       if String.eqb pk "targetShrinkage" then Some v else targetShrinkage p;
     grossHoursPerYear :=
       if String.eqb pk "grossHoursPerYear" then Some v else grossHoursPerYear p;
     volumeAnnualizationFactor :=
       if String.eqb pk "volumeAnnualizationFactor" then Some v
       else volumeAnnualizationFactor p;
     locationArbitrage :=
       if String.eqb pk "locationArbitrage" then Some v else locationArbitrage p;
     extra :=
       if str_in pk ["discountRate"; "wageInflation"; "shrinkage";
                     "targetShrinkage"; "grossHoursPerYear";
                     "volumeAnnualizationFactor"; "locationArbitrage"]%string
       then extra p else <[pk := v]> (extra p) |}.

(** [d = copy.deepcopy(data); d['params'][pk] = v] *)
Definition perturbed (d : Data) (pk : string) (v : Q) : Data :=
  {| params := set_param pk v (params d); roles := roles d;
     queues := queues d; totalFTE := totalFTE d |}.

Definition with_adoption_ramp (adoption' : Q) (ramp' : Z) (i : Initiative)
    : Initiative :=
  {| id := id i; layer := layer i; lever := lever i; impact := impact i;
     adoption := adoption'; channels := channels i;
     target_roles := target_roles i; effort := effort i; ramp := ramp';
     startMonth := startMonth i; benefitEndMonth := benefitEndMonth i;
     enabled := enabled i; matchScore := matchScore i; score := score i |}.

(** A deep copy of [initiatives] with every initiative's input keys
    rewritten by [f]. *)
Definition copy_with (f : Initiative -> Initiative) (inits : list InitRec)
    : list InitRec :=
  map (fun r => {| ini := f (ini r); ann := ann r |}) inits.

(** What a call [run_waterfall(d, inits, _skip_sensitivity=True,
    _skip_scenarios=True)] leaves in the list it was given, and whether it
    raised.  The cascade itself cannot raise; the projection that follows
    can (a parameter may make it divide by zero), and then the
    contribution percentages are not written; whatever follows the
    contribution loop writes nothing to the initiatives. *)
Inductive run_waterfall_effect (d : Data) (inits : list InitRec)
    : list InitRec -> bool -> Prop :=
| rw_raises_in_projection :
    run_waterfall_effect d inits (run_cascade d inits).2 true
| rw_raises_later :
    run_waterfall_effect d inits
      (write_contribution (run_cascade d inits).2) true
| rw_returns :
    run_waterfall_effect d inits
      (write_contribution (run_cascade d inits).2) false.

(** What the base run holds while its scenarios and sensitivities are
    computed: its inputs and its list of initiatives. *)
Record World := {
  w_data : Data;
  w_inits : list InitRec
}.

(** One scenario of [_compute_scenarios]: the run works on a deep copy
    [mi] of the initiatives. *)
Inductive scenario_effect (amult ramp_mult : Q) (w : World) : World -> Prop :=
| scenario_ran mi' raised :
    run_waterfall_effect (w_data w)
      (copy_with (fun i =>
                    with_adoption_ramp
                      (Qmin 1 (adoption i * amult))
                      (Z.max 2 (py_round (inject_Z (ramp i) * ramp_mult))) i)
                 (w_inits w))
      mi' raised ->
    scenario_effect amult ramp_mult w w.

Inductive _compute_scenarios_effect (w : World) : World -> Prop :=
| scenarios_ran w1 w2 :
    scenario_effect 0.70 1.50 w w1 ->
    scenario_effect 1.30 0.60 w1 w2 ->
    _compute_scenarios_effect w w2.

(** One variable of [_run_sensitivity].  The adoption variable runs on two
    deep copies of the initiatives; every other variable runs twice on the
    base run's own list, with a deep copy of the data.  When the first run
    raises, the second is skipped. *)
Inductive sensitivity_variable_effect (pk : string) (sf : Q) (w : World)
    : World -> Prop :=
| sens_adoption_low_raises li' :
    pk = "_adoption"%string ->
    run_waterfall_effect (w_data w)
      (copy_with (fun i => with_adoption_ramp (adoption i * (1 - sf)) (ramp i) i)
                 (w_inits w)) li' true ->
    sensitivity_variable_effect pk sf w w
| sens_adoption_both li' hi' raised :
    pk = "_adoption"%string ->
    run_waterfall_effect (w_data w)
      (copy_with (fun i => with_adoption_ramp (adoption i * (1 - sf)) (ramp i) i)
                 (w_inits w)) li' false ->
    run_waterfall_effect (w_data w)
      (copy_with (fun i =>
                    with_adoption_ramp (Qmin 1 (adoption i * (1 + sf))) (ramp i) i)
                 (w_inits w)) hi' raised ->
    sensitivity_variable_effect pk sf w w
| sens_param_low_raises s1 :
    pk <> "_adoption"%string ->
    run_waterfall_effect
      (perturbed (w_data w) pk (get_param pk (params (w_data w)) * (1 - sf)))
      (w_inits w) s1 true ->
    sensitivity_variable_effect pk sf w {| w_data := w_data w; w_inits := s1 |}
| sens_param_both s1 s2 raised :
    pk <> "_adoption"%string ->
    run_waterfall_effect
      (perturbed (w_data w) pk (get_param pk (params (w_data w)) * (1 - sf)))
      (w_inits w) s1 false ->
    run_waterfall_effect
      (perturbed (w_data w) pk (get_param pk (params (w_data w)) * (1 + sf)))
      s1 s2 raised ->
    sensitivity_variable_effect pk sf w {| w_data := w_data w; w_inits := s2 |}.

Inductive sensitivity_loop : list (string * Q) -> World -> World -> Prop :=
| sens_done w : sensitivity_loop [] w w
| sens_next pk sf vs w w1 w2 :
    sensitivity_variable_effect pk sf w w1 ->
    sensitivity_loop vs w1 w2 ->
    sensitivity_loop ((pk, sf) :: vs) w w2.

Definition sensitivity_variables : list (string * Q) :=
  [("volumeGrowth", 0.20); ("wageInflation", 0.20); ("discountRate", 0.20);
   ("attritionMonthly", 0.20); ("_adoption", 0.20);
   ("redeploymentPct", 0.20)]%string.

Inductive _run_sensitivity_effect (w : World) : World -> Prop :=
| sensitivity_skipped : _run_sensitivity_effect w w
| sensitivity_ran w' :
    sensitivity_loop sensitivity_variables w w' ->
    _run_sensitivity_effect w w'.

(** The base run when its own cascade, projection and contribution loop
    are done, just before it computes scenarios and sensitivity. *)
Definition base_world (d : Data) (inits : list InitRec) : World :=
  {| w_data := d; w_inits := write_contribution (run_cascade d inits).2 |}.

End Cascade.

(** ** engines/waterfall.py: the IRR estimator *)

(** [x / y] on floats: raises [ZeroDivisionError] ([None]) when [y] is 0. *)
Definition py_div (x y : Q) : option Q :=
  if Qeq_bool y 0 then None else Some (x / y).

(** [sum(cf/(1+rate)**t for t,cf in enumerate(cashflows))], the
    enumeration starting at [t]. *)
Fixpoint npv_sum (rate : Q) (t : nat) (cashflows : list Q) (acc : Q) : option Q :=
  match cashflows with
  | [] => Some acc
  | cf :: rest =>
      term ← py_div cf ((1 + rate) ^ Z.of_nat t);
      npv_sum rate (S t) rest (acc + term)
  end.

(** [sum(-t*cf/(1+rate)**(t+1) for t,cf in enumerate(cashflows))] *)
Fixpoint dnpv_sum (rate : Q) (t : nat) (cashflows : list Q) (acc : Q) : option Q :=
  match cashflows with
  | [] => Some acc
  | cf :: rest =>
      term ← py_div (- inject_Z (Z.of_nat t) * cf) ((1 + rate) ^ Z.of_nat (t + 1));
      dnpv_sum rate (S t) rest (acc + term)
  end.

(** The candidate rate that one Newton-Raphson iteration assigns. *)
Definition irr_clamp (x : Q) : Q := Qmax (-0.5) (Qmin 10.0 x).

(** One iteration of the loop of [_estimate_irr]: the rate after it and
    whether the loop breaks. *)
Definition irr_step (cashflows : list Q) (rate : Q) : option (Q * bool) :=
  npv ← npv_sum rate 0 cashflows 0;
  dnpv ← dnpv_sum rate 0 cashflows 0;
  if Qltb (Qabs dnpv) 1e-10 then Some (rate, true)
  else
    delta ← py_div npv dnpv;
    let rate' := irr_clamp (rate - delta) in
    Some (rate', Qltb (Qabs npv) 1).

Fixpoint irr_loop (cashflows : list Q) (rate : Q) (max_iter : nat) : option Q :=
  match max_iter with
  | O => Some rate
  | S n =>
      '(rate', stop) ← irr_step cashflows rate;
      if stop : bool then Some rate' else irr_loop cashflows rate' n
  end.

Definition _estimate_irr (cashflows : list Q) (guess : Q) (max_iter : nat)
    : option Q :=
  if match cashflows with [] => true | _ => false end
     || forallb (fun cf => Qeq_bool cf 0) cashflows
  then Some 0
  else
    rate ← irr_loop cashflows guess max_iter;
    Some (round_nd 1 (rate * 100)).

(** The defaults of the signature: [guess=0.10, max_iter=100]. *)
Definition estimate_irr_default (cashflows : list Q) : option Q :=
  _estimate_irr cashflows 0.10 100.

(** ** engines/waterfall.py: the S-curve ramp, over the reals *)

Definition _s_curve_ramp (months_since_golive ramp_months : R) : R :=
  if Rle_dec months_since_golive 0 then 0%R
  else if Rle_dec ramp_months months_since_golive then 1%R
  else
    let midpoint := (ramp_months * 0.45)%R in
    let k := (6 / ramp_months)%R in
    let raw := (1 / (1 + exp (- k * (months_since_golive - midpoint))))%R in
    let floor := (1 / (1 + exp (- k * (0 - midpoint))))%R in
    let ceiling := (1 / (1 + exp (- k * (ramp_months - midpoint))))%R in
    let scaled := ((raw - floor) / Rmax (ceiling - floor) 0.001)%R in
    Rmax 0 (Rmin 1 scaled).

(** ** Well-formed inputs

    The ranges the data model gives to the inputs: volumes, times, rates,
    headcounts, impact and adoption are not negative, complexity is at
    most 1, and the annualization factor and the shrinkage are not
    negative. *)

Definition nonneg_opt (o : option Q) : Prop :=
  match o with
  | Some x => 0 <= x
  | None => True
  end.

Record wf_queue (q : Queue) : Prop := {
  wf_volume : 0 <= volume q;
  wf_aht : 0 <= aht q;
  wf_acw : nonneg_opt (acw q);
  wf_transfer : nonneg_opt (transfer q);
  wf_transfer_rate : nonneg_opt (transfer_rate q);
  wf_escalation : nonneg_opt (escalation q);
  wf_repeat : nonneg_opt (repeat_ q);
  wf_complexity : match complexity q with Some c => c <= 1 | None => True end;
  wf_preventable_transfer_pct : nonneg_opt (preventable_transfer_pct q)
}.

(** An enriched queue whose added keys are not negative either. *)
Record wf_equeue (q : EQueue) : Prop := {
  wf_raw : wf_queue (raw q);
  wf_eligible : 0 <= eget deflection_eligible_pct 0 q;
  wf_containment : 0 <= eget containment_feasibility 0 q;
  wf_reducible : 0 <= eget (fun e => reducible_sec (aht_decomp e)) 0 q;
  wf_preventable : 0 <= eget (fun e => preventable_rate (transfer_class e)) 0 q;
  wf_readiness : 0 <= eget migration_readiness 0 q
}.

Record wf_params (p : Params) : Prop := {
  wf_annualization : 0 <= default 12 (volumeAnnualizationFactor p);
  wf_shrinkage : 0 <= default 0.30 (shrinkage p)
}.

Record wf_data (d : Data) : Prop := {
  wf_queues : Forall wf_queue (queues d);
  wf_roles : Forall (fun r => 0 <= headcount r) (roles d);
  wf_data_params : wf_params (params d)
}.

Record wf_initiative (i : Initiative) : Prop := {
  wf_impact : 0 <= impact i;
  wf_adoption : 0 <= adoption i
}.

(** The invariant of a pool: the remaining capacity has one decimal and
    lies between 0 and the ceiling. *)
Definition pool_ok (p : Pool) : Prop :=
  on_grid 1 (remaining_fte p) /\ 0 <= remaining_fte p <= ceiling_fte p.

(** [default lever (lever_pool_map !! lever)]: the pool an initiative
    of that lever draws on. *)
Definition pool_key (lever : string) : string :=
  default lever (lever_pool_map !! lever).

(** The net FTE that the audit trail records against the pool [k]. *)
Definition net_fte_on_pool (k : string) (trail : list AuditEntry) : Q :=
  Qsum a_net_fte
       (List.filter (fun e => String.eqb (pool_key (a_lever e)) k) trail).

(** The net FTE that the audit trail records for the lever [lv]. *)
Definition net_fte_on_lever (lv : string) (trail : list AuditEntry) : Q :=
  Qsum a_net_fte (List.filter (fun e => String.eqb (a_lever e) lv) trail).

(** The invariant of the ledgers: no audit entry is negative, every pool
    satisfies [pool_ok], and the net FTE recorded against a pool is at
    most what the pool has lost. *)
Definition ledgers_ok (led : Ledgers) : Prop :=
  Forall (fun e => 0 <= a_net_fte e) (audit_trail led) /\
  forall k p, pools led !! k = Some p ->
    pool_ok p /\
    net_fte_on_pool k (audit_trail led) <= ceiling_fte p - remaining_fte p.

Definition wf_env (env : Env) : Prop :=
  Forall wf_equeue (e_annual_queues env) /\
  Forall (fun r => 0 <= headcount r) (roles (e_data env)) /\
  wf_params (params (e_data env)).

(** Two data sets on which the cascade reads the same values: the same
    roles and queues, and the same parameters among those the enrichment,
    the pools, the gross formulas and the cascade read. *)
Definition same_cascade_inputs (d d' : Data) : Prop :=
  roles d' = roles d /\ queues d' = queues d /\
  horizon (params d') = horizon (params d) /\
  shrinkage (params d') = shrinkage (params d) /\
  targetShrinkage (params d') = targetShrinkage (params d) /\
  grossHoursPerYear (params d') = grossHoursPerYear (params d) /\
  volumeAnnualizationFactor (params d') = volumeAnnualizationFactor (params d) /\
  locationArbitrage (params d') = locationArbitrage (params d).

(** [tot_aff == 0] for an initiative. *)
Definition tot_aff_zero (env : Env) (i : Initiative) : bool :=
  Qeq_bool (Qsum headcount (affected_roles i (roles (e_data env)))) 0.

(** ** The transfer lever as the specification words it

    "Preventable transfer volume as classified by enrichment" (the
    queue's transfer rate times the enrichment's [preventable_share], which
    enrichment stores as [transfer_class.preventable_rate]) x impact x
    adoption, at 180 seconds per prevented transfer, in hours and then
    FTE. *)
Definition spec_gross_transfer_fte (queues : list EQueue)
    (net_hours impact adoption : Q) : Q :=
  let total_prevented :=
    Qsum (fun q => qvol q
                   * eget (fun e => preventable_rate (transfer_class e)) 0 q
                   * impact * adoption) queues in
  round_nd 1 ((total_prevented * 180 / 3600) / Qmax net_hours 1).

(** ** Sample inputs

    One voice queue, two roles of ten agents, and small portfolios on
    them; used to run the definitions on concrete data. *)

Definition ex_queue : Queue :=
  {| intent := "Balance enquiry"; channel := "Voice"; volume := 100000;
     aht := 5; acw := Some 1; transfer := Some 0.10; transfer_rate := None;
     escalation := Some 0.05; repeat_ := Some 0.05; fcr := Some 0.80;
     complexity := Some 0.20; preventable_transfer_pct := None |}.

Definition ex_params : Params :=
  {| horizon := 3; discountRate := 0.10; wageInflation := 0.03;
     shrinkage := Some 0.30; targetShrinkage := Some 0.22;
     grossHoursPerYear := Some 2080; volumeAnnualizationFactor := Some 12;
     locationArbitrage := Some 0.35; extra := ∅ |}.

Definition ex_role_l1 : Role :=
  {| role := "Agent L1"; headcount := 10; costPerFTE := 55000 |}.

Definition ex_role_l2 : Role :=
  {| role := "Agent L2 / Specialist"; headcount := 10; costPerFTE := 68000 |}.

Definition ex_data : Data :=
  {| params := ex_params; roles := [ex_role_l1; ex_role_l2];
     queues := [ex_queue]; totalFTE := 20 |}.

Definition ex_init (i lv : string) (chs rs : list string) (ms : Q) : Initiative :=
  {| id := i; layer := "AI & Automation"; lever := lv; impact := 0.30;
     adoption := 0.80; channels := chs; target_roles := rs;
     effort := "medium"; ramp := 6; startMonth := 1; benefitEndMonth := 0;
     enabled := true; matchScore := ms; score := ms |}.

(** The annotations of an initiative that no run has touched. *)
Definition ex_blank : Annotations :=
  {| _fteImpact := 0; _annualSaving := 0; _effectiveImpact := 0;
     _contributionPct := 0; _poolConsumed := 0; _poolCapped := false;
     _grossFTE := 0; _grossSaving := 0; _rampPcts := []; _yearlyFactors := [];
     _startMonth := 0; _endMonth := 0; _rampCompleteMonth := 0;
     _linkedQueues := 0; _capApplied := false |}.

(** The same operation with its queue on the chat channel. *)
Definition ex_chat_data : Data :=
  {| params := ex_params; roles := [ex_role_l1; ex_role_l2];
     queues :=
       [{| intent := "Balance enquiry"; channel := "Chat"; volume := 100000;
           aht := 5; acw := Some 1; transfer := Some 0.10;
           transfer_rate := None; escalation := Some 0.05;
           repeat_ := Some 0.05; fcr := Some 0.80; complexity := Some 0.20;
           preventable_transfer_pct := None |}];
     totalFTE := 20 |}.

(** The voice operation with a single role of three agents. *)
Definition ex_small_data : Data :=
  {| params := ex_params;
     roles := [{| role := "Agent L1"; headcount := 3; costPerFTE := 55000 |}];
     queues := [ex_queue]; totalFTE := 3 |}.

(** One AHT-reduction initiative on that role. *)
Definition ex_aht_inits : list InitRec :=
  [ {| ini := ex_init "AI02" "aht_reduction" ["Voice"] ["Agent L1"] 90;
       ann := ex_blank |} ]%string.

(** Three deflection initiatives: two on Agent L1 alone, then one on both
    roles. *)
Definition ex_inits : list InitRec :=
  [ {| ini := ex_init "AI01" "deflection" ["Voice"] ["Agent L1"] 90;
       ann := ex_blank |};
    {| ini := ex_init "AI23" "deflection" ["Voice"] ["Agent L1"] 80;
       ann := ex_blank |};
    {| ini := ex_init "OP01" "deflection" ["Voice"]
                      ["Agent L1"; "Agent L2 / Specialist"] 70;
       ann := ex_blank |} ]%string.

(** A stand-in for the ramp values: full benefit from the first month. *)
Definition ex_ramp : Z -> Z -> Q := fun _ _ => 1.

(** The pools of the sample data. *)
Definition ex_pools : gmap string Pool :=
  pools_of (compute_pools (enrich_intents (queues ex_data)) (roles ex_data)
                          (params ex_data)).

(** ** engines/intent_profile.py: the summary *)

(** The dictionary that [compute_intent_summary] returns; the return for
    an operation without volume has no ['migratablePct'] key. *)
Record IntentSummary := {
  totalVolume : Z;
  deflectableVolume : Z;
  deflectablePct : Q;
  avgContainment : Q;
  avgEmotionalRisk : Q;
  migratableVolume : Z;
  migratablePct : option Q
}.

(** [sum(f(q) for q in queues)] where [f] indexes keys that enrichment
    adds: [KeyError] ([None]) on a queue that was not enriched. *)
Fixpoint esum (f : Queue -> Enrichment -> Q) (queues : list EQueue) : option Q :=
  match queues with
  | [] => Some 0
  | q :: rest =>
      e ← enr q;
      s ← esum f rest;
      Some (f (raw q) e + s)
  end.

Definition compute_intent_summary (enriched_queues : list EQueue)
    : option IntentSummary :=
  let total_vol := Qsum (fun q => volume (raw q)) enriched_queues in
  if Qeq_bool total_vol 0 then
    Some {| totalVolume := 0; deflectableVolume := 0; deflectablePct := 0;
            avgContainment := 0; avgEmotionalRisk := 0; migratableVolume := 0;
            migratablePct := None |}
  else
    deflectable_vol ←
      esum (fun q e => volume q * deflection_eligible_pct e) enriched_queues;
    migratable_vol ←
      esum (fun q e => volume q * migration_readiness e) enriched_queues;
    containment_sum ←
      esum (fun q e => containment_feasibility e * volume q) enriched_queues;
    emotion_sum ←
      esum (fun q e => emotional_risk e * volume q) enriched_queues;
    let avg_containment := containment_sum / total_vol in
    let avg_emotion := emotion_sum / total_vol in
    Some {| totalVolume := py_round total_vol;
            deflectableVolume := py_round deflectable_vol;
            deflectablePct := round_nd 3 (deflectable_vol / total_vol);
            avgContainment := round_nd 3 avg_containment;
            avgEmotionalRisk := round_nd 3 avg_emotion;
            migratableVolume := py_round migratable_vol;
            migratablePct := Some (round_nd 3 (migratable_vol / total_vol)) |}.

(** An initiative of the sample portfolio with its own impact and
    adoption. *)
Definition ex_init_at (lv : string) (imp ad : Q) : Initiative :=
  {| id := "AI01"; layer := "AI & Automation"; lever := lv; impact := imp;
     adoption := ad; channels := ["Voice"]%string;
     target_roles := ["Agent L1"]%string;
     effort := "medium"; ramp := 6; startMonth := 1; benefitEndMonth := 0;
     enabled := true; matchScore := 90; score := 90 |}.

(** Every role's cumulative allocation is within the per-role cap. *)
Definition roles_within_cap (rs : list Role) (rc : gmap string Q) : Prop :=
  Forall (fun r => cum_of rc r <= headcount r * PER_ROLE_MAX_REDUCTION) rs.

(** The first two initiatives of the sample portfolio: both on Agent L1
    alone. *)
Definition ex_l1_inits : list InitRec := firstn 2 ex_inits.

(** The key under which the cascade sorts the initiative at position [k]. *)
Definition position_key (inits : list InitRec) (k : nat) : Z * Z * Q :=
  match inits !! k with
  | Some r => sort_key (ini r)
  | None => (9%Z, 9%Z, 0)
  end.

(** No element of the list has a key below the key of an element before
    it. *)
Fixpoint ordered_by {A} (key : A -> Z * Z * Q) (l : list A) : Prop :=
  match l with
  | [] => True
  | x :: l' =>
      Forall (fun y => key_lt (key y) (key x) = false) l' /\ ordered_by key l'
  end.

(** ** engines/waterfall.py: the yearly projection of [run_waterfall] *)

(** [sum(f(x) for x in l)] where [f] indexes a list or a dictionary:
    [IndexError] or [KeyError] ([None]) on the first element where the
    lookup fails. *)
Fixpoint osum {A} (f : A -> option Q) (l : list A) : option Q :=
  match l with
  | [] => Some 0
  | x :: rest =>
      v ← f x;
      s ← osum f rest;
      Some (v + s)
  end.

(** The clamp of the yearly ledger of every role to the per-role cap. *)
Definition clamp_role_impact (ri : gmap string RoleLedger)
    : gmap string RoleLedger :=
  (fun led =>
     {| baseline := baseline led;
        yearly := map (fun v => Qmin v (baseline led * PER_ROLE_MAX_REDUCTION))
                      (yearly led) |}) <$> ri.

(** [factors[yr] if yr < len(factors) else (factors[-1] if factors else 0.95)] *)
Definition location_factor (factors : list Q) (yr : nat) : Q :=
  match factors !! yr with
  | Some f => f
  | None => default 0.95 (last factors)
  end.

(** The time-phased savings of the location initiatives, per year.  The
    loop reads ['_yearlyFactors'] only on an initiative with a positive
    ['_annualSaving'] on the lever ['cost_reduction'], a key that the
    cascade has written by then. *)
Definition location_yearly (horizon : nat) (sorted : list InitRec) : list Q :=
  fold_left
    (fun acc r =>
       if String.eqb (lever (ini r)) "cost_reduction"
          && Qltb 0 (_annualSaving (ann r))
       then imap (fun yr v =>
                    v + _annualSaving (ann r)
                        * location_factor (_yearlyFactors (ann r)) yr) acc
       else acc)
    sorted (repeat 0 horizon).

(** One element of the ['yearly'] list of the result. *)
Record YearRow := {
  y_year : Z;
  fteReduction : Z;
  finalFTE : Q;
  annualSaving : Z;
  cumSaving : Z;
  y_npv : Z;
  inflatedCost : Z;
  futureCost : Z
}.

(** The loop [for yr in range(horizon)] over the years [yrs], [cum]
    being the cumulated net saving so far. *)
Fixpoint yearly_rows (d : Data) (ri : gmap string RoleLedger)
    (loc : list Q) (yrs : list nat) (cum : Q) : option (list YearRow) :=
  match yrs with
  | [] => Some []
  | yr :: rest =>
      reduction ← osum (fun kv => yearly kv.2 !! yr) (map_to_list ri);
      let base_cost := Qsum (fun r => headcount r * costPerFTE r) (roles d) in
      saving ← osum (fun r => led ← ri !! role r;
                              v ← yearly led !! yr;
                              Some (v * costPerFTE r))
                    (List.filter (fun r => has_key ri (role r)) (roles d));
      lv ← loc !! yr;
      let saving := saving + lv in
      let wg := wageInflation (params d) in
      let inf_cost := base_cost * (1 + wg) ^ Z.of_nat (yr + 1) in
      let fut_cost := (base_cost - saving) * (1 + wg) ^ Z.of_nat (yr + 1) in
      let net := inf_cost - fut_cost in
      let cum := cum + net in
      npv_f ← py_div 1 ((1 + discountRate (params d)) ^ Z.of_nat (yr + 1));
      rows ← yearly_rows d ri loc rest cum;
      Some ({| y_year := Z.of_nat yr + 1;
               fteReduction := py_round reduction;
               finalFTE := totalFTE d - inject_Z (py_round reduction);
               annualSaving := py_round net;
               cumSaving := py_round cum;
               y_npv := py_round (net * npv_f);
               inflatedCost := py_round inf_cost;
               futureCost := py_round fut_cost |} :: rows)
  end.

(** The ['yearly'] list that [run_waterfall(data, initiatives)] builds
    after its cascade ([None]: the projection raises). *)
Definition run_projection (ramp_value : Z -> Z -> Q) (d : Data)
    (inits : list InitRec) : option (list YearRow) :=
  let st := run_cascade ramp_value d inits in
  let sorted := omap (fun k => st.2 !! k) (sorted_inits inits) in
  yearly_rows d (clamp_role_impact (role_impact st.1))
              (location_yearly (horizon (params d)) sorted)
              (seq 0 (horizon (params d))) 0.

(** Every yearly ledger has one entry per year of the horizon. *)
Definition yearly_lengths (h : nat) (ri : gmap string RoleLedger) : Prop :=
  forall k led, ri !! k = Some led -> length (yearly led) = h.

(** ** engines/waterfall.py: normalisation and selection in [score_initiatives] *)

(** [init['score'] = normalized; init['enabled'] = en] *)
Definition set_score_enabled (normalized : Q) (en : bool) (i : Initiative)
    : Initiative :=
  {| id := id i; layer := layer i; lever := lever i; impact := impact i;
     adoption := adoption i; channels := channels i;
     target_roles := target_roles i; effort := effort i; ramp := ramp i;
     startMonth := startMonth i; benefitEndMonth := benefitEndMonth i;
     enabled := en; matchScore := matchScore i; score := normalized |}.

(** The selection threshold: whether the initiative is enabled, and its
    ['matchTier'] ([tier0] is the tier it had, if any). *)
Definition select_tier (normalized : Q) (tier0 : option string)
    : bool * option string :=
  if Qleb 65 normalized then (true, Some "strong"%string)
  else if Qleb 45 normalized then (true, Some "moderate"%string)
  else if Qleb 20 normalized then (true, Some "recommended"%string)
  else if Qleb 8 normalized then (false, Some "weak"%string)
  else
    (false,
     match tier0 with
     | Some t => if str_in t ["excluded"; "trigger_fail"]%string then tier0
                 else Some "poor"%string
     | None => Some "poor"%string
     end).

(** [max(raw_scores) if raw_scores else 0.001], then the floor at 0.001
    of a maximum that is not positive. *)
Definition max_raw_of (raw_scores : list Q) : Q :=
  let max_raw :=
    match raw_scores with
    | [] => 0.001
    | x :: l => fold_left Qmax l x
    end in
  if Qleb max_raw 0 then 0.001 else max_raw.

(** The loop [for init, rs in zip(initiatives, raw_scores)] that ends the
    scoring: each initiative with its ['matchTier']. *)
Definition normalize_and_select (initiatives : list (Initiative * option string))
    (raw_scores : list Q) : list (Initiative * option string) :=
  let max_raw := max_raw_of raw_scores in
  map (fun p : Initiative * option string * Q =>
         let rs := p.2 in
         let normalized :=
           if Qltb 0 rs then round_nd 1 (rs / max_raw * 100) else 0 in
         let sel := select_tier normalized p.1.2 in
         (set_score_enabled normalized sel.1 p.1.1, sel.2))
      (zip initiatives raw_scores).

(* ===================================================================== *)
(** * Properties *)
(* ===================================================================== *)

(** ** Rounding *)

(** [lra] treats [inject_Z t] as a constant to evaluate; naming it first
    makes it an atom. *)
Ltac abs_inject :=
  repeat match goal with
  | |- context [inject_Z ?t] =>
      let q := fresh "q" in set (q := inject_Z t) in *; clearbody q
  | H : context [inject_Z ?t] |- _ =>
      let q := fresh "q" in set (q := inject_Z t) in *; clearbody q
  end.
Ltac qlra := abs_inject; lra.

Ltac cmp_to_order :=
  repeat match goal with
  | E : (_ ?= _) = Eq |- _ => rewrite <- Qeq_alt in E
  | E : (_ ?= _) = Lt |- _ => rewrite <- Qlt_alt in E
  | E : (_ ?= _) = Gt |- _ => rewrite <- Qgt_alt in E
  end.

Lemma py_round_comp x y : x == y -> py_round x = py_round y.
Proof.
  intros H. unfold py_round.
  rewrite (Qfloor_comp _ _ H).
  assert (E : (x - inject_Z (Qfloor y) ?= 1 # 2) = (y - inject_Z (Qfloor y) ?= 1 # 2)).
  { apply Qcompare_comp; [rewrite H|]; reflexivity. }
  now rewrite E.
Qed.

Lemma py_round_floor_bounds x :
  (Qfloor x <= py_round x <= Qfloor x + 1)%Z.
Proof.
  unfold py_round. destruct (_ ?= _); [destruct (Z.even _)| |]; lia.
Qed.

Lemma py_round_near x :
  x - (1 # 2) <= inject_Z (py_round x) <= x + (1 # 2).
Proof.
  unfold py_round.
  pose proof (Qfloor_le x) as Hl. pose proof (Qlt_floor x) as Hu.
  rewrite inject_Z_plus in Hu. change (inject_Z 1) with 1 in Hu.
  destruct (x - inject_Z (Qfloor x) ?= 1 # 2) eqn:E; cmp_to_order.
  - destruct (Z.even _); [|rewrite inject_Z_plus; change (inject_Z 1) with 1]; qlra.
  - qlra.
  - rewrite inject_Z_plus. change (inject_Z 1) with 1. qlra.
Qed.

Lemma py_round_inject_Z n : py_round (inject_Z n) = n.
Proof.
  unfold py_round. rewrite Qfloor_Z.
  assert (E : (inject_Z n - inject_Z n ?= 1 # 2) = Lt).
  { rewrite <- Qlt_alt. qlra. }
  now rewrite E.
Qed.

Lemma py_round_mono x y : x <= y -> (py_round x <= py_round y)%Z.
Proof.
  intros H.
  pose proof (Qfloor_resp_le _ _ H) as Hf.
  destruct (Z.eq_dec (Qfloor x) (Qfloor y)) as [e|ne].
  - unfold py_round. rewrite e.
    destruct (x - inject_Z (Qfloor y) ?= 1 # 2) eqn:Ex;
    destruct (y - inject_Z (Qfloor y) ?= 1 # 2) eqn:Ey;
    try (destruct (Z.even (Qfloor y))); try lia;
    cmp_to_order; qlra.
  - pose proof (py_round_floor_bounds x). pose proof (py_round_floor_bounds y). lia.
Qed.

Lemma py_round_0 x : x == 0 -> py_round x = 0%Z.
Proof. intros H. rewrite (py_round_comp _ _ H). apply (py_round_inject_Z 0). Qed.

Lemma pow10_pos n : 0 < pow10 n.
Proof.
  unfold pow10. change 0 with (inject_Z 0). rewrite <- Zlt_Qlt.
  apply Z.pow_pos_nonneg; lia.
Qed.

Lemma round_nd_spec n x :
  round_nd n x == inject_Z (py_round (x * pow10 n)) / pow10 n.
Proof. unfold round_nd. apply Qred_correct. Qed.

Lemma round_nd_comp n x y : x == y -> round_nd n x = round_nd n y.
Proof.
  intros H. unfold round_nd.
  assert (E : x * pow10 n == y * pow10 n) by now rewrite H.
  now rewrite (py_round_comp _ _ E).
Qed.

Lemma round_nd_mono n x y : x <= y -> round_nd n x <= round_nd n y.
Proof.
  intros H. rewrite !round_nd_spec.
  pose proof (pow10_pos n) as Hp.
  apply Qmult_le_r; [apply Qinv_lt_0_compat; exact Hp|].
  rewrite <- Zle_Qle. apply py_round_mono.
  apply Qmult_le_r; assumption.
Qed.

Lemma round_nd_on_grid n x : on_grid n (round_nd n x).
Proof. eexists. apply round_nd_spec. Qed.

Lemma round_nd_fixed n x : on_grid n x -> round_nd n x == x.
Proof.
  intros [k Hk]. rewrite round_nd_spec.
  pose proof (pow10_pos n) as Hp.
  assert (E : x * pow10 n == inject_Z k).
  { rewrite Hk. field. lra. }
  rewrite (py_round_comp _ _ E), py_round_inject_Z. now rewrite Hk.
Qed.

Lemma round_nd_0 n x : x == 0 -> round_nd n x = 0.
Proof.
  intros H. unfold round_nd.
  assert (E : x * pow10 n == inject_Z 0) by (rewrite H; change (inject_Z 0) with 0; ring).
  rewrite (py_round_comp _ _ E), py_round_inject_Z.
  apply Qred_complete with (q := 0). change (inject_Z 0) with 0.
  unfold Qdiv. ring.
Qed.

Lemma round_nd_nonneg n x : 0 <= x -> 0 <= round_nd n x.
Proof.
  intros H. rewrite <- (round_nd_0 n 0) by reflexivity. now apply round_nd_mono.
Qed.

(** Rounding to [n] decimals moves a value by at most half a unit of the
    last decimal. *)
Lemma round_nd_near n x :
  x - (1 # 2) / pow10 n <= round_nd n x <= x + (1 # 2) / pow10 n.
Proof.
  rewrite round_nd_spec.
  pose proof (pow10_pos n) as Hp.
  pose proof (py_round_near (x * pow10 n)) as [Hl Hu].
  set (r := inject_Z (py_round (x * pow10 n))) in *. clearbody r.
  set (p := pow10 n) in *. clearbody p.
  split.
  - apply Qle_shift_div_l; [assumption|].
    assert (E : (x - (1 # 2) / p) * p == x * p - (1 # 2)) by (field; lra).
    rewrite E. exact Hl.
  - apply Qle_shift_div_r; [assumption|].
    assert (E : (x + (1 # 2) / p) * p == x * p + (1 # 2)) by (field; lra).
    rewrite E. exact Hu.
Qed.

Lemma on_grid_comp n x y : x == y -> on_grid n x -> on_grid n y.
Proof. intros E [k Hk]. exists k. now rewrite <- E. Qed.

Lemma on_grid_0 n : on_grid n 0.
Proof. exists 0%Z. change (inject_Z 0) with 0. unfold Qdiv. ring. Qed.

Lemma on_grid_minus n x y : on_grid n x -> on_grid n y -> on_grid n (x - y).
Proof.
  intros [a Ha] [b Hb]. exists (a - b)%Z.
  rewrite Ha, Hb. unfold Zminus. rewrite inject_Z_plus, inject_Z_opp.
  pose proof (pow10_pos n). field. lra.
Qed.

Lemma on_grid_min n x y : on_grid n x -> on_grid n y -> on_grid n (Qmin x y).
Proof. intros Hx Hy. apply Q.min_case; try assumption. intros a b E. now apply on_grid_comp. Qed.

(** ** C5: an unrecognised lever fails closed *)

(** C5, as stated, fails: the lever string "location" is none of the seven
    levers of [lever_pool_map], yet it is passed through as a pool key, finds
    the location pool and consumes from it, and nothing is logged. *)
Lemma consume_pool_location_lever_consumes :
  lever_pool_map !! "location"%string = None /\
  (let '(res, pools', log) := consume_pool ex_pools "location" 2 0 0 in
   consumed_fte res == 2 /\
   unknown_lever res = false /\
   log = [] /\
   (remaining_fte <$> ex_pools !! "location"%string) = Some 13.7 /\
   (remaining_fte <$> pools' !! "location"%string) = Some 11.7).
Proof. vm_compute. repeat split; reflexivity. Qed.

(** C5 (amended): a lever that is none of the seven mapped levers and is
    not itself the key of a pool gets [consumed_fte = 0]; the call returns
    normally, logs one warning and leaves every pool as it was. *)
Theorem consume_pool_unknown_lever_fails_closed
    (pools : gmap string Pool) (lever : string)
    (amount_fte : Q) (amount_contacts amount_seconds : Z) :
  lever_pool_map !! lever = None ->
  pools !! lever = None ->
  exists res,
    consume_pool pools lever amount_fte amount_contacts amount_seconds
      = (res, pools, [UnknownLeverWarning lever]) /\
    consumed_fte res = 0 /\ unknown_lever res = true.
Proof.
  intros Hmap Hpool. unfold consume_pool.
  rewrite Hmap. simpl. rewrite Hpool.
  eexists. split; [reflexivity|]. split; reflexivity.
Qed.

Lemma consume_pool_unknown_lever_witness :
  lever_pool_map !! "upsell"%string = None /\
  ex_pools !! "upsell"%string = None /\
  exists res,
    consume_pool ex_pools "upsell" 2 0 0
      = (res, ex_pools, [UnknownLeverWarning "upsell"]) /\
    consumed_fte res = 0 /\ unknown_lever res = true.
Proof.
  split; [reflexivity|]. split; [reflexivity|].
  apply (consume_pool_unknown_lever_fails_closed ex_pools "upsell" 2 0 0);
    reflexivity.
Defined.

(** ** C10: an initiative whose channels match no queue *)

Lemma filter_none {A} (f : A -> bool) (l : list A) :
  Forall (fun x => f x = false) l -> List.filter f l = [].
Proof.
  induction 1 as [|x l Hx _ IH]; simpl; [reflexivity|]. now rewrite Hx.
Qed.

(** C10: when no queue is on one of the initiative's channels, the gross
    impact is computed by the lever's formula over all the queues. *)
Theorem gross_impact_falls_back_to_all_queues
    (initiative : Initiative) (enriched_queues : list EQueue)
    (roles : list Role) (pools_data : option PoolResult) (params : Params) :
  Forall (fun q => str_in (channel (raw q)) (channels initiative) = false)
         enriched_queues ->
  matching_queues initiative enriched_queues = enriched_queues /\
  compute_gross_impact initiative enriched_queues roles pools_data params
    = gross_dispatch initiative enriched_queues roles params.
Proof.
  intros H. unfold compute_gross_impact, matching_queues.
  rewrite (filter_none _ _ H). split; reflexivity.
Qed.

(** On the sample data an e-mail initiative, with no e-mail queue, gets
    the impact of the voice queue. *)
Lemma gross_impact_falls_back_witness :
  let i := ex_init "AI04" "deflection" ["Email"] ["Agent L1"] 50 in
  let qs := e_annual_queues (make_env ex_data) in
  Forall (fun q => str_in (channel (raw q)) (channels i) = false) qs /\
  matching_queues i qs = qs /\
  compute_gross_impact i qs (roles ex_data) None ex_params
    = gross_dispatch i qs (roles ex_data) ex_params /\
  gross_fte (compute_gross_impact i qs (roles ex_data) None ex_params) == 13.2.
Proof.
  intros i qs.
  assert (H : Forall (fun q => str_in (channel (raw q)) (channels i) = false) qs).
  { repeat constructor. }
  split; [exact H|].
  destruct (gross_impact_falls_back_to_all_queues i qs (roles ex_data) None
              ex_params H) as [H1 H2].
  split; [exact H1|]. split; [exact H2|].
  vm_compute. reflexivity.
Defined.

(** ** C6: the transfer lever and the enrichment's classification *)

(** Enrichment leaves the queue's own keys as they are, so a queue that
    has no ['preventable_transfer_pct'] before enrichment has none after
    it, and [_gross_transfer] applies its linear fallback. *)
Lemma transfer_prev_share_after_enrichment (q : Queue) :
  preventable_transfer_pct q = None ->
  transfer_prev_share (enrich_queue q)
    = Qmax 0.15 (0.55 - default 0.5 (complexity q) * 0.40).
Proof. intros H. unfold transfer_prev_share. simpl. now rewrite H. Qed.

(** C6 (the code at a failing input): on the sample queue (complexity
    0.20, transfer rate 0.10, escalation rate 0.05) enrichment classifies
    75% of the transfers as preventable, but [_gross_transfer] uses 47%;
    the initiative's gross impact is 0.5 FTE where the preventable volume
    of the enrichment gives 0.7 FTE. *)
Lemma gross_transfer_ignores_enrichment_class :
  let i := ex_init "OP19" "transfer_reduction" ["Voice"] ["Agent L1"] 50 in
  let qs := e_annual_queues (make_env ex_data) in
  let net_hours := 2080 * (1 - 0.30) in
  Forall (fun q => eget (fun e => preventable_share (transfer_class e)) 0 q == 0.75
                   /\ transfer_prev_share q == 0.47) qs /\
  gross_fte (compute_gross_impact i qs (roles ex_data) None ex_params) == 0.5 /\
  gross_contacts (compute_gross_impact i qs (roles ex_data) None ex_params)
    = 13536%Z /\
  spec_gross_transfer_fte qs net_hours (impact i) (adoption i) == 0.7.
Proof.
  vm_compute. split; [repeat constructor|]. repeat split; reflexivity.
Qed.

(** ** C9: the IRR estimator *)

Lemma Qeq_bool_false_neq x y : Qeq_bool x y = false -> ~ x == y.
Proof. intros H E. apply Qeq_bool_iff in E. congruence. Qed.

Lemma py_div_some x y : ~ y == 0 -> py_div x y = Some (x / y).
Proof.
  intros H. unfold py_div. destruct (Qeq_bool y 0) eqn:E; [|reflexivity].
  apply Qeq_bool_iff in E. contradiction.
Qed.

Lemma Qpower_nat_pos q n : 0 < q -> 0 < q ^ Z.of_nat n.
Proof. intros H. apply Qpower_0_lt. exact H. Qed.

Lemma npv_sum_total rate cashflows :
  0 < 1 + rate -> forall t acc, exists v, npv_sum rate t cashflows acc = Some v.
Proof.
  intros Hr. induction cashflows as [|cf rest IH]; intros t acc; simpl.
  - eauto.
  - rewrite py_div_some.
    + simpl. apply IH.
    + pose proof (Qpower_nat_pos (1 + rate) t Hr). lra.
Qed.

Lemma dnpv_sum_total rate cashflows :
  0 < 1 + rate -> forall t acc, exists v, dnpv_sum rate t cashflows acc = Some v.
Proof.
  intros Hr. induction cashflows as [|cf rest IH]; intros t acc; simpl.
  - eauto.
  - rewrite py_div_some.
    + simpl. apply IH.
    + pose proof (Qpower_nat_pos (1 + rate) (t + 1) Hr). lra.
Qed.

Lemma irr_clamp_range x : -0.5 <= irr_clamp x <= 10.
Proof.
  unfold irr_clamp.
  destruct (Q.max_spec (-0.5) (Qmin 10.0 x)) as [[H1 H2]|[H1 H2]];
  destruct (Q.min_spec 10.0 x) as [[H3 H4]|[H3 H4]];
  rewrite H2; try rewrite H4; lra.
Qed.

Lemma Qltb_false x y : Qltb x y = false -> y <= x.
Proof.
  unfold Qltb. intros H. apply negb_false_iff in H. now apply Qle_bool_iff.
Qed.

Lemma Qltb_true x y : Qltb x y = true -> x < y.
Proof.
  unfold Qltb. intros H. apply negb_true_iff in H.
  apply Qnot_le_lt. intros C. apply Qle_bool_iff in C. congruence.
Qed.

Lemma Qleb_true x y : Qleb x y = true -> x <= y.
Proof. apply Qle_bool_iff. Qed.

Lemma Qleb_false x y : Qleb x y = false -> y < x.
Proof.
  unfold Qleb. intros H. apply Qnot_le_lt. intros C.
  apply Qle_bool_iff in C. congruence.
Qed.

(** An iteration that starts from a rate above -100% does not raise, and
    the rate it leaves is either the old one or a clamped one. *)
Lemma irr_step_total cashflows rate :
  0 < 1 + rate ->
  exists rate' stop,
    irr_step cashflows rate = Some (rate', stop) /\
    (rate' = rate \/ -0.5 <= rate' <= 10).
Proof.
  intros Hr. unfold irr_step.
  destruct (npv_sum_total rate cashflows Hr 0%nat 0) as [npv ->].
  destruct (dnpv_sum_total rate cashflows Hr 0%nat 0) as [dnpv ->].
  simpl. destruct (Qltb (Qabs dnpv) 1e-10) eqn:E.
  - eauto.
  - apply Qltb_false in E.
    rewrite py_div_some.
    + simpl. do 2 eexists. split; [reflexivity|]. right. apply irr_clamp_range.
    + intros C. rewrite C in E. vm_compute in E. apply E. reflexivity.
Qed.

Lemma irr_step_clamped cashflows rate rate' stop :
  irr_step cashflows rate = Some (rate', stop) ->
  rate' = rate \/ -0.5 <= rate' <= 10.
Proof.
  unfold irr_step.
  destruct (npv_sum rate 0 cashflows 0) as [npv|]; simpl; [|discriminate].
  destruct (dnpv_sum rate 0 cashflows 0) as [dnpv|]; simpl; [|discriminate].
  destruct (Qltb (Qabs dnpv) 1e-10).
  - intros [= <- _]. now left.
  - destruct (py_div npv dnpv); simpl; [|discriminate].
    intros [= <- _]. right. apply irr_clamp_range.
Qed.

Lemma irr_loop_total cashflows max_iter :
  forall rate, -0.5 <= rate <= 10 ->
  exists r, irr_loop cashflows rate max_iter = Some r /\ -0.5 <= r <= 10.
Proof.
  induction max_iter as [|n IH]; intros rate Hr; simpl.
  - eauto.
  - destruct (irr_step_total cashflows rate) as (rate' & stop & -> & Hc); [lra|].
    simpl.
    assert (Hr' : -0.5 <= rate' <= 10) by (destruct Hc as [->|]; assumption).
    destruct stop; [eauto|]. now apply IH.
Qed.

Lemma forallb_zero cashflows :
  Forall (fun cf => cf == 0) cashflows ->
  forallb (fun cf => Qeq_bool cf 0) cashflows = true.
Proof.
  induction 1 as [|cf l H _ IH]; simpl; [reflexivity|].
  apply Qeq_bool_iff in H. now rewrite H.
Qed.

(** C9: the estimator returns 0.0 on an all-zero vector; on every vector
    (in particular one negative entry followed by positive ones) it
    returns, without raising, a percentage in [-50, 1000]; and the rate an
    iteration assigns is clamped to [-0.5, 10]. *)
Theorem estimate_irr_bounded :
  (forall cashflows guess max_iter,
     Forall (fun cf => cf == 0) cashflows ->
     _estimate_irr cashflows guess max_iter = Some 0) /\
  (forall cashflows,
     exists irr, estimate_irr_default cashflows = Some irr /\ -50 <= irr <= 1000) /\
  (forall cashflows rate rate' stop,
     irr_step cashflows rate = Some (rate', stop) ->
     rate' = rate \/ -0.5 <= rate' <= 10).
Proof.
  split; [|split].
  - intros cashflows guess max_iter H. unfold _estimate_irr.
    rewrite (forallb_zero _ H). now rewrite orb_true_r.
  - intros cashflows. unfold estimate_irr_default, _estimate_irr.
    destruct (_ || _).
    + exists 0. split; [reflexivity|]. lra.
    + destruct (irr_loop_total cashflows 100 0.10) as (r & -> & Hr); [lra|].
      simpl. eexists. split; [reflexivity|].
      assert (E1 : round_nd 1 (-50) == -50) by (vm_compute; reflexivity).
      assert (E2 : round_nd 1 1000 == 1000) by (vm_compute; reflexivity).
      split.
      * rewrite <- E1. apply round_nd_mono. lra.
      * rewrite <- E2. apply round_nd_mono. lra.
  - apply irr_step_clamped.
Qed.

(** A three-year project: 1000 invested, 500 saved each year. *)
Lemma estimate_irr_bounded_witness :
  _estimate_irr [0; 0; 0] 0.10 100 = Some 0 /\
  (exists irr,
     estimate_irr_default [-1000; 500; 500; 500] = Some irr /\ -50 <= irr <= 1000).
Proof.
  destruct estimate_irr_bounded as (Hz & Hb & _).
  split.
  - apply Hz. repeat constructor.
  - apply Hb.
Defined.

Example estimate_irr_sample : estimate_irr_default [-1000; 1200] = Some 20.
Proof. vm_compute. reflexivity. Qed.

(** ** C7: the S-curve ramp *)

Section Ramp.
Local Open Scope R_scope.

Lemma exp_le_compat (x y : R) : x <= y -> exp x <= exp y.
Proof.
  intros [H|H].
  - left. now apply exp_increasing.
  - subst. apply Rle_refl.
Qed.

(** The logistic curve is non-decreasing in its argument. *)
Lemma logistic_le (u v : R) :
  u <= v -> 1 / (1 + exp (- u)) <= 1 / (1 + exp (- v)).
Proof.
  intros H.
  assert (He : exp (- v) <= exp (- u)) by (apply exp_le_compat; lra).
  pose proof (exp_pos (- u)). pose proof (exp_pos (- v)).
  unfold Rdiv. rewrite !Rmult_1_l.
  apply Rinv_le_contravar; lra.
Qed.

Lemma s_curve_ramp_range (t ramp_months : R) :
  0 <= _s_curve_ramp t ramp_months <= 1.
Proof.
  unfold _s_curve_ramp.
  destruct (Rle_dec t 0); [lra|].
  destruct (Rle_dec ramp_months t); [lra|].
  split.
  - apply Rmax_l.
  - apply Rmax_lub; [lra|apply Rmin_l].
Qed.

(** C7: for a positive ramp duration the ramp is 0 at month 0, it is in
    [0.93, 1] at [ramp_months], and it never decreases with time. *)
Theorem s_curve_ramp_shape (ramp_months : R) :
  0 < ramp_months ->
  _s_curve_ramp 0 ramp_months = 0 /\
  0.93 <= _s_curve_ramp ramp_months ramp_months <= 1 /\
  (forall t1 t2, t1 <= t2 ->
     _s_curve_ramp t1 ramp_months <= _s_curve_ramp t2 ramp_months).
Proof.
  intros Hpos. split; [|split].
  - unfold _s_curve_ramp. destruct (Rle_dec 0 0); [reflexivity|lra].
  - unfold _s_curve_ramp.
    destruct (Rle_dec ramp_months 0); [lra|].
    destruct (Rle_dec ramp_months ramp_months); lra.
  - intros t1 t2 Hle.
    pose proof (s_curve_ramp_range t2 ramp_months) as [Hlo2 Hhi2].
    pose proof (s_curve_ramp_range t1 ramp_months) as [Hlo1 Hhi1].
    unfold _s_curve_ramp in *.
    destruct (Rle_dec t1 0) as [H1|H1]; [exact Hlo2|].
    destruct (Rle_dec t2 0) as [H2|H2]; [lra|].
    destruct (Rle_dec ramp_months t2) as [H3|H3]; [exact Hhi1|].
    destruct (Rle_dec ramp_months t1) as [H4|H4]; [lra|].
    apply Rle_max_compat_l. apply Rle_min_compat_l.
    set (k := 6 / ramp_months).
    set (mid := ramp_months * 0.45).
    set (den := Rmax _ 0.001).
    assert (Hden : 0 < den).
    { unfold den. apply Rlt_le_trans with 0.001; [lra|apply Rmax_r]. }
    assert (Hk : 0 < k) by (unfold k; apply Rdiv_lt_0_compat; lra).
    apply Rmult_le_compat_r; [left; now apply Rinv_0_lt_compat|].
    apply Rplus_le_compat_r.
    replace (- k * (t1 - mid)) with (- (k * (t1 - mid))) by ring.
    replace (- k * (t2 - mid)) with (- (k * (t2 - mid))) by ring.
    apply logistic_le.
    apply Rmult_le_compat_l; lra.
Qed.

Lemma s_curve_ramp_shape_witness :
  0 < 12 /\
  _s_curve_ramp 0 12 = 0 /\
  0.93 <= _s_curve_ramp 12 12 <= 1 /\
  (forall t1 t2, t1 <= t2 -> _s_curve_ramp t1 12 <= _s_curve_ramp t2 12).
Proof.
  assert (H : 0 < 12) by lra.
  split; [exact H|]. exact (s_curve_ramp_shape 12 H).
Defined.

End Ramp.

(** ** C8: location-lever initiatives *)

Lemma Qsum_zero {A} (f : A -> Q) (l : list A) :
  Forall (fun x => f x == 0) l -> Qsum f l == 0.
Proof.
  induction 1 as [|x l Hx _ IH]; simpl; [reflexivity|]. rewrite Hx, IH. ring.
Qed.

Lemma gross_cost_reduction (i : Initiative) (qs : list EQueue)
    (roles : list Role) (pd : option PoolResult) (params : Params) :
  lever i = "cost_reduction"%string ->
  compute_gross_impact i qs roles pd params
    = _gross_location (matching_queues i qs)
        (Qsum headcount (affected_roles i roles))
        (weighted_cost_of (affected_roles i roles) 55000)
        (impact i) (adoption i) params.
Proof.
  intros H. unfold compute_gross_impact, gross_dispatch. rewrite H. reflexivity.
Qed.

(** With no migration-ready volume the location formula migrates nothing
    and saves nothing. *)
Lemma gross_location_not_ready (qs : list EQueue)
    (affected_fte cost impact adoption : Q) (params : Params) :
  Forall (fun q => eget migration_readiness 0 q == 0) qs ->
  let g := _gross_location qs affected_fte cost impact adoption params in
  gross_saving g = 0%Z /\ gross_fte_migrated g = Some 0.
Proof.
  intros H. unfold _gross_location. simpl.
  assert (Hs : Qsum (fun q => qvol q * eget migration_readiness 0 q) qs == 0).
  { apply Qsum_zero. eapply Forall_impl; [exact H|].
    intros q Hq. simpl in Hq. rewrite Hq. ring. }
  set (share := if Qltb 0 (Qsum qvol qs) then _ else _).
  assert (Hshare : share == 0).
  { unfold share. destruct (Qltb 0 (Qsum qvol qs)); [|reflexivity].
    rewrite Hs. unfold Qdiv. ring. }
  split.
  - apply py_round_0. rewrite Hshare. ring.
  - f_equal. apply round_nd_0. rewrite Hshare. ring.
Qed.

Section LocationLever.
Variable ramp_value : Z -> Z -> Q.

(** C8, as stated, fails: "no matching queue has a migration readiness
    above 0" holds in particular when no queue is on the initiative's
    channels, but the formula then falls back to every queue.  An Email
    location initiative on the voice-only data matches no queue, and yet it
    saves round(10 x 0.685 x 0.30 x 0.80 x 55000 x 0.35) = 31647. *)
Lemma location_saving_through_queue_fallback :
  let i := ex_init "LS02" "cost_reduction" ["Email"] ["Agent L1"] 50 in
  let env := make_env ex_data in
  let out := process_initiative ex_ramp env (initial_ledgers ex_data)
               i ex_blank in
  lever i = "cost_reduction"%string /\
  List.filter (fun q => str_in (channel (raw q)) (channels i))
              (e_annual_queues env) = [] /\
  _fteImpact out.2 = 0 /\
  _annualSaving out.2 = 31647.
Proof.
  intros i env out.
  split; [reflexivity|]. split; [vm_compute; reflexivity|].
  split; vm_compute; reflexivity.
Qed.

(** C8, corrected: a location-lever initiative gets [_fteImpact = 0] and
    leaves both role ledgers as they were; and when none of the queues its
    formula uses (the queues on its channels, or every queue when there is
    none on them) has a migration readiness above 0 (readiness being a
    share in [0, 1]), its annual saving is 0. *)
Theorem location_initiative_no_fte_no_ledger_write
    (env : Env) (led : Ledgers) (i : Initiative) (a : Annotations) :
  lever i = "cost_reduction"%string ->
  let out := process_initiative ramp_value env led i a in
  _fteImpact out.2 = 0 /\
  role_cum out.1 = role_cum led /\
  role_impact out.1 = role_impact led /\
  (Forall (fun q => 0 <= eget migration_readiness 0 q
                    /\ ~ 0 < eget migration_readiness 0 q)
          (matching_queues i (e_annual_queues env)) ->
   _annualSaving out.2 = 0).
Proof.
  intros Hlev. unfold process_initiative.
  destruct (Qeq_bool _ 0); [simpl; auto|].
  rewrite (gross_cost_reduction _ _ _ _ _ Hlev).
  set (g := _gross_location _ _ _ _ _ _).
  change (_is_location g) with true. cbv iota.
  repeat split.
  - destruct (_ && _ && _); [|reflexivity].
    destruct (consume_pool _ _ _ _ _) as [[c p] l].
    destruct (_ && _); reflexivity.
  - destruct (_ && _ && _); [|reflexivity].
    destruct (consume_pool _ _ _ _ _) as [[c p] l].
    destruct (_ && _); reflexivity.
  - destruct (_ && _ && _); [|reflexivity].
    destruct (consume_pool _ _ _ _ _) as [[c p] l].
    destruct (_ && _); reflexivity.
  - intros Hq.
    assert (Hz : Forall (fun q => eget migration_readiness 0 q == 0)
                        (matching_queues i (e_annual_queues env))).
    { eapply Forall_impl; [exact Hq|]. intros q [H1 H2]. simpl in *.
      apply Qle_antisym; [apply Qnot_lt_le; exact H2|exact H1]. }
    destruct (gross_location_not_ready _
                (Qsum headcount (affected_roles i (roles (e_data env))))
                (weighted_cost_of (affected_roles i (roles (e_data env))) 55000)
                (impact i) (adoption i) (params (e_data env)) Hz) as [Hs Hm].
    fold g in Hs, Hm. rewrite Hs, Hm. simpl.
    rewrite andb_false_r. reflexivity.
Qed.

End LocationLever.

(** An Email location initiative on the chat-only data: no queue is on
    its channel, the formula falls back to the chat queue, and chat is
    already digital, so no queue it uses is migration-ready. *)
Lemma location_initiative_witness :
  let i := ex_init "LS02" "cost_reduction" ["Email"] ["Agent L1"] 50 in
  let env := make_env ex_chat_data in
  let out := process_initiative ex_ramp env (initial_ledgers ex_chat_data)
               i ex_blank in
  lever i = "cost_reduction"%string /\
  Forall (fun q => 0 <= eget migration_readiness 0 q
                   /\ ~ 0 < eget migration_readiness 0 q)
         (matching_queues i (e_annual_queues env)) /\
  _fteImpact out.2 = 0 /\
  role_cum out.1 = role_cum (initial_ledgers ex_chat_data) /\
  role_impact out.1 = role_impact (initial_ledgers ex_chat_data) /\
  _annualSaving out.2 = 0.
Proof.
  intros i env out.
  assert (H : lever i = "cost_reduction"%string) by reflexivity.
  assert (Hq : Forall (fun q => 0 <= eget migration_readiness 0 q
                                /\ ~ 0 < eget migration_readiness 0 q)
                      (matching_queues i (e_annual_queues env))).
  { repeat constructor; vm_compute; discriminate. }
  destruct (location_initiative_no_fte_no_ledger_write ex_ramp env
              (initial_ledgers ex_chat_data) i ex_blank H) as (H1 & H2 & H3 & H4).
  split; [exact H|]. split; [exact Hq|].
  split; [exact H1|]. split; [exact H2|]. split; [exact H3|]. exact (H4 Hq).
Defined.

(** ** Signs of the quantities the engines compute *)

Lemma Qsum_nonneg {A} (f : A -> Q) (l : list A) :
  Forall (fun x => 0 <= f x) l -> 0 <= Qsum f l.
Proof.
  induction 1 as [|x l Hx _ IH]; simpl; [apply Qle_refl|].
  change 0 with (0 + 0). now apply Qplus_le_compat.
Qed.

Lemma Qsum_le {A} (f g : A -> Q) (l : list A) :
  Forall (fun x => f x <= g x) l -> Qsum f l <= Qsum g l.
Proof.
  induction 1 as [|x l Hx _ IH]; simpl; [apply Qle_refl|].
  now apply Qplus_le_compat.
Qed.

Lemma Qdiv_nonneg a b : 0 <= a -> 0 < b -> 0 <= a / b.
Proof. intros Ha Hb. apply Qle_shift_div_l; [exact Hb|]. lra. Qed.

Lemma Qmax_pos_r a b : 0 < b -> 0 < Qmax a b.
Proof. intros H. eapply Qlt_le_trans; [exact H|apply Q.le_max_r]. Qed.

Lemma Qmax_nonneg_l a b : 0 <= a -> 0 <= Qmax a b.
Proof. intros H. eapply Qle_trans; [exact H|apply Q.le_max_l]. Qed.

Lemma Qmax_nonneg_r a b : 0 <= b -> 0 <= Qmax a b.
Proof. intros H. eapply Qle_trans; [exact H|apply Q.le_max_r]. Qed.

Lemma Qmin_nonneg a b : 0 <= a -> 0 <= b -> 0 <= Qmin a b.
Proof. intros Ha Hb. now apply Q.min_glb. Qed.

Lemma Qplus_nonneg a b : 0 <= a -> 0 <= b -> 0 <= a + b.
Proof. intros. lra. Qed.

Lemma default_nonneg (o : option Q) (d : Q) :
  nonneg_opt o -> 0 <= d -> 0 <= default d o.
Proof. destruct o; simpl; auto. Qed.

(** Goals of the form [0 <= e] or [0 < e], by the structure of [e]. *)
Ltac nonneg :=
  first
    [ assumption
    | lra
    | apply round_nd_nonneg; nonneg
    | apply Qmult_le_0_compat; nonneg
    | apply Qdiv_nonneg; nonneg
    | apply Qmin_nonneg; nonneg
    | apply default_nonneg; nonneg
    | apply Qmax_pos_r; nonneg
    | apply Qmax_nonneg_l; nonneg
    | apply Qmax_nonneg_r; nonneg
    | apply Qplus_nonneg; nonneg ].

Lemma repeatability_nonneg c : 0 <= _repeatability_from_complexity c.
Proof.
  unfold _repeatability_from_complexity.
  repeat match goal with |- context [if ?b then _ else _] => destruct b end; lra.
Qed.

Lemma auth_required_range c n :
  0 <= _auth_required_from_complexity c n <= 1.
Proof.
  unfold _auth_required_from_complexity.
  repeat match goal with |- context [if ?b then _ else _] => destruct b end; lra.
Qed.

Lemma decompose_aht_reducible_nonneg aht_minutes acw_minutes c :
  0 <= aht_minutes -> 0 <= acw_minutes ->
  0 <= reducible_sec (_decompose_aht aht_minutes acw_minutes c).
Proof.
  intros Ha Hw. unfold _decompose_aht.
  repeat match goal with |- context [if ?b then _ else _] => destruct b end;
    simpl; apply round_nd_nonneg; nonneg.
Qed.

Lemma transfer_classification_nonneg t e c :
  0 <= preventable_rate (_transfer_classification t e c).
Proof.
  unfold _transfer_classification.
  destruct (Qleb t 0) eqn:Et; simpl; [lra|].
  apply Qleb_false in Et.
  repeat match goal with |- context [if ?b then _ else _] => destruct b end;
    apply round_nd_nonneg; nonneg.
Qed.

Lemma migration_readiness_nonneg ch c e a :
  c <= 1 -> 0 <= _migration_readiness ch c e a.
Proof.
  intros Hc. unfold _migration_readiness.
  destruct (str_in ch _); [lra|].
  destruct (String.eqb ch "IVR"); [nonneg|].
  apply round_nd_nonneg. apply Q.le_max_l.
Qed.

Lemma enrich_queue_wf (q : Queue) : wf_queue q -> wf_equeue (enrich_queue q).
Proof.
  intros [Hv Ha Hw Ht Htr He Hr Hc Hp].
  split; unfold eget; simpl.
  - now split.
  - apply round_nd_nonneg.
    pose proof (auth_required_range (default 0.40 (complexity q)) (intent q)).
    pose proof (repeatability_nonneg (default 0.40 (complexity q))).
    apply Qmult_le_0_compat; [|lra].
    destruct (Qltb 0.15 _); [|assumption].
    apply Qmin_nonneg; lra.
  - unfold _containment_feasibility. apply round_nd_nonneg.
    apply Qmin_nonneg; [lra|apply Q.le_max_l].
  - apply decompose_aht_reducible_nonneg; [assumption|].
    destruct (acw q); simpl in *; [assumption|lra].
  - apply transfer_classification_nonneg.
  - apply migration_readiness_nonneg.
    destruct (complexity q); simpl; [assumption|lra].
Qed.

Lemma annualize_wf (k : Q) (q : EQueue) :
  0 <= k -> wf_equeue q -> wf_equeue (annualize k q).
Proof.
  intros Hk [[Hv Ha Hw Ht Htr He Hr Hc Hp] H1 H2 H3 H4 H5].
  split; try assumption. split; simpl; try assumption.
  change 0 with (inject_Z 0). rewrite <- Zle_Qle.
  rewrite <- (py_round_inject_Z 0). apply py_round_mono.
  change (inject_Z 0) with 0. nonneg.
Qed.

Lemma Forall_map_intro {A B} (P : A -> Prop) (R : B -> Prop) (f : A -> B)
    (l : list A) :
  (forall x, P x -> R (f x)) -> Forall P l -> Forall R (map f l).
Proof. intros H. induction 1; simpl; constructor; auto. Qed.

Lemma make_env_wf (d : Data) :
  wf_data d -> Forall wf_equeue (e_annual_queues (make_env d)).
Proof.
  intros [Hq Hr [Hk Hs]]. unfold make_env, enrich_intents. simpl.
  apply (Forall_map_intro wf_equeue); [intros q; now apply annualize_wf|].
  apply (Forall_map_intro wf_queue); [exact enrich_queue_wf|exact Hq].
Qed.

Lemma enrich_intents_wf (qs : list Queue) :
  Forall wf_queue qs -> Forall wf_equeue (enrich_intents qs).
Proof. apply Forall_map_intro. exact enrich_queue_wf. Qed.

Lemma filter_Forall {A} (P : A -> Prop) (f : A -> bool) (l : list A) :
  Forall P l -> Forall P (List.filter f l).
Proof.
  induction 1; simpl; [constructor|]. destruct (f _); [constructor|]; assumption.
Qed.

Lemma matching_queues_Forall (P : EQueue -> Prop) (i : Initiative)
    (qs : list EQueue) :
  Forall P qs -> Forall P (matching_queues i qs).
Proof.
  intros H. unfold matching_queues.
  destruct (List.filter _ qs) eqn:E; [exact H|].
  rewrite <- E. now apply filter_Forall.
Qed.

Lemma affected_roles_Forall (P : Role -> Prop) (i : Initiative)
    (rs : list Role) :
  Forall P rs -> Forall P (affected_roles i rs).
Proof.
  intros H. unfold affected_roles. now apply filter_Forall.
Qed.

(** [0 <= Qsum f qs] for well-formed queues [qs]. *)
Ltac sum_nonneg H :=
  apply Qsum_nonneg; eapply Forall_impl; [exact H|];
  let q := fresh "q" in
  intros q [[? ? ? ? ? ? ? ? ?] ? ? ? ? ?]; unfold qvol; simpl.

Section GrossSigns.
Variables (qs : list EQueue) (affected_fte cost net_hours impact adoption : Q).
Hypothesis Hqs : Forall wf_equeue qs.
Hypothesis Hfte : 0 <= affected_fte.
Hypothesis Himpact : 0 <= impact.
Hypothesis Hadoption : 0 <= adoption.

Lemma gross_deflection_nonneg :
  0 <= gross_fte (_gross_deflection qs affected_fte cost net_hours impact adoption).
Proof.
  unfold _gross_deflection. simpl.
  apply round_nd_nonneg. apply Qdiv_nonneg; [|nonneg].
  apply Qdiv_nonneg; [|lra]. apply Qmult_le_0_compat.
  - sum_nonneg Hqs. nonneg.
  - apply Qdiv_nonneg; [|nonneg]. sum_nonneg Hqs. nonneg.
Qed.

Lemma gross_aht_reduction_nonneg total_vol :
  0 <= gross_fte (_gross_aht_reduction qs affected_fte cost net_hours impact
                                       adoption total_vol).
Proof.
  unfold _gross_aht_reduction. simpl.
  apply round_nd_nonneg. apply Qdiv_nonneg; [|nonneg].
  apply Qdiv_nonneg; [|lra].
  apply Qsum_nonneg. eapply Forall_impl; [exact Hqs|].
  intros q [[? ? ? ? ? ? ? ? ?] ? ? Hred ? ?]. unfold qvol, eget in *.
  destruct (enr q); simpl; nonneg.
Qed.

Lemma gross_escalation_nonneg :
  0 <= gross_fte (_gross_escalation qs affected_fte cost net_hours impact adoption).
Proof.
  unfold _gross_escalation. simpl.
  apply round_nd_nonneg. apply Qdiv_nonneg; [|nonneg].
  apply Qdiv_nonneg; [|lra]. apply Qmult_le_0_compat; [|lra].
  sum_nonneg Hqs. nonneg.
Qed.

Lemma gross_transfer_nonneg :
  0 <= gross_fte (_gross_transfer qs affected_fte cost net_hours impact adoption).
Proof.
  unfold _gross_transfer. simpl.
  apply round_nd_nonneg. apply Qdiv_nonneg; [|nonneg].
  apply Qdiv_nonneg; [|lra]. apply Qmult_le_0_compat; [|lra].
  sum_nonneg Hqs. unfold transfer_prev_share.
  repeat apply Qmult_le_0_compat; try assumption.
  - destruct (transfer (raw q)); simpl in *; [assumption|].
    destruct (transfer_rate (raw q)); simpl in *; [assumption|lra].
  - destruct (preventable_transfer_pct (raw q)); simpl in *; [assumption|].
    apply Qmax_nonneg_l. lra.
Qed.

Lemma gross_repeat_nonneg :
  0 <= gross_fte (_gross_repeat qs affected_fte cost net_hours impact adoption).
Proof.
  unfold _gross_repeat. simpl.
  apply round_nd_nonneg. apply Qdiv_nonneg; [|nonneg].
  apply Qdiv_nonneg; [|lra]. apply Qmult_le_0_compat.
  - sum_nonneg Hqs.
    set (rr := if Qltb _ _ then _ else _).
    assert (Hrr : 0 <= rr).
    { unfold rr. destruct (Qltb _ _); [apply Qmax_nonneg_l; lra|].
      now apply default_nonneg; [|lra]. }
    nonneg.
  - apply Qdiv_nonneg; [|nonneg]. sum_nonneg Hqs. nonneg.
Qed.

Lemma gross_shrinkage_nonneg (params : Params) :
  wf_params params ->
  0 <= gross_fte (_gross_shrinkage affected_fte cost impact adoption params).
Proof.
  intros [_ Hs]. unfold _gross_shrinkage. simpl.
  apply round_nd_nonneg. apply Qmult_le_0_compat; [assumption|].
  apply Qmin_nonneg; [nonneg|apply Q.le_max_l].
Qed.

Lemma gross_generic_nonneg :
  0 <= gross_fte (_gross_generic affected_fte cost impact adoption).
Proof. unfold _gross_generic. simpl. nonneg. Qed.

End GrossSigns.

(** The gross FTE of an initiative is never negative on well-formed
    inputs. *)
Lemma gross_fte_nonneg (i : Initiative) (qs : list EQueue) (rs : list Role)
    (pd : option PoolResult) (p : Params) :
  Forall wf_equeue qs -> Forall (fun r => 0 <= headcount r) rs ->
  wf_params p -> wf_initiative i ->
  0 <= gross_fte (compute_gross_impact i qs rs pd p).
Proof.
  intros Hqs Hrs Hp [Hi Ha].
  pose proof (matching_queues_Forall _ i _ Hqs) as Hm.
  assert (Hfte : 0 <= Qsum headcount (affected_roles i rs)).
  { apply Qsum_nonneg. now apply affected_roles_Forall. }
  unfold compute_gross_impact, gross_dispatch.
  repeat match goal with |- context [if ?b then _ else _] => destruct b end.
  - now apply gross_deflection_nonneg.
  - now apply gross_aht_reduction_nonneg.
  - now apply gross_escalation_nonneg.
  - now apply gross_repeat_nonneg.
  - now apply gross_transfer_nonneg.
  - simpl. lra.
  - now apply gross_shrinkage_nonneg.
  - now apply gross_generic_nonneg.
Qed.

(** The gross FTE always has one decimal. *)
Lemma gross_fte_on_grid (i : Initiative) (qs : list EQueue) (rs : list Role)
    (pd : option PoolResult) (p : Params) :
  on_grid 1 (gross_fte (compute_gross_impact i qs rs pd p)).
Proof.
  unfold compute_gross_impact, gross_dispatch.
  repeat match goal with |- context [if ?b then _ else _] => destruct b end;
    simpl; try apply round_nd_on_grid. apply on_grid_0.
Qed.

(** The pools that [compute_pools] builds start full, with a ceiling that
    is not negative and has one decimal. *)
Lemma compute_pools_fresh (qs : list EQueue) (rs : list Role) (p : Params) :
  Forall wf_equeue qs -> Forall (fun r => 0 <= headcount r) rs -> wf_params p ->
  forall k pool, pools_of (compute_pools qs rs p) !! k = Some pool ->
    remaining_fte pool = ceiling_fte pool /\
    0 <= ceiling_fte pool /\ on_grid 1 (ceiling_fte pool).
Proof.
  intros Hqs Hrs [Hk Hs] k pool H.
  unfold compute_pools in H. cbn [pools_of] in H.
  assert (Hav : forall q, wf_equeue q ->
            0 <= volume (raw q) * default 12 (volumeAnnualizationFactor p)).
  { intros q [[? ? ? ? ? ? ? ? ?] ? ? ? ? ?]. nonneg. }
  repeat (rewrite lookup_insert in H; case_decide;
          [injection H as <-; cbn [remaining_fte ceiling_fte];
           split; [reflexivity|]; split; [|apply round_nd_on_grid];
           apply round_nd_nonneg|]).
  all: try (rewrite lookup_empty in H; discriminate).
  - (* deflection *)
    apply Qdiv_nonneg; [|nonneg]. apply Qdiv_nonneg; [|lra].
    apply Qmult_le_0_compat.
    + apply Qsum_nonneg. eapply Forall_impl; [exact Hqs|].
      intros q Hq. pose proof (Hav q Hq). destruct Hq. nonneg.
    + apply Qdiv_nonneg; [|nonneg].
      apply Qsum_nonneg. eapply Forall_impl; [exact Hqs|].
      intros q Hq. pose proof (Hav q Hq). destruct Hq as [[] ]. nonneg.
  - (* AHT *)
    apply Qdiv_nonneg; [|nonneg]. apply Qdiv_nonneg; [|lra].
    apply Qsum_nonneg. eapply Forall_impl; [exact Hqs|].
    intros q Hq. pose proof (Hav q Hq). destruct Hq. nonneg.
  - (* transfer *)
    apply Qdiv_nonneg; [|nonneg]. apply Qdiv_nonneg; [|lra].
    apply Qmult_le_0_compat; [|lra].
    apply Qsum_nonneg. eapply Forall_impl; [exact Hqs|].
    intros q Hq. pose proof (Hav q Hq). destruct Hq. nonneg.
  - (* escalation *)
    apply Qdiv_nonneg; [|nonneg]. apply Qdiv_nonneg; [|lra].
    apply Qmult_le_0_compat; [|lra].
    apply Qsum_nonneg. eapply Forall_impl; [exact Hqs|].
    intros q Hq. pose proof (Hav q Hq). destruct Hq as [[] ]. nonneg.
  - (* repeat *)
    apply Qdiv_nonneg; [|nonneg]. apply Qdiv_nonneg; [|lra].
    apply Qmult_le_0_compat.
    + apply Qsum_nonneg. eapply Forall_impl; [exact Hqs|].
      intros q Hq. pose proof (Hav q Hq). destruct Hq as [[] ].
      cbv zeta.
      set (rr := if Qltb _ _ then _ else _).
      assert (Hrr : 0 <= rr).
      { unfold rr. destruct (Qltb _ _); [apply Qmax_nonneg_l; lra|].
        now apply default_nonneg; [|lra]. }
      apply Qmin_nonneg; [|nonneg].
      apply Qmult_le_0_compat; [nonneg|].
      apply Qmin_nonneg; [lra|]. apply Qdiv_nonneg; [apply Q.le_max_l|nonneg].
    + apply Qdiv_nonneg; [|nonneg].
      apply Qsum_nonneg. eapply Forall_impl; [exact Hqs|].
      intros q Hq. pose proof (Hav q Hq). destruct Hq as [[] ]. nonneg.
  - (* location *)
    apply Qmult_le_0_compat.
    + apply Qsum_nonneg. now apply filter_Forall.
    + apply Qdiv_nonneg; [|nonneg].
      apply Qsum_nonneg. eapply Forall_impl; [exact Hqs|].
      intros q Hq. pose proof (Hav q Hq). destruct Hq. nonneg.
  - (* shrinkage *)
    apply Qmult_le_0_compat; [now apply Qsum_nonneg|apply Q.le_max_l].
Qed.

(** ** C2: the pools over a run *)

Lemma Qmin_le_l_nonneg a b : 0 <= a -> 0 <= b -> 0 <= Qmin a b <= b.
Proof. intros. split; [now apply Qmin_nonneg|apply Q.le_min_r]. Qed.

(** What one call of [consume_pool] does to the pools, for a request that
    is not negative and has one decimal: every pool keeps its ceiling and
    its invariant, no remaining capacity grows, the pool drawn on loses
    exactly what the call reports as consumed, and the others stay as they
    are. *)
Lemma consume_pool_spec (pools : gmap string Pool) (lever : string)
    (amount_fte : Q) (amount_contacts amount_seconds : Z) :
  (forall k p, pools !! k = Some p -> pool_ok p) ->
  0 <= amount_fte -> on_grid 1 amount_fte ->
  forall res pools' log,
  consume_pool pools lever amount_fte amount_contacts amount_seconds
    = (res, pools', log) ->
  on_grid 1 (consumed_fte res) /\
  0 <= consumed_fte res <= amount_fte /\
  forall k p', pools' !! k = Some p' ->
    exists p, pools !! k = Some p /\
      ceiling_fte p' = ceiling_fte p /\
      pool_ok p' /\
      remaining_fte p' <= remaining_fte p /\
      (k = pool_key lever ->
         consumed_fte res == remaining_fte p - remaining_fte p') /\
      (k <> pool_key lever -> p' = p).
Proof.
  intros Hok Hamt Hgrid res pools' log.
  unfold consume_pool. fold (pool_key lever).
  destruct (pools !! pool_key lever) as [pool|] eqn:Hpool.
  2: { intros [= <- <- <-]. simpl.
       split; [apply on_grid_0|]. split; [lra|].
       intros k p' Hk. exists p'. pose proof (Hok _ _ Hk) as Hp.
       repeat split; try assumption; try apply Hp; try lra. }
  destruct (Qleb (remaining_fte pool) 0) eqn:Hrem.
  { intros [= <- <- <-]. simpl.
    split; [apply on_grid_0|]. split; [lra|].
    intros k p' Hk. exists p'. pose proof (Hok _ _ Hk) as Hp.
    repeat split; try assumption; try apply Hp; try lra. }
  apply Qleb_false in Hrem.
  destruct (Hok _ _ Hpool) as (Hg & Hlo & Hhi).
  set (actual := Qmin amount_fte (remaining_fte pool)).
  assert (Hact : 0 <= actual <= remaining_fte pool).
  { unfold actual. apply Qmin_le_l_nonneg; lra. }
  assert (Hactg : on_grid 1 actual) by (unfold actual; now apply on_grid_min).
  assert (Hnew : round_nd 1 (remaining_fte pool - actual)
                 == remaining_fte pool - actual).
  { apply round_nd_fixed. now apply on_grid_minus. }
  assert (Hcons : round_nd 1 actual == actual) by now apply round_nd_fixed.
  intros [= <- <- <-]. cbn [consumed_fte].
  split; [apply round_nd_on_grid|].
  split.
  { pose proof (Q.le_min_l amount_fte (remaining_fte pool)). fold actual in H.
    lra. }
  intros k p' Hk. rewrite lookup_insert in Hk. case_decide as Hd.
  - injection Hk as <-. subst k. exists pool. cbn [ceiling_fte remaining_fte].
    split; [assumption|]. split; [reflexivity|]. unfold pool_ok.
    cbn [ceiling_fte remaining_fte].
    repeat split; try lra.
    + apply round_nd_on_grid.
    + intros C. now contradiction C.
  - exists p'. pose proof (Hok _ _ Hk) as Hp.
    repeat split; try assumption; try apply Hp; try lra.
    intros ->. now contradiction Hd.
Qed.

Lemma consume_pool_keeps_keys (pools : gmap string Pool) (lever : string)
    (amount_fte : Q) (c s : Z) (k : string) :
  is_Some (pools !! k) ->
  is_Some ((consume_pool pools lever amount_fte c s).1.2 !! k).
Proof.
  intros Hk. unfold consume_pool.
  destruct (pools !! default lever _) eqn:E; [|exact Hk].
  destruct (Qleb _ 0); [exact Hk|]. cbn [fst snd].
  rewrite lookup_insert. case_decide; [eauto|exact Hk].
Qed.

Lemma Qsum_app {A} (f : A -> Q) (l1 l2 : list A) :
  Qsum f (l1 ++ l2) == Qsum f l1 + Qsum f l2.
Proof.
  induction l1 as [|x l1 IH]; simpl; [ring|]. rewrite IH. ring.
Qed.

Lemma Qsum_cons {A} (f : A -> Q) (x : A) (l : list A) :
  Qsum f (x :: l) = f x + Qsum f l.
Proof. reflexivity. Qed.

Lemma net_fte_on_pool_snoc (k : string) (trail : list AuditEntry) (e : AuditEntry) :
  net_fte_on_pool k (trail ++ [e])
  == net_fte_on_pool k trail
     + (if String.eqb (pool_key (a_lever e)) k then a_net_fte e else 0).
Proof.
  unfold net_fte_on_pool. rewrite List.filter_app, Qsum_app. simpl.
  destruct (String.eqb _ k); simpl; ring.
Qed.

Lemma net_fte_on_lever_le_pool (lv : string) (trail : list AuditEntry) :
  Forall (fun e => 0 <= a_net_fte e) trail ->
  net_fte_on_lever lv trail <= net_fte_on_pool (pool_key lv) trail.
Proof.
  unfold net_fte_on_lever, net_fte_on_pool.
  induction 1 as [|e l He _ IH]; [apply Qle_refl|].
  cbn [List.filter].
  destruct (String.eqb (a_lever e) lv) eqn:E.
  - apply String.eqb_eq in E. rewrite E, String.eqb_refl.
    rewrite !Qsum_cons. lra.
  - destruct (String.eqb (pool_key (a_lever e)) (pool_key lv));
      rewrite ?Qsum_cons; lra.
Qed.

Lemma gross_migrated_on_grid (i : Initiative) (qs : list EQueue) (rs : list Role)
    (pd : option PoolResult) (p : Params) :
  on_grid 1 (default 0 (gross_fte_migrated (compute_gross_impact i qs rs pd p))).
Proof.
  unfold compute_gross_impact, gross_dispatch.
  repeat match goal with |- context [if ?b then _ else _] => destruct b end;
    simpl; try apply on_grid_0. apply round_nd_on_grid.
Qed.

Lemma initiative_cap_nonneg (lever : string) :
  0 <= default 0.12 (INITIATIVE_FTE_CAPS !! lever).
Proof.
  unfold INITIATIVE_FTE_CAPS.
  destruct (_ !! lever) as [v|] eqn:E; simpl; [|lra].
  apply elem_of_list_to_map_2 in E.
  repeat (apply elem_of_cons in E as [[= -> ->]|E]; [lra|]).
  now apply elem_of_nil in E.
Qed.

Lemma capped_reduction_bounds (lever : string) (net_fte tot_aff : Q)
    (affected : list Role) (rc : gmap string Q) :
  0 <= capped_reduction lever net_fte tot_aff affected rc /\
  (0 <= net_fte -> capped_reduction lever net_fte tot_aff affected rc <= net_fte) /\
  (0 <= tot_aff ->
   capped_reduction lever net_fte tot_aff affected rc
   <= Qmin (ABSOLUTE_SINGLE_INIT_CAP * tot_aff)
           (default 0.12 (INITIATIVE_FTE_CAPS !! lever) * tot_aff)).
Proof.
  unfold capped_reduction.
  pose proof (initiative_cap_nonneg lever) as Htc.
  set (tc := default 0.12 (INITIATIVE_FTE_CAPS !! lever)) in *.
  set (avail := Qsum _ affected).
  set (m := Qmin (Qmin (Qmin net_fte (tc * tot_aff)) _) avail).
  assert (H1 : m <= net_fte).
  { unfold m. eapply Qle_trans; [apply Q.le_min_l|].
    eapply Qle_trans; [apply Q.le_min_l|]. apply Q.le_min_l. }
  assert (H2 : m <= tc * tot_aff).
  { unfold m. eapply Qle_trans; [apply Q.le_min_l|].
    eapply Qle_trans; [apply Q.le_min_l|]. apply Q.le_min_r. }
  assert (H3 : m <= ABSOLUTE_SINGLE_INIT_CAP * tot_aff).
  { unfold m. eapply Qle_trans; [apply Q.le_min_l|]. apply Q.le_min_r. }
  split; [apply Q.le_max_l|]. split.
  - intros Hn. apply Q.max_lub; assumption.
  - intros Ht. apply Q.max_lub.
    + apply Qmin_nonneg; [unfold ABSOLUTE_SINGLE_INIT_CAP|]; nonneg.
    + apply Q.min_glb; assumption.
Qed.

Lemma ledgers_step (led : Ledgers) (pools' : gmap string Pool) (e : AuditEntry)
    (ri : gmap string RoleLedger) (rc : gmap string Q) (w : list LogRecord) :
  ledgers_ok led ->
  0 <= a_net_fte e ->
  (forall k p', pools' !! k = Some p' ->
     exists p, pools led !! k = Some p /\
       ceiling_fte p' = ceiling_fte p /\ pool_ok p' /\
       remaining_fte p' <= remaining_fte p /\
       (k = pool_key (a_lever e) ->
          a_net_fte e <= remaining_fte p - remaining_fte p')) ->
  ledgers_ok {| pools := pools'; role_impact := ri; role_cum := rc;
                audit_trail := audit_trail led ++ [e]; warnings := w |}.
Proof.
  intros [Haud Hpools] He Hstep. split; cbn [audit_trail pools].
  - apply Forall_app. split; [assumption|]. now constructor.
  - intros k p' Hk.
    destruct (Hstep k p' Hk) as (p & Hp & Hceil & Hok & Hrem & Hnet).
    split; [assumption|].
    destruct (Hpools k p Hp) as [_ Hsum].
    rewrite net_fte_on_pool_snoc, Hceil.
    destruct (String.eqb (pool_key (a_lever e)) k) eqn:E.
    + apply String.eqb_eq in E. symmetry in E. specialize (Hnet E). lra.
    + lra.
Qed.

Section PoolsOverRun.
Variable ramp_value : Z -> Z -> Q.

(** One step of the cascade keeps the invariant of the ledgers, keeps
    every pool and its ceiling, and lets no remaining capacity grow. *)
Lemma process_initiative_ledgers (env : Env) (led : Ledgers)
    (i : Initiative) (a : Annotations) :
  wf_env env -> wf_initiative i -> ledgers_ok led ->
  let led' := (process_initiative ramp_value env led i a).1 in
  ledgers_ok led' /\
  (forall k p', pools led' !! k = Some p' ->
     exists p, pools led !! k = Some p /\
       ceiling_fte p' = ceiling_fte p /\
       remaining_fte p' <= remaining_fte p) /\
  (forall k, is_Some (pools led !! k) -> is_Some (pools led' !! k)).
Proof.
  intros (Hq & Hr & Hp) Hi Hled.
  assert (Hpok : forall k p, pools led !! k = Some p -> pool_ok p).
  { intros k p Hk. now apply (proj2 Hled k p). }
  assert (Hsame : forall k p', pools led !! k = Some p' ->
            exists p, pools led !! k = Some p /\
              ceiling_fte p' = ceiling_fte p /\
              remaining_fte p' <= remaining_fte p).
  { intros k p' Hk. exists p'. repeat split; [assumption|lra]. }
  unfold process_initiative.
  destruct (Qeq_bool _ 0); [cbn [fst]; auto|].
  set (g := compute_gross_impact i _ _ _ _).
  assert (Hg0 : 0 <= gross_fte g) by now apply gross_fte_nonneg.
  assert (Hgg : on_grid 1 (gross_fte g)) by apply gross_fte_on_grid.
  assert (Hmg : on_grid 1 (default 0 (gross_fte_migrated g)))
    by apply gross_migrated_on_grid.
  destruct (_is_location g).
  - (* location lever *)
    destruct (_ && _ && _) eqn:Hc.
    + apply andb_true_iff in Hc as [_ Hpos]. apply Qltb_true in Hpos.
      pose proof (consume_pool_keeps_keys (pools led) "cost_reduction"
                    (default 0 (gross_fte_migrated g)) 0 0) as Hkeys.
      destruct (consume_pool _ _ _ _ _) as [[c p] l] eqn:Hcp.
      destruct (consume_pool_spec _ _ _ _ _ Hpok (Qlt_le_weak _ _ Hpos) Hmg
                  _ _ _ Hcp) as (_ & _ & Hspec).
      assert (Hres : forall k p', p !! k = Some p' ->
                exists p0, pools led !! k = Some p0 /\
                  ceiling_fte p' = ceiling_fte p0 /\ pool_ok p' /\
                  remaining_fte p' <= remaining_fte p0).
      { intros k p' Hk. destruct (Hspec k p' Hk) as (p0 & ? & ? & ? & ? & _).
        exists p0. auto. }
      destruct (_ && _); cbn [fst]; (split; [|split]).
      1, 4: apply ledgers_step; [assumption|cbn; lra|];
            intros k p' Hk; destruct (Hres k p' Hk) as (p0 & ? & ? & ? & ?);
            exists p0; cbn [a_net_fte]; do 4 (split; [assumption|]);
            intros _; lra.
      1, 3: intros k p' Hk; cbn [pools] in Hk;
            destruct (Hres k p' Hk) as (p0 & ? & ? & ? & ?); exists p0; auto.
      1, 2: intros k Hk; cbn [pools]; exact (Hkeys k Hk).
    + cbn [fst]. split; [|split].
      * apply ledgers_step; [assumption|cbn; lra|].
        intros k p' Hk. exists p'. pose proof (Hpok k p' Hk).
        cbn [a_net_fte]. split; [assumption|]. split; [reflexivity|].
        split; [assumption|]. split; intros; lra.
      * exact Hsame.
      * auto.
  - (* levers that reduce FTE *)
    pose proof (consume_pool_keeps_keys (pools led) (lever i) (gross_fte g)
                  (gross_contacts g) (gross_seconds g)) as Hkeys.
    destruct (consume_pool _ _ _ _ _) as [[c p] l] eqn:Hcp.
    destruct (consume_pool_spec _ _ _ _ _ Hpok Hg0 Hgg _ _ _ Hcp)
      as (Hcg & [Hc0 Hc1] & Hspec).
    cbn [fst]. split; [|split].
    + apply ledgers_step; [assumption| |].
      * cbn [a_net_fte]. apply round_nd_nonneg.
        match goal with
        | |- context [capped_reduction ?a ?b ?c ?d ?e] =>
            exact (proj1 (capped_reduction_bounds a b c d e))
        end.
      * intros k p' Hk.
        destruct (Hspec k p' Hk) as (p0 & ? & ? & ? & ? & Hcons & _).
        exists p0. cbn [a_net_fte a_lever].
        do 4 (split; [assumption|]).
        intros Hkey. specialize (Hcons Hkey).
        pose proof (round_nd_fixed 1 (consumed_fte c) Hcg) as Hfx.
        match goal with
        | |- context [capped_reduction ?a ?b ?c ?d ?e] =>
            destruct (capped_reduction_bounds a b c d e) as (_ & B1 & _)
        end.
        eapply Qle_trans; [apply round_nd_mono; exact (B1 Hc0)|]. lra.
    + intros k p' Hk. cbn [pools] in Hk.
      destruct (Hspec k p' Hk) as (p0 & ? & ? & ? & ? & _). exists p0. auto.
    + intros k Hk. cbn [pools]. exact (Hkeys k Hk).
Qed.

End PoolsOverRun.

Section PoolsOverCascade.
Variable ramp_value : Z -> Z -> Q.

Lemma cascade_app (env : Env) (led : Ledgers) (s : list InitRec)
    (o1 o2 : list nat) :
  cascade ramp_value env led s (o1 ++ o2)
  = cascade ramp_value env (cascade ramp_value env led s o1).1
            (cascade ramp_value env led s o1).2 o2.
Proof.
  unfold cascade. rewrite fold_left_app.
  now destruct (fold_left _ o1 (led, s)).
Qed.

Lemma cascade_cons (env : Env) (led : Ledgers) (s : list InitRec)
    (k : nat) (order : list nat) :
  cascade ramp_value env led s (k :: order)
  = cascade ramp_value env (cascade_step ramp_value env (led, s) k).1
            (cascade_step ramp_value env (led, s) k).2 order.
Proof. unfold cascade. simpl. now destruct (cascade_step _ _ _ _). Qed.

(** The invariant of the ledgers holds after any number of steps, every
    pool keeps its ceiling, and no remaining capacity grows. *)
Lemma cascade_ledgers (env : Env) (order : list nat) :
  wf_env env ->
  forall led s,
  Forall (fun r => wf_initiative (ini r)) s -> ledgers_ok led ->
  let st' := cascade ramp_value env led s order in
  ledgers_ok st'.1 /\
  Forall (fun r => wf_initiative (ini r)) st'.2 /\
  (forall k p', pools st'.1 !! k = Some p' ->
     exists p, pools led !! k = Some p /\
       ceiling_fte p' = ceiling_fte p /\
       remaining_fte p' <= remaining_fte p) /\
  (forall k, is_Some (pools led !! k) -> is_Some (pools st'.1 !! k)).
Proof.
  intros Henv. induction order as [|k order IH]; intros led s Hs Hled.
  - unfold cascade. cbn [fold_left fst snd].
    split; [assumption|]. split; [assumption|]. split; [|auto].
    intros k p' Hk. exists p'. split; [assumption|]. split; [reflexivity|lra].
  - rewrite cascade_cons. unfold cascade_step. cbn [fst snd].
    destruct (s !! k) as [r|] eqn:Hr; [|now apply IH].
    assert (Hwf : wf_initiative (ini r)).
    { rewrite Forall_lookup in Hs. exact (Hs k r Hr). }
    pose proof (process_initiative_ledgers ramp_value env led (ini r) (ann r)
                  Henv Hwf Hled) as (H1 & H2 & H3).
    destruct (process_initiative _ _ _ _ _) as [led1 a1]. cbn [fst snd] in *.
    assert (Hs1 : Forall (fun r => wf_initiative (ini r))
                         (<[k := {| ini := ini r; ann := a1 |}]> s)).
    { apply Forall_insert; assumption. }
    destruct (IH led1 _ Hs1 H1) as (I1 & I2 & I3 & I4).
    split; [assumption|]. split; [assumption|]. split.
    + intros j p' Hj. destruct (I3 j p' Hj) as (p1 & Hp1 & Hc1 & Hr1).
      destruct (H2 j p1 Hp1) as (p0 & Hp0 & Hc0 & Hr0).
      exists p0. split; [assumption|]. split; [congruence|lra].
    + intros j Hj. apply I4. now apply H3.
Qed.

Lemma initial_ledgers_ok (d : Data) :
  wf_data d ->
  ledgers_ok (initial_ledgers d) /\
  forall k p, pools (initial_ledgers d) !! k = Some p ->
    remaining_fte p = ceiling_fte p.
Proof.
  intros [Hq Hr Hp].
  pose proof (compute_pools_fresh _ _ _ (enrich_intents_wf _ Hq) Hr Hp) as Hf.
  split; [split|]; cbn [initial_ledgers audit_trail pools].
  - constructor.
  - intros k p Hk. destruct (Hf k p Hk) as (He & H0 & Hg).
    unfold pool_ok, net_fte_on_pool. rewrite He. cbn.
    repeat split; try assumption; lra.
  - intros k p Hk. now destruct (Hf k p Hk).
Qed.

Lemma make_env_wf_env (d : Data) : wf_data d -> wf_env (make_env d).
Proof.
  intros Hd. split; [now apply make_env_wf|]. destruct Hd. now split.
Qed.

(** C2: at every point of a run (after the initiatives [done] of the
    run's order, [rest] being still to come) every pool has
    [0 <= remaining_fte <= ceiling_fte] with the ceiling it started with,
    its remaining capacity is not larger at any later point, and the net
    FTE recorded for the initiatives of one lever is at most the ceiling of
    that lever's pool. *)
Theorem pools_bounded_over_the_run
    (d : Data) (inits : list InitRec) (done rest : list nat) :
  wf_data d ->
  Forall (fun r => wf_initiative (ini r)) inits ->
  sorted_inits inits = done ++ rest ->
  let led := (cascade ramp_value (make_env d) (initial_ledgers d) inits done).1 in
  let led' :=
    (cascade ramp_value (make_env d) (initial_ledgers d) inits (done ++ rest)).1 in
  forall k p, pools led !! k = Some p ->
    0 <= remaining_fte p <= ceiling_fte p /\
    (exists p0, pools (initial_ledgers d) !! k = Some p0 /\
       ceiling_fte p = ceiling_fte p0 /\ remaining_fte p0 = ceiling_fte p0 /\
       remaining_fte p <= remaining_fte p0) /\
    (exists p', pools led' !! k = Some p' /\
       ceiling_fte p' = ceiling_fte p /\
       remaining_fte p' <= remaining_fte p) /\
    (forall lv, pool_key lv = k ->
       net_fte_on_lever lv (audit_trail led) <= ceiling_fte p).
Proof.
  intros Hd Hi _ led led' k p Hk.
  pose proof (make_env_wf_env d Hd) as Henv.
  destruct (initial_ledgers_ok d Hd) as [Hinit Hfull].
  destruct (cascade_ledgers (make_env d) done Henv _ _ Hi Hinit)
    as (L1 & L2 & L3 & L4).
  fold led in L1, L3, L4.
  destruct (proj2 L1 k p Hk) as [(Hg & Hlo & Hhi) Hsum].
  split; [split; assumption|]. split; [|split].
  - destruct (L3 k p Hk) as (p0 & Hp0 & Hc0 & Hr0).
    exists p0. split; [assumption|]. split; [assumption|].
    split; [exact (Hfull k p0 Hp0)|assumption].
  - subst led'. rewrite cascade_app.
    destruct (cascade_ledgers (make_env d) rest Henv _ _ L2 L1)
      as (M1 & M2 & M3 & M4).
    fold led in M1, M3, M4.
    destruct (M4 k) as [p' Hp']; [now exists p|].
    exists p'. split; [exact Hp'|].
    destruct (M3 k p' Hp') as (p1 & Hp1 & Hc1 & Hr1).
    rewrite Hk in Hp1. injection Hp1 as <-. split; assumption.
  - intros lv <-.
    pose proof (net_fte_on_lever_le_pool lv _ (proj1 L1)). lra.
Qed.

End PoolsOverCascade.

Lemma ex_data_wf : wf_data ex_data.
Proof.
  split.
  - repeat constructor; cbn; lra.
  - repeat constructor; cbn; lra.
  - split; cbn; lra.
Qed.

Lemma ex_inits_wf : Forall (fun r => wf_initiative (ini r)) ex_inits.
Proof. repeat constructor; cbn; lra. Qed.

(** The sample run after its first two initiatives. *)
Lemma pools_bounded_witness :
  let led :=
    (cascade ex_ramp (make_env ex_data) (initial_ledgers ex_data) ex_inits
             [0; 1]%nat).1 in
  let led' :=
    (cascade ex_ramp (make_env ex_data) (initial_ledgers ex_data) ex_inits
             ([0; 1] ++ [2])%nat).1 in
  wf_data ex_data /\
  Forall (fun r => wf_initiative (ini r)) ex_inits /\
  sorted_inits ex_inits = ([0; 1] ++ [2])%nat /\
  forall k p, pools led !! k = Some p ->
    0 <= remaining_fte p <= ceiling_fte p /\
    (exists p0, pools (initial_ledgers ex_data) !! k = Some p0 /\
       ceiling_fte p = ceiling_fte p0 /\ remaining_fte p0 = ceiling_fte p0 /\
       remaining_fte p <= remaining_fte p0) /\
    (exists p', pools led' !! k = Some p' /\
       ceiling_fte p' = ceiling_fte p /\
       remaining_fte p' <= remaining_fte p) /\
    (forall lv, pool_key lv = k ->
       net_fte_on_lever lv (audit_trail led) <= ceiling_fte p).
Proof.
  intros led led'.
  assert (Hs : sorted_inits ex_inits = ([0; 1] ++ [2])%nat)
    by (vm_compute; reflexivity).
  split; [exact ex_data_wf|]. split; [exact ex_inits_wf|]. split; [exact Hs|].
  exact (pools_bounded_over_the_run ex_ramp ex_data ex_inits [0; 1]%nat [2%nat]
           ex_data_wf ex_inits_wf Hs).
Defined.

Example pools_sample_deflection :
  let led := (run_cascade ex_ramp ex_data ex_inits).1 in
  (fun p => (ceiling_fte p, remaining_fte p)) <$> pools led !! "deflection"%string
    = Some (Qred 46.4, Qred 6.8) /\
  net_fte_on_lever "deflection" (audit_trail led) == 7.2.
Proof. vm_compute. split; reflexivity. Qed.

(** ** C3: the net reduction against the gross impact and the caps *)

(** C3, as stated, fails: with three agents affected, the AHT cap is
    0.12 x 3 = 0.36 FTE and the absolute cap 0.60 FTE; the cascade grants
    0.36 and reports [_fteImpact = round(0.36, 1) = 0.4], above the cap. *)
Lemma fte_impact_rounded_above_cap :
  let r := (run_cascade ex_ramp ex_small_data ex_aht_inits).2 !! 0%nat in
  let affected_fte :=
    Qsum headcount
      (affected_roles (ex_init "AI02" "aht_reduction" ["Voice"] ["Agent L1"] 90)
                      (roles ex_small_data)) in
  affected_fte == 3 /\
  INITIATIVE_FTE_CAPS !! "aht_reduction"%string = Some 0.12 /\
  (_fteImpact <$> (ann <$> r)) = Some (Qred 0.4) /\
  (_grossFTE <$> (ann <$> r)) = Some (Qred 8.4) /\
  ~ (0.4 <= Qmin (0.20 * affected_fte) (0.12 * affected_fte)).
Proof.
  cbv zeta.
  split; [vm_compute; reflexivity|]. split; [vm_compute; reflexivity|].
  split; [vm_compute; reflexivity|]. split; [vm_compute; reflexivity|].
  intros H. vm_compute in H. now apply H.
Qed.

(** A request that is not negative and has one decimal is never granted
    more than asked, whatever the pools hold. *)
Lemma consume_pool_at_most_asked (pools : gmap string Pool) (lever : string)
    (amount_fte : Q) (c s : Z) :
  0 <= amount_fte -> on_grid 1 amount_fte ->
  0 <= consumed_fte (consume_pool pools lever amount_fte c s).1.1 <= amount_fte.
Proof.
  intros Hamt Hg. unfold consume_pool.
  destruct (pools !! default lever _) as [pool|]; [|cbn; lra].
  destruct (Qleb (remaining_fte pool) 0) eqn:E; [cbn; lra|].
  apply Qleb_false in E. cbn [fst consumed_fte].
  split.
  - apply round_nd_nonneg. apply Qmin_nonneg; lra.
  - pose proof (round_nd_fixed 1 amount_fte Hg) as Hfx.
    eapply Qle_trans; [apply round_nd_mono; apply Q.le_min_l|]. lra.
Qed.

Section NetAgainstCaps.
Variable ramp_value : Z -> Z -> Q.

(** C3 (amended): on well-formed inputs the reported [_fteImpact] is at
    most the initiative's gross FTE, and at most the smaller of the two
    caps rounded to one decimal, so it exceeds that cap by 0.05 at most.
    The per-type cap of a lever that has no entry in [INITIATIVE_FTE_CAPS]
    (such as transfer_reduction) is 0.12. *)
Theorem fte_impact_within_gross_and_rounded_cap
    (d : Data) (led : Ledgers) (i : Initiative) (a : Annotations) :
  wf_data d -> wf_initiative i ->
  let env := make_env d in
  let out := process_initiative ramp_value env led i a in
  let gross :=
    compute_gross_impact i (e_annual_queues env) (roles d) (e_pool_result env)
                         (params d) in
  let affected_fte := Qsum headcount (affected_roles i (roles d)) in
  let cap :=
    Qmin (ABSOLUTE_SINGLE_INIT_CAP * affected_fte)
         (default 0.12 (INITIATIVE_FTE_CAPS !! lever i) * affected_fte) in
  _fteImpact out.2 <= gross_fte gross /\
  _fteImpact out.2 <= round_nd 1 cap /\
  _fteImpact out.2 <= cap + 0.05.
Proof.
  intros Hd Hi env out gross affected_fte cap.
  pose proof (make_env_wf_env d Hd) as (Hq & Hr & Hp).
  assert (Hg0 : 0 <= gross_fte gross) by now apply gross_fte_nonneg.
  assert (Hgg : on_grid 1 (gross_fte gross)) by apply gross_fte_on_grid.
  assert (Haff : 0 <= affected_fte).
  { apply Qsum_nonneg. apply affected_roles_Forall. now destruct Hd. }
  assert (Hcap0 : 0 <= cap).
  { pose proof (initiative_cap_nonneg (lever i)).
    unfold cap, ABSOLUTE_SINGLE_INIT_CAP. apply Qmin_nonneg; nonneg. }
  assert (Hnear : round_nd 1 cap <= cap + 0.05).
  { pose proof (round_nd_near 1 cap) as [_ Hu].
    assert (E : (1 # 2) / pow10 1 == 0.05) by reflexivity. lra. }
  assert (Hrc0 : 0 <= round_nd 1 cap) by now apply round_nd_nonneg.
  assert (Hz : forall x, x = 0 ->
            x <= gross_fte gross /\ x <= round_nd 1 cap /\ x <= cap + 0.05).
  { intros x ->. repeat split; lra. }
  subst out. unfold process_initiative.
  fold env. change (e_data env) with d. fold affected_fte.
  destruct (Qeq_bool affected_fte 0); [now apply Hz|].
  fold gross.
  destruct (_is_location gross).
  - destruct (_ && _ && _).
    + destruct (consume_pool _ _ _ _ _) as [[c p] l].
      destruct (_ && _); now apply Hz.
    + now apply Hz.
  - pose proof (consume_pool_at_most_asked (pools led) (lever i) (gross_fte gross)
                  (gross_contacts gross) (gross_seconds gross) Hg0 Hgg)
      as [Hc0 Hc1].
    destruct (consume_pool _ _ _ _ _) as [[c p] l]. cbn [fst snd] in *.
    cbn [_fteImpact].
    destruct (capped_reduction_bounds (lever i) (consumed_fte c) affected_fte
                (affected_roles i (roles d)) (role_cum led)) as (B0 & B1 & B2).
    fold cap in B2. specialize (B1 Hc0). specialize (B2 Haff).
    set (red := capped_reduction _ _ _ _ _) in *.
    assert (H1 : round_nd 1 red <= round_nd 1 (gross_fte gross)).
    { apply round_nd_mono. lra. }
    assert (H2 : round_nd 1 red <= round_nd 1 cap) by now apply round_nd_mono.
    pose proof (round_nd_fixed 1 _ Hgg).
    repeat split; lra.
Qed.

End NetAgainstCaps.

Lemma ex_small_data_wf : wf_data ex_small_data.
Proof.
  split.
  - repeat constructor; cbn; lra.
  - repeat constructor; cbn; lra.
  - split; cbn; lra.
Qed.

(** The three-agent sample: 0.4 FTE reported, gross 8.4, cap 0.36. *)
Lemma fte_impact_within_rounded_cap_witness :
  let i := ex_init "AI02" "aht_reduction" ["Voice"] ["Agent L1"] 90 in
  let d := ex_small_data in
  let env := make_env d in
  let out := process_initiative ex_ramp env (initial_ledgers d) i ex_blank in
  let gross :=
    compute_gross_impact i (e_annual_queues env) (roles d) (e_pool_result env)
                         (params d) in
  let affected_fte := Qsum headcount (affected_roles i (roles d)) in
  let cap :=
    Qmin (ABSOLUTE_SINGLE_INIT_CAP * affected_fte)
         (default 0.12 (INITIATIVE_FTE_CAPS !! lever i) * affected_fte) in
  wf_data d /\ wf_initiative i /\
  _fteImpact out.2 <= gross_fte gross /\
  _fteImpact out.2 <= round_nd 1 cap /\
  _fteImpact out.2 <= cap + 0.05.
Proof.
  intros i d env out gross affected_fte cap.
  assert (Hi : wf_initiative i) by (split; cbn; lra).
  split; [exact ex_small_data_wf|]. split; [exact Hi|].
  exact (fte_impact_within_gross_and_rounded_cap ex_ramp d (initial_ledgers d)
           i ex_blank ex_small_data_wf Hi).
Defined.

(** ** C1: the per-role cap over the cascade *)

(** C1 (the code at a failing input): two roles of ten agents, three
    deflection initiatives.  The first two, on Agent L1 alone, take 1.8 FTE
    each from it (the 18% cap of the lever).  The third is on both roles:
    the room left under the 45% cap is 0.9 + 4.5 = 5.4 FTE in total, the
    initiative is granted 3.6 FTE (18% of twenty agents), and the split by
    headcount gives 1.8 of it to Agent L1, whose cumulative allocation
    becomes 5.4 FTE, above 0.45 x 10 = 4.5. *)
Lemma role_cap_exceeded_by_headcount_split (ramp_value : Z -> Z -> Q) :
  let after (order : list nat) :=
    role_cum (cascade ramp_value (make_env ex_data) (initial_ledgers ex_data)
                      ex_inits order).1 !! "Agent L1"%string in
  sorted_inits ex_inits = [0; 1; 2]%nat /\
  Qred <$> after [0]%nat = Some (Qred 1.8) /\
  Qred <$> after [0; 1]%nat = Some (Qred 3.6) /\
  Qred <$> after [0; 1; 2]%nat = Some (Qred 5.4) /\
  ~ (5.4 <= PER_ROLE_MAX_REDUCTION * headcount ex_role_l1).
Proof.
  cbv zeta.
  split; [vm_compute; reflexivity|]. split; [vm_compute; reflexivity|].
  split; [vm_compute; reflexivity|]. split; [vm_compute; reflexivity|].
  intros H. vm_compute in H. now apply H.
Qed.

(** ** C4: scenario and sensitivity sub-runs and the base run *)

Section SubRuns.
Variable ramp_value : Z -> Z -> Q.

Abbreviation process := (process_initiative ramp_value).
Abbreviation step := (cascade_step ramp_value).
Abbreviation casc := (cascade ramp_value).

(** The ledgers after a step do not depend on the keys the run writes. *)
Lemma process_ledgers_independent (env : Env) (led : Ledgers) (i : Initiative)
    (a a' : Annotations) :
  (process env led i a).1 = (process env led i a').1.
Proof.
  unfold process_initiative.
  destruct (Qeq_bool _ 0); [reflexivity|].
  destruct (_is_location _).
  - destruct (_ && _ && _); [|reflexivity].
    destruct (consume_pool _ _ _ _ _) as [[c p] l].
    destruct (_ && _); reflexivity.
  - destruct (consume_pool _ _ _ _ _) as [[c p] l]. reflexivity.
Qed.

(** Processing an initiative again, in the same ledgers, after its
    contribution percentage was set, writes the values that are there:
    every key but the percentage is overwritten with the same value, and
    the percentage is kept, or is 0 again for an initiative without
    affected roles. *)
Lemma process_again (env : Env) (led : Ledgers) (r : InitRec) (c : Q) :
  (tot_aff_zero env (ini r) = true -> c = 0) ->
  let r1 := {| ini := ini r; ann := (process env led (ini r) (ann r)).2 |} in
  (process env led (ini r1) (ann (set_contribution c r1))).2
  = ann (set_contribution c r1).
Proof.
  unfold tot_aff_zero. intros Hc. cbn [ini ann set_contribution].
  unfold process_initiative.
  destruct (Qeq_bool _ 0).
  - rewrite (Hc eq_refl). reflexivity.
  - destruct (_is_location _).
    + destruct (_ && _ && _); [|reflexivity].
      destruct (consume_pool _ _ _ _ _) as [[c0 p] l].
      destruct (_ && _); reflexivity.
    + destruct (consume_pool _ _ _ _ _) as [[c0 p] l]. reflexivity.
Qed.

(** An initiative without affected roles is left with no saving. *)
Lemma process_no_roles_no_saving (env : Env) (led : Ledgers) (i : Initiative)
    (a : Annotations) :
  tot_aff_zero env i = true -> _annualSaving (process env led i a).2 = 0.
Proof.
  unfold tot_aff_zero, process_initiative. intros ->. reflexivity.
Qed.

Lemma step_length (env : Env) (st : Ledgers * list InitRec) (k : nat) :
  length (step env st k).2 = length st.2.
Proof.
  unfold cascade_step. destruct (st.2 !! k); [|reflexivity].
  destruct (process _ _ _ _). cbn. apply length_insert.
Qed.

Lemma step_lookup_ne (env : Env) (st : Ledgers * list InitRec) (k j : nat) :
  k <> j -> (step env st k).2 !! j = st.2 !! j.
Proof.
  intros Hne. unfold cascade_step. destruct (st.2 !! k); [|reflexivity].
  destruct (process _ _ _ _). cbn. now apply list_lookup_insert_ne.
Qed.

Lemma step_ini (env : Env) (st : Ledgers * list InitRec) (k j : nat) :
  ini <$> (step env st k).2 !! j = ini <$> st.2 !! j.
Proof.
  destruct (decide (k = j)) as [->|Hne].
  - unfold cascade_step. destruct (st.2 !! j) as [r|] eqn:E; [|cbn; now rewrite E].
    destruct (process _ _ _ _). cbn.
    rewrite list_lookup_insert_eq; [reflexivity|].
    now apply lookup_lt_Some in E.
  - now rewrite step_lookup_ne.
Qed.

Lemma cascade_length (env : Env) (order : list nat) :
  forall led s, length (casc env led s order).2 = length s.
Proof.
  induction order as [|k order IH]; intros led s; [reflexivity|].
  rewrite cascade_cons, IH. apply step_length.
Qed.

Lemma cascade_lookup_other (env : Env) (order : list nat) (j : nat) :
  j ∉ order -> forall led s, (casc env led s order).2 !! j = s !! j.
Proof.
  induction order as [|k order IH]; intros Hj led s; [reflexivity|].
  apply not_elem_of_cons in Hj as [Hne Hj].
  rewrite cascade_cons, IH by assumption.
  apply (step_lookup_ne env (led, s)). congruence.
Qed.

Lemma cascade_ini (env : Env) (order : list nat) (j : nat) :
  forall led s, ini <$> (casc env led s order).2 !! j = ini <$> s !! j.
Proof.
  induction order as [|k order IH]; intros led s; [reflexivity|].
  rewrite cascade_cons, IH. apply (step_ini env (led, s)).
Qed.

(** An initiative that the cascade went through holds what its last
    processing wrote. *)
Lemma cascade_output (env : Env) (order : list nat) (j : nat) :
  j ∈ order -> forall led s r,
  (casc env led s order).2 !! j = Some r ->
  exists led' a, ann r = (process env led' (ini r) a).2.
Proof.
  induction order as [|k order IH]; intros Hj led s r Hr.
  - now apply elem_of_nil in Hj.
  - rewrite cascade_cons in Hr.
    destruct (decide (j ∈ order)) as [Hin|Hnin]; [exact (IH Hin _ _ _ Hr)|].
    apply elem_of_cons in Hj as [->|Hj]; [|contradiction].
    rewrite cascade_lookup_other in Hr by assumption.
    unfold cascade_step in Hr. cbn [fst snd] in Hr.
    destruct (s !! k) as [r0|] eqn:E.
    + destruct (process env led (ini r0) (ann r0)) as [led1 a1] eqn:Ep.
      cbn [snd] in Hr.
      rewrite list_lookup_insert_eq in Hr by now apply lookup_lt_Some in E.
      injection Hr as <-. cbn [ini ann]. exists led, (ann r0). now rewrite Ep.
    + cbn [snd] in Hr. congruence.
Qed.

End SubRuns.

(** *** The order of the cascade *)

Lemma insert_stable_perm {A} (key : A -> Z * Z * Q) (x : A) (l : list A) :
  insert_stable key x l ≡ₚ x :: l.
Proof.
  induction l as [|y l IH]; simpl; [reflexivity|].
  destruct (key_lt _ _); [reflexivity|].
  rewrite IH. apply Permutation_swap.
Qed.

Lemma sorted_by_perm {A} (key : A -> Z * Z * Q) (l : list A) :
  sorted_by key l ≡ₚ l.
Proof.
  unfold sorted_by.
  assert (H : forall acc, fold_left (fun acc x => insert_stable key x acc) l acc
                          ≡ₚ acc ++ l).
  { induction l as [|x l IH]; intros acc; simpl.
    - now rewrite app_nil_r.
    - rewrite IH, insert_stable_perm. simpl. apply Permutation_middle. }
  apply H.
Qed.

Lemma insert_stable_ext {A} (key key' : A -> Z * Z * Q) (x : A) (l : list A) :
  (forall y, key y = key' y) -> insert_stable key x l = insert_stable key' x l.
Proof.
  intros H. induction l as [|y l IH]; simpl; [reflexivity|].
  now rewrite !H, IH.
Qed.

Lemma sorted_by_ext {A} (key key' : A -> Z * Z * Q) (l : list A) :
  (forall y, key y = key' y) -> sorted_by key l = sorted_by key' l.
Proof.
  intros H. unfold sorted_by. generalize (@nil A).
  induction l as [|x l IH]; intros acc; simpl; [reflexivity|].
  now rewrite (insert_stable_ext key key' x acc H), IH.
Qed.

Lemma enabled_indices_NoDup (s : list InitRec) : NoDup (enabled_indices s).
Proof.
  unfold enabled_indices. apply NoDup_ListNoDup.
  apply List.NoDup_filter, List.seq_NoDup.
Qed.

Lemma enabled_indices_spec (s : list InitRec) (k : nat) :
  k ∈ enabled_indices s ->
  exists r, s !! k = Some r /\ enabled (ini r) = true.
Proof.
  unfold enabled_indices. rewrite list_elem_of_In, List.filter_In.
  intros [_ H]. destruct (s !! k) as [r|]; [eauto|discriminate].
Qed.

Lemma sorted_inits_NoDup (s : list InitRec) : NoDup (sorted_inits s).
Proof.
  unfold sorted_inits. rewrite sorted_by_perm. apply enabled_indices_NoDup.
Qed.

Lemma sorted_inits_spec (s : list InitRec) (k : nat) :
  k ∈ sorted_inits s ->
  exists r, s !! k = Some r /\ enabled (ini r) = true.
Proof.
  unfold sorted_inits. rewrite sorted_by_perm. apply enabled_indices_spec.
Qed.

(** The order depends on the initiatives' input keys only. *)
Lemma sorted_inits_ext (s s' : list InitRec) :
  length s' = length s ->
  (forall k, ini <$> s' !! k = ini <$> s !! k) ->
  sorted_inits s' = sorted_inits s.
Proof.
  intros Hlen H. unfold sorted_inits, enabled_indices. rewrite Hlen.
  assert (E : forall k,
            match s' !! k with Some r => enabled (ini r) | None => false end
            = match s !! k with Some r => enabled (ini r) | None => false end).
  { intros k. specialize (H k).
    destruct (s' !! k), (s !! k); cbn in H; congruence. }
  rewrite (List.filter_ext _ _ E).
  apply sorted_by_ext. intros k. specialize (H k).
  destruct (s' !! k), (s !! k); cbn in H; congruence.
Qed.

Lemma map_lookup {A B} (f : A -> B) (l : list A) (k : nat) :
  map f l !! k = f <$> l !! k.
Proof.
  revert k. induction l as [|x l IH]; intros [|k]; cbn; auto.
Qed.

Lemma write_contribution_lookup (s : list InitRec) (k : nat) (r : InitRec) :
  s !! k = Some r ->
  exists c, write_contribution s !! k = Some (set_contribution c r) /\
    (enabled (ini r) = true -> _annualSaving (ann r) = 0 -> c = 0).
Proof.
  intros Hk. unfold write_contribution. rewrite map_lookup, Hk. cbn.
  destruct (enabled (ini r)).
  - eexists. split; [reflexivity|]. intros _ ->.
    unfold contribution_pct. destruct (Qltb 0 _); [|reflexivity].
    rewrite (round_nd_0 1); [reflexivity|]. unfold Qdiv. ring.
  - eexists. split; [reflexivity|]. discriminate.
Qed.

Lemma write_contribution_ini (s : list InitRec) (k : nat) :
  ini <$> write_contribution s !! k = ini <$> s !! k.
Proof.
  unfold write_contribution. rewrite map_lookup.
  destruct (s !! k) as [r|]; [|reflexivity]. cbn. now destruct (enabled _).
Qed.

Lemma write_contribution_length (s : list InitRec) :
  length (write_contribution s) = length s.
Proof. unfold write_contribution. apply length_map. Qed.

(** Writing the percentages twice is writing them once. *)
Lemma write_contribution_idem (s : list InitRec) :
  write_contribution (write_contribution s) = write_contribution s.
Proof.
  unfold write_contribution at 1.
  set (s1 := write_contribution s).
  assert (Hf : forall l,
            map (fun r => _annualSaving (ann r))
              (List.filter (fun r => enabled (ini r)
                                     && Qltb 0 (_annualSaving (ann r)))
                 (map (fun r => if enabled (ini r)
                                then set_contribution
                                       (contribution_pct
                                          (Qsum (fun r => _annualSaving (ann r))
                                             (List.filter
                                                (fun r => enabled (ini r)
                                                   && Qltb 0 (_annualSaving (ann r)))
                                                s))
                                          (_annualSaving (ann r))) r
                                else set_contribution 0 r) l))
            = map (fun r => _annualSaving (ann r))
                (List.filter (fun r => enabled (ini r)
                                       && Qltb 0 (_annualSaving (ann r))) l)).
  { induction l as [|r l IH]; [reflexivity|]. cbn [map List.filter].
    destruct (enabled (ini r)) eqn:E; cbn [set_contribution ini ann _annualSaving];
      rewrite E; cbn [andb]; [|exact IH].
    destruct (Qltb 0 (_annualSaving (ann r))); cbn [map]; now rewrite IH. }
  assert (Hs : forall l : list InitRec,
            Qsum (fun r => _annualSaving (ann r)) l
            = fold_right Qplus 0 (map (fun r => _annualSaving (ann r)) l)).
  { induction l as [|r l IH]; [reflexivity|]. cbn. now rewrite <- IH. }
  rewrite Hs. unfold s1 at 1 2. unfold write_contribution at 1.
  rewrite Hf, <- Hs.
  unfold s1, write_contribution. rewrite map_map. apply map_ext.
  intros r. destruct (enabled (ini r)) eqn:E;
    cbn [set_contribution ini ann _annualSaving]; rewrite E; reflexivity.
Qed.

Section SubRunsLeaveBase.
Variable ramp_value : Z -> Z -> Q.

Abbreviation process' := (process_initiative ramp_value).
Abbreviation casc' := (cascade ramp_value).

(** Running the cascade again over initiatives that hold the results of
    this very cascade, with contribution percentages written since,
    changes none of them. *)
Lemma cascade_rerun (env : Env) (order : list nat) :
  NoDup order ->
  forall led s sb,
  (forall k, k ∈ order -> k < length s)%nat ->
  (forall k r, k ∈ order -> (casc' env led s order).2 !! k = Some r ->
     exists c, sb !! k = Some (set_contribution c r) /\
       (tot_aff_zero env (ini r) = true -> c = 0)) ->
  casc' env led sb order = ((casc' env led s order).1, sb).
Proof.
  induction 1 as [|k order Hk Hnd IH]; intros led s sb Hlen Hsb.
  - reflexivity.
  - destruct (lookup_lt_is_Some_2 s k) as [r Hr];
      [apply Hlen; now left|].
    rewrite !cascade_cons. rewrite cascade_cons in Hsb.
    unfold cascade_step in *. cbn [fst snd] in *. rewrite Hr in *.
    destruct (process' env led (ini r) (ann r)) as [led1 a1] eqn:Ep.
    cbn [fst snd] in *.
    set (r1 := {| ini := ini r; ann := a1 |}) in *.
    destruct (Hsb k r1) as (c & Hc & Hzero); [now left| |].
    { rewrite cascade_lookup_other by assumption.
      apply list_lookup_insert_eq. now apply lookup_lt_Some in Hr. }
    rewrite Hc.
    pose proof (process_again ramp_value env led r c) as Hagain.
    rewrite Ep in Hagain. cbn [snd] in Hagain. fold r1 in Hagain.
    specialize (Hagain Hzero).
    pose proof (process_ledgers_independent ramp_value env led (ini r1)
                  (ann (set_contribution c r1)) (ann r)) as Hled.
    change (ini (set_contribution c r1)) with (ini r1).
    destruct (process' env led (ini r1) (ann (set_contribution c r1)))
      as [led2 a2].
    cbn [fst snd] in *. change (ini r1) with (ini r) in Hled.
    rewrite Ep in Hled. cbn [fst] in Hled. subst led2 a2.
    replace {| ini := ini r1; ann := ann (set_contribution c r1) |}
      with (set_contribution c r1) by reflexivity.
    rewrite (list_insert_id _ _ _ Hc).
    apply IH.
    + intros j Hj. rewrite length_insert. apply Hlen. now right.
    + intros j rj Hj Hrj. apply Hsb; [now right|assumption].
Qed.

Lemma process_same (d d' : Data) (led : Ledgers) (i : Initiative)
    (a : Annotations) :
  same_cascade_inputs d d' ->
  process' (make_env d') led i a = process' (make_env d) led i a.
Proof.
  destruct d as [p rs qs t], d' as [p' rs' qs' t'].
  destruct p, p'. unfold same_cascade_inputs. cbn.
  intros (-> & -> & -> & -> & -> & -> & -> & ->). reflexivity.
Qed.

Lemma initial_ledgers_same (d d' : Data) :
  same_cascade_inputs d d' -> initial_ledgers d' = initial_ledgers d.
Proof.
  destruct d as [p rs qs t], d' as [p' rs' qs' t'].
  destruct p, p'. unfold same_cascade_inputs. cbn.
  intros (-> & -> & -> & -> & -> & -> & -> & ->). reflexivity.
Qed.

Lemma run_cascade_same (d d' : Data) (s : list InitRec) :
  same_cascade_inputs d d' -> run_cascade ramp_value d' s = run_cascade ramp_value d s.
Proof.
  intros H. unfold run_cascade. rewrite (initial_ledgers_same _ _ H).
  generalize (initial_ledgers d). generalize (sorted_inits s) as order.
  intros order. revert s.
  induction order as [|k order IH]; intros s led; [reflexivity|].
  rewrite !cascade_cons. unfold cascade_step. cbn [fst snd].
  destruct (s !! k) as [r|]; [|apply IH].
  rewrite (process_same _ _ _ _ _ H).
  destruct (process' (make_env d) led (ini r) (ann r)). apply IH.
Qed.

(** The initiatives of a finished base run are a fixed point of the
    cascade, on the base data and on any data the cascade cannot tell
    from it. *)
Lemma rerun_on_base (d d' : Data) (s0 : list InitRec) :
  same_cascade_inputs d d' ->
  let sb := write_contribution (run_cascade ramp_value d s0).2 in
  (run_cascade ramp_value d' sb).2 = sb.
Proof.
  intros Hsame sb. rewrite (run_cascade_same _ _ _ Hsame).
  unfold run_cascade.
  assert (Hord : sorted_inits sb = sorted_inits s0).
  { apply sorted_inits_ext.
    - unfold sb. rewrite write_contribution_length. apply cascade_length.
    - intros k. unfold sb. rewrite write_contribution_ini. apply cascade_ini. }
  rewrite Hord.
  rewrite (cascade_rerun (make_env d) (sorted_inits s0)
             (sorted_inits_NoDup s0) (initial_ledgers d) s0 sb); [reflexivity| |].
  - intros k Hk. destruct (sorted_inits_spec s0 k Hk) as (r & Hr & _).
    now apply lookup_lt_Some in Hr.
  - intros k r Hk Hr.
    destruct (write_contribution_lookup _ k r Hr) as (c & Hc & Hz).
    exists c. split; [exact Hc|]. intros Hzero. apply Hz.
    + destruct (sorted_inits_spec s0 k Hk) as (r0 & Hr0 & Hen).
      pose proof (cascade_ini ramp_value (make_env d) (sorted_inits s0) k
                    (initial_ledgers d) s0) as Hini.
      rewrite Hr, Hr0 in Hini. cbn in Hini. congruence.
    + destruct (cascade_output ramp_value _ _ k Hk _ _ _ Hr) as (led' & a & ->).
      now apply process_no_roles_no_saving.
Qed.

End SubRunsLeaveBase.

Lemma perturbed_same (d : Data) (pk : string) (v : Q) :
  String.eqb pk "shrinkage" = false ->
  String.eqb pk "targetShrinkage" = false ->
  String.eqb pk "grossHoursPerYear" = false ->
  String.eqb pk "volumeAnnualizationFactor" = false ->
  String.eqb pk "locationArbitrage" = false ->
  same_cascade_inputs d (perturbed d pk v).
Proof.
  intros H1 H2 H3 H4 H5. unfold same_cascade_inputs, perturbed, set_param. cbn.
  rewrite H1, H2, H3, H4, H5. repeat split.
Qed.

Section SubRunsTheorem.
Variable ramp_value : Z -> Z -> Q.

Lemma run_on_base_effect (d d' : Data) (inits s' : list InitRec) (raised : bool) :
  same_cascade_inputs d d' ->
  run_waterfall_effect ramp_value d' (w_inits (base_world ramp_value d inits))
                       s' raised ->
  s' = w_inits (base_world ramp_value d inits).
Proof.
  intros Hsame Hrun. cbn [base_world w_inits] in *.
  inversion Hrun; subst; rewrite (rerun_on_base ramp_value d d' inits Hsame);
    [reflexivity| |]; apply write_contribution_idem.
Qed.

Lemma sensitivity_variable_keeps_base (d : Data) (inits : list InitRec)
    (pk : string) (sf : Q) (w' : World) :
  In (pk, sf) sensitivity_variables ->
  sensitivity_variable_effect ramp_value pk sf (base_world ramp_value d inits) w' ->
  w' = base_world ramp_value d inits.
Proof.
  intros Hin Heff.
  inversion Heff as [li Hpk Hl | li hi raised Hpk Hl Hh
                    | s1 Hpk Hl | s1 s2 raised Hpk Hl Hh]; subst;
    try reflexivity.
  - assert (Hsame : forall v, same_cascade_inputs d (perturbed d pk v)).
    { intros v. unfold sensitivity_variables in Hin. cbn in Hin.
      destruct Hin as [E|[E|[E|[E|[E|[E|[]]]]]]]; injection E as <- <-;
        first [now contradiction Hpk | now apply perturbed_same]. }
    cbn [w_data base_world] in Hl.
    apply (run_on_base_effect d _ inits _ _ (Hsame _)) in Hl. now subst.
  - assert (Hsame : forall v, same_cascade_inputs d (perturbed d pk v)).
    { intros v. unfold sensitivity_variables in Hin. cbn in Hin.
      destruct Hin as [E|[E|[E|[E|[E|[E|[]]]]]]]; injection E as <- <-;
        first [now contradiction Hpk | now apply perturbed_same]. }
    cbn [w_data base_world] in Hl, Hh.
    apply (run_on_base_effect d _ inits _ _ (Hsame _)) in Hl. subst s1.
    apply (run_on_base_effect d _ inits _ _ (Hsame _)) in Hh. now subst.
Qed.

Lemma sensitivity_loop_keeps_base (d : Data) (inits : list InitRec)
    (vs : list (string * Q)) (w w' : World) :
  (forall v, In v vs -> In v sensitivity_variables) ->
  w = base_world ramp_value d inits ->
  sensitivity_loop ramp_value vs w w' ->
  w' = base_world ramp_value d inits.
Proof.
  intros Hvs Hw Hloop. induction Hloop as [w|pk sf vs w w1 w2 Hvar Hrest IH].
  - exact Hw.
  - apply IH.
    + intros v Hv. apply Hvs. now right.
    + subst w. eapply sensitivity_variable_keeps_base; [|exact Hvar].
      apply Hvs. now left.
Qed.

(** C4: when the scenario and sensitivity sub-runs of a base run are
    over, the base run holds the inputs it was given and, on every
    initiative, the values its own cascade and contribution loop wrote.
    (Four of the sensitivity variables run on the base run's own
    initiative records; they write again the values already there.) *)
Theorem sub_runs_leave_the_base_run
    (d : Data) (inits : list InitRec) (w1 w2 : World) :
  _compute_scenarios_effect ramp_value (base_world ramp_value d inits) w1 ->
  _run_sensitivity_effect ramp_value w1 w2 ->
  w1 = base_world ramp_value d inits /\ w2 = base_world ramp_value d inits.
Proof.
  intros Hscen Hsens.
  assert (H1 : w1 = base_world ramp_value d inits).
  { inversion Hscen as [wa wb Ha Hb]; subst.
    inversion Ha; subst. inversion Hb; subst. reflexivity. }
  split; [exact H1|]. subst w1.
  inversion Hsens as [|w' Hloop]; subst; [reflexivity|].
  eapply sensitivity_loop_keeps_base; [|reflexivity|exact Hloop]. auto.
Qed.

End SubRunsTheorem.

(** The sub-runs of the sample run: both scenarios and the six
    sensitivity variables, every run returning normally. *)
Lemma sub_runs_leave_the_base_run_witness :
  let base := base_world ex_ramp ex_data ex_inits in
  exists w2,
    _compute_scenarios_effect ex_ramp base base /\
    _run_sensitivity_effect ex_ramp base w2 /\
    base = base /\ w2 = base.
Proof.
  intros base.
  assert (H1 : _compute_scenarios_effect ex_ramp base base).
  { eapply scenarios_ran; eapply scenario_ran; apply rw_returns. }
  assert (H2 : { w2 | _run_sensitivity_effect ex_ramp base w2 }).
  { eexists. apply sensitivity_ran. unfold sensitivity_variables.
    repeat (eapply sens_next;
            [first [ eapply sens_param_both;
                     [discriminate|apply rw_returns|apply rw_returns]
                   | eapply sens_adoption_both;
                     [reflexivity|apply rw_returns|apply rw_returns] ]|]).
    apply sens_done. }
  destruct H2 as [w2 H2]. exists w2.
  split; [exact H1|]. split; [exact H2|].
  exact (sub_runs_leave_the_base_run ex_ramp ex_data ex_inits base w2 H1 H2).
Defined.

(* ===================================================================== *)
(** * Further properties of the engines *)
(* ===================================================================== *)

(** ** More of engines/intent_profile.py *)

Lemma on_grid_1 n : on_grid n 1.
Proof.
  exists (10 ^ Z.of_nat n)%Z. fold (pow10 n).
  pose proof (pow10_pos n). field. lra.
Qed.

(** Rounding keeps a fraction a fraction. *)
Lemma round_nd_unit n x : 0 <= x <= 1 -> 0 <= round_nd n x <= 1.
Proof.
  intros [H0 H1]. split; [now apply round_nd_nonneg|].
  rewrite <- (round_nd_fixed n 1) by apply on_grid_1.
  now apply round_nd_mono.
Qed.

Lemma repeatability_range c : 0 <= _repeatability_from_complexity c <= 85 # 100.
Proof.
  unfold _repeatability_from_complexity.
  repeat match goal with |- context [if ?b then _ else _] => destruct b end; lra.
Qed.

Lemma emotional_risk_range c n :
  0 <= _emotional_risk_from_complexity c n <= 1.
Proof.
  unfold _emotional_risk_from_complexity.
  repeat match goal with |- context [if ?b then _ else _] => destruct b end; lra.
Qed.

Lemma containment_feasibility_range r e a c :
  0 <= _containment_feasibility r e a c <= 1.
Proof.
  unfold _containment_feasibility. apply round_nd_unit. split.
  - apply Q.min_glb; [lra|apply Q.le_max_l].
  - apply Q.le_min_l.
Qed.

(** The scores that enrichment adds to a queue. *)
Lemma enriched_scores_of (q : Queue) (e : Enrichment) :
  enr (enrich_queue q) = Some e ->
  0 <= repeatability e <= 1 /\
  0 <= emotional_risk e <= 1 /\
  0 <= auth_required e <= 1 /\
  0 <= containment_feasibility e <= 1 /\
  0 <= deflection_eligible_pct e <= 1.
Proof.
  intros E. unfold enrich_queue in E. cbn [enr] in E. injection E as <-.
  cbn [repeatability emotional_risk auth_required containment_feasibility
       deflection_eligible_pct].
  pose proof (repeatability_range (default 0.40 (complexity q))) as Hr.
  pose proof (emotional_risk_range (default 0.40 (complexity q)) (intent q)) as He.
  pose proof (auth_required_range (default 0.40 (complexity q)) (intent q)) as Ha.
  set (rep0 := _repeatability_from_complexity _) in *.
  set (rep := if Qltb _ _ then _ else rep0).
  assert (Hrep : 0 <= rep <= 1).
  { unfold rep. destruct (Qltb _ _); [|lra].
    split; [apply Q.min_glb; lra|apply Q.le_min_l]. }
  split; [apply round_nd_unit; lra|].
  split; [apply round_nd_unit; lra|].
  split; [apply round_nd_unit; lra|].
  split; [apply containment_feasibility_range|].
  apply round_nd_unit.
  set (a := _auth_required_from_complexity _ _) in *.
  split; [apply Qmult_le_0_compat; lra|].
  assert (H1 : rep * (1 - a * 0.30) <= 1 * 1).
  { apply Qmult_le_compat_nonneg; lra. }
  lra.
Qed.

(** X1.  Whatever the queue holds (any complexity, any rates, any intent
    name), the five scores that [enrich_intents] adds for the deflection
    lever are fractions: repeatability, emotional risk, authentication
    requirement, containment feasibility and the eligible share all lie
    between 0 and 1. *)
Theorem enrich_queue_scores_are_fractions (q : Queue) :
  exists e, enr (enrich_queue q) = Some e /\
    0 <= repeatability e <= 1 /\
    0 <= emotional_risk e <= 1 /\
    0 <= auth_required e <= 1 /\
    0 <= containment_feasibility e <= 1 /\
    0 <= deflection_eligible_pct e <= 1.
Proof.
  eexists. split; [reflexivity|]. now apply (enriched_scores_of q).
Qed.

Lemma ivr_branch (c e a : Q) :
  _migration_readiness "IVR" c e a = 0.20 * (1 - c).
Proof. reflexivity. Qed.

(** X2.  The migration readiness of an intent whose complexity lies in
    [0, 1] is a fraction; it is 0 on the channels that are digital
    already and at most 0.2 on IVR. *)
Theorem migration_readiness_is_fraction (ch : string) (c e a : Q) :
  0 <= c <= 1 ->
  0 <= _migration_readiness ch c e a <= 1 /\
  (str_in ch ["Chat"; "Email"; "App/Self-Service"; "SMS/WhatsApp";
              "Social Media"]%string = true ->
   _migration_readiness ch c e a = 0) /\
  (ch = "IVR"%string -> _migration_readiness ch c e a <= 2 # 10).
Proof.
  intros [Hc0 Hc1]. split; [|split].
  - unfold _migration_readiness. destruct (str_in ch _); [lra|].
    destruct (String.eqb ch "IVR"); [lra|].
    apply round_nd_unit. split; [apply Q.le_max_l|].
    apply Q.max_lub; [lra|apply Q.le_min_l].
  - unfold _migration_readiness. now intros ->.
  - intros ->. rewrite ivr_branch. lra.
Qed.

Lemma migration_readiness_is_fraction_witness :
  0 <= 0.20 <= 1 /\
  (0 <= _migration_readiness "Voice" 0.20 0.10 0.20 <= 1 /\
   (str_in "Voice" ["Chat"; "Email"; "App/Self-Service"; "SMS/WhatsApp";
                    "Social Media"]%string = true ->
    _migration_readiness "Voice" 0.20 0.10 0.20 = 0) /\
   ("Voice"%string = "IVR"%string ->
    _migration_readiness "Voice" 0.20 0.10 0.20 <= 2 # 10)).
Proof.
  assert (H : 0 <= 0.20 <= 1) by lra.
  split; [exact H|]. exact (migration_readiness_is_fraction "Voice" 0.20 0.10 0.20 H).
Defined.

Lemma pow10_1 : pow10 1 == 10.
Proof. reflexivity. Qed.

Lemma round_1_near x : x - (1 # 20) <= round_nd 1 x <= x + (1 # 20).
Proof.
  pose proof (round_nd_near 1 x) as H.
  assert (E : (1 # 2) / pow10 1 == 1 # 20) by reflexivity.
  rewrite E in H. exact H.
Qed.

(** X3.  The part of the handle time that [_decompose_aht] reports as
    reducible never exceeds the total handle time (talk, hold, search,
    other and wrap), and it is not negative. *)
Theorem reducible_time_within_handle_time (aht_minutes acw_minutes c : Q) :
  0 <= aht_minutes -> 0 <= acw_minutes ->
  let d := _decompose_aht aht_minutes acw_minutes c in
  0 <= reducible_sec d <= total_handle_sec d.
Proof.
  intros Ha Hw d. subst d. unfold _decompose_aht.
  repeat match goal with |- context [if ?b then _ else _] => destruct b end;
    cbn [reducible_sec total_handle_sec];
    (split; [apply round_nd_nonneg; nonneg|apply round_nd_mono; lra]).
Qed.

Lemma reducible_time_within_handle_time_witness :
  0 <= reducible_sec (_decompose_aht 5 1 0.20)
  <= total_handle_sec (_decompose_aht 5 1 0.20).
Proof.
  apply (reducible_time_within_handle_time 5 1 0.20); lra.
Defined.

(** X4.  The four components into which [_decompose_aht] splits the
    handle time (talk, hold, search, other) add up to the handle time in
    seconds, up to the rounding of each component to a tenth of a second:
    the shares of every complexity tier sum to one. *)
Theorem decompose_aht_conserves_handle_time (aht_minutes acw_minutes c : Q) :
  let d := _decompose_aht aht_minutes acw_minutes c in
  Qabs (talk_sec d + hold_sec d + search_sec d + other_sec d
        - aht_minutes * 60) <= 2 # 10.
Proof.
  intros d. subst d. unfold _decompose_aht.
  repeat match goal with |- context [if ?b then _ else _] => destruct b end;
    cbn [talk_sec hold_sec search_sec other_sec];
    match goal with
    | |- context [round_nd 1 (?s * Qmax 0 ?o)] =>
        assert (Eo : Qmax 0 o == o) by (apply Q.max_r; lra);
        assert (Er : round_nd 1 (s * Qmax 0 o) = round_nd 1 (s * o))
          by (apply round_nd_comp; now rewrite Eo);
        rewrite Er; clear Er Eo
    end;
    repeat match goal with
    | |- context [round_nd 1 ?x] =>
        let H := fresh "H" in
        pose proof (round_1_near x) as H;
        let r := fresh "r" in
        set (r := round_nd 1 x) in *; clearbody r
    end;
    apply Qabs_Qle_condition; split; lra.
Qed.

(** X5.  [_transfer_classification] splits the transfer rate into a
    preventable and a structural part: both lie between 0 and the total
    rate, and they add up to the total rate up to the rounding of the three
    rates to four decimals (0.00015).  For a positive rate the preventable
    share lies between 10.5% and 75%; a rate that is zero or negative gives
    zeros. *)
Theorem transfer_classification_partitions (t e c : Q) :
  let cls := _transfer_classification t e c in
  Qabs (preventable_rate cls + structural_rate cls - total_rate cls)
    <= 15 # 100000 /\
  0 <= preventable_rate cls <= total_rate cls /\
  0 <= structural_rate cls <= total_rate cls /\
  (0 < t -> 105 # 1000 <= preventable_share cls <= 75 # 100) /\
  (t <= 0 -> cls = {| total_rate := 0; preventable_rate := 0;
                      structural_rate := 0; preventable_share := 0 |}).
Proof.
  intros cls. subst cls. unfold _transfer_classification.
  destruct (Qleb t 0) eqn:Et.
  { cbn [total_rate preventable_rate structural_rate preventable_share].
    apply Qleb_true in Et.
    split; [apply Qabs_Qle_condition; split; lra|].
    split; [lra|]. split; [lra|]. split; [intros; lra|reflexivity]. }
  apply Qleb_false in Et.
  set (ps0 := if Qleb c 0.30 then _ else _).
  set (ps := if Qltb 0.15 e then _ else _).
  assert (Hps : 105 # 1000 <= ps <= 75 # 100).
  { unfold ps, ps0.
    repeat match goal with |- context [if ?b then _ else _] => destruct b end; lra. }
  cbn [total_rate preventable_rate structural_rate preventable_share].
  assert (E4 : (1 # 2) / pow10 4 == 5 # 100000) by reflexivity.
  pose proof (round_nd_near 4 t) as N1.
  pose proof (round_nd_near 4 (t * ps)) as N2.
  pose proof (round_nd_near 4 (t * (1 - ps))) as N3.
  rewrite E4 in N1, N2, N3.
  assert (M1 : 0 <= t * ps) by (apply Qmult_le_0_compat; lra).
  assert (M2 : 0 <= t * (1 - ps)) by (apply Qmult_le_0_compat; lra).
  assert (M3 : t * ps <= t) by nra.
  assert (M4 : t * (1 - ps) <= t) by nra.
  pose proof (round_nd_nonneg 4 _ M1) as P1.
  pose proof (round_nd_nonneg 4 _ M2) as P2.
  pose proof (round_nd_mono 4 _ _ M3) as P3.
  pose proof (round_nd_mono 4 _ _ M4) as P4.
  split; [|split; [|split; [|split]]].
  - set (r1 := round_nd 4 t) in *. set (r2 := round_nd 4 (t * ps)) in *.
    set (r3 := round_nd 4 (t * (1 - ps))) in *. clearbody r1 r2 r3.
    apply Qabs_Qle_condition. split; lra.
  - split; assumption.
  - split; assumption.
  - intros _.
    assert (G : on_grid 3 ps).
    { unfold ps, ps0.
      repeat match goal with |- context [if ?b then _ else _] => destruct b end;
        match goal with |- on_grid 3 ?v =>
          exists (Qfloor (v * 1000)); reflexivity end. }
    rewrite (round_nd_fixed 3 ps G). exact Hps.
  - intros H. lra.
Qed.

Lemma esum_enriched (f : Queue -> Enrichment -> Q) (d : Q) (qs : list EQueue) :
  Forall (fun q => enr q <> None) qs ->
  exists s, esum f qs = Some s /\
    s == Qsum (fun q => match enr q with Some e => f (raw q) e | None => d end) qs.
Proof.
  induction 1 as [|q qs Hq _ [s [Es Hs]]]; cbn [esum Qsum fold_right].
  - exists 0. split; [reflexivity|]. reflexivity.
  - destruct (enr q) as [e|]; [|contradiction]. rewrite Es. cbn.
    eexists. split; [reflexivity|]. now rewrite Hs.
Qed.

Lemma enrich_intents_enriched (qs : list Queue) :
  Forall (fun q => enr q <> None) (enrich_intents qs).
Proof. induction qs; cbn; constructor; [discriminate|assumption]. Qed.

Lemma Qsum_scaled_le {A} (f v : A -> Q) (l : list A) :
  Forall (fun x => 0 <= f x <= v x) l -> 0 <= Qsum f l <= Qsum v l.
Proof.
  intros H. split.
  - apply Qsum_nonneg. eapply Forall_impl; [exact H|]. now intros x [? ?].
  - apply Qsum_le. eapply Forall_impl; [exact H|]. now intros x [? ?].
Qed.

Lemma fraction_of_total (s t : Q) : 0 <= s <= t -> 0 < t -> 0 <= s / t <= 1.
Proof.
  intros [H0 H1] Ht. split; [now apply Qdiv_nonneg|].
  apply Qle_shift_div_r; [exact Ht|lra].
Qed.

Lemma py_round_nonneg x : 0 <= x -> (0 <= py_round x)%Z.
Proof.
  intros H. rewrite <- (py_round_inject_Z 0). now apply py_round_mono.
Qed.

(** X6.  On the output of [enrich_intents], for queues with non-negative
    volumes, [compute_intent_summary] returns (no key is missing, nothing
    is divided by zero), the deflectable share, the average containment
    and the average emotional risk are fractions, and the deflectable
    volume is at most the total volume. *)
Theorem intent_summary_of_enriched_queues (qs : list Queue) :
  Forall (fun q => 0 <= volume q) qs ->
  exists s, compute_intent_summary (enrich_intents qs) = Some s /\
    0 <= deflectablePct s <= 1 /\
    0 <= avgContainment s <= 1 /\
    0 <= avgEmotionalRisk s <= 1 /\
    (0 <= deflectableVolume s <= totalVolume s)%Z.
Proof.
  intros Hv. unfold compute_intent_summary.
  set (tot := Qsum _ _).
  assert (Htot : 0 <= tot).
  { unfold tot, enrich_intents. apply Qsum_nonneg.
    apply (Forall_map_intro (fun q => 0 <= volume q)); [|exact Hv].
    intros q Hq. exact Hq. }
  destruct (Qeq_bool tot 0) eqn:E0.
  { eexists. split; [reflexivity|]. cbn. repeat split; lra || lia. }
  apply Qeq_bool_false_neq in E0.
  assert (Hpos : 0 < tot) by lra.
  pose proof (enrich_intents_enriched qs) as He.
  assert (Hfr : forall f : Queue -> Enrichment -> Q,
            (forall q, 0 <= volume q ->
               forall e, enr (enrich_queue q) = Some e ->
               0 <= f q e <= volume q) ->
            exists s, esum f (enrich_intents qs) = Some s /\ 0 <= s <= tot).
  { intros f Hf.
    destruct (esum_enriched f 0 _ He) as [s [Es Hs]].
    exists s. split; [exact Es|]. rewrite Hs. unfold tot.
    apply Qsum_scaled_le. unfold enrich_intents.
    apply (Forall_map_intro (fun q => 0 <= volume q)); [|exact Hv].
    intros q Hq. specialize (Hf q Hq).
    destruct (enr (enrich_queue q)) as [e|] eqn:Ee.
    - exact (Hf e eq_refl).
    - cbn. split; [lra|exact Hq]. }
  assert (Hsc : forall q e, enr (enrich_queue q) = Some e ->
            0 <= deflection_eligible_pct e <= 1 /\
            0 <= containment_feasibility e <= 1 /\
            0 <= emotional_risk e <= 1).
  { intros q e Ee. pose proof (enriched_scores_of q e Ee) as H. tauto. }
  destruct (Hfr (fun q e => volume q * deflection_eligible_pct e)) as [dv [-> Hdv]].
  { intros q Hq e Ee. destruct (Hsc q e Ee) as [[? ?] _].
    split; [apply Qmult_le_0_compat; lra|].
    assert (volume q * deflection_eligible_pct e <= volume q * 1) by
      (apply Qmult_le_compat_nonneg; lra). lra. }
  destruct (esum_enriched (fun q e => volume q * migration_readiness e) 0 _ He)
    as [mv [-> _]].
  destruct (Hfr (fun q e => containment_feasibility e * volume q)) as [cs [-> Hcs]].
  { intros q Hq e Ee. destruct (Hsc q e Ee) as [_ [[? ?] _]].
    split; [apply Qmult_le_0_compat; lra|].
    assert (containment_feasibility e * volume q <= 1 * volume q) by
      (apply Qmult_le_compat_nonneg; lra). lra. }
  destruct (Hfr (fun q e => emotional_risk e * volume q)) as [es [-> Hes]].
  { intros q Hq e Ee. destruct (Hsc q e Ee) as [_ [_ [? ?]]].
    split; [apply Qmult_le_0_compat; lra|].
    assert (emotional_risk e * volume q <= 1 * volume q) by
      (apply Qmult_le_compat_nonneg; lra). lra. }
  cbn [mbind option_bind]. eexists. split; [reflexivity|].
  cbn [deflectablePct avgContainment avgEmotionalRisk deflectableVolume totalVolume].
  split; [apply round_nd_unit; now apply fraction_of_total|].
  split; [apply round_nd_unit; now apply fraction_of_total|].
  split; [apply round_nd_unit; now apply fraction_of_total|].
  split; [apply py_round_nonneg; lra|apply py_round_mono; lra].
Qed.

Lemma intent_summary_of_enriched_queues_witness :
  exists s, compute_intent_summary (enrich_intents [ex_queue]) = Some s /\
    0 <= deflectablePct s <= 1 /\
    0 <= avgContainment s <= 1 /\
    0 <= avgEmotionalRisk s <= 1 /\
    (0 <= deflectableVolume s <= totalVolume s)%Z.
Proof.
  apply (intent_summary_of_enriched_queues [ex_queue]).
  constructor; [cbn [ex_queue volume]; lra|constructor].
Defined.

(** ** More of engines/pools.py *)

(** The keys of the pools that [compute_pools] builds. *)
Lemma compute_pools_keys (qs : list EQueue) (rs : list Role) (p : Params) (k : string) :
  is_Some (pools_of (compute_pools qs rs p) !! k) <->
  In k ["deflection"; "aht_reduction"; "transfer_reduction";
        "escalation_reduction"; "repeat_reduction"; "location";
        "shrinkage_reduction"]%string.
Proof.
  unfold compute_pools. cbn [pools_of]. cbn [In].
  repeat (rewrite lookup_insert; case_decide;
          [split; [intros _; tauto|intros _; eexists; reflexivity]|]).
  rewrite lookup_empty. split.
  - intros [x Hx]. discriminate.
  - intros Hin. repeat (destruct Hin as [Hin|Hin]; [congruence|]). contradiction.
Qed.

(** X7.  Each of the seven levers of [LEVER_ORDER] finds its pool among
    the pools that [compute_pools] builds, whatever the queues, the roles
    and the parameters: [consume_pool] never takes the unknown-lever exit
    for them and logs nothing. *)
Theorem levers_of_the_order_find_their_pool (qs : list EQueue) (rs : list Role)
    (p : Params) (amount_fte : Q) (amount_contacts amount_seconds : Z) :
  Forall (fun lever =>
            let r := consume_pool (pools_of (compute_pools qs rs p)) lever
                                  amount_fte amount_contacts amount_seconds in
            unknown_lever r.1.1 = false /\ r.2 = [])
         LEVER_ORDER.
Proof.
  assert (H : forall lever, In (pool_key lever)
                ["deflection"; "aht_reduction"; "transfer_reduction";
                 "escalation_reduction"; "repeat_reduction"; "location";
                 "shrinkage_reduction"]%string ->
            let r := consume_pool (pools_of (compute_pools qs rs p)) lever
                                  amount_fte amount_contacts amount_seconds in
            unknown_lever r.1.1 = false /\ r.2 = []).
  { intros lever Hin.
    apply (proj2 (compute_pools_keys qs rs p _)) in Hin as [pool Hpool].
    unfold consume_pool. fold (pool_key lever). rewrite Hpool.
    destruct (Qleb (remaining_fte pool) 0); cbn; split; reflexivity. }
  unfold LEVER_ORDER.
  repeat (constructor; [apply H; vm_compute; tauto|]). constructor.
Qed.

Lemma Qltb_lt x y : x < y -> Qltb x y = true.
Proof.
  intros H. destruct (Qltb x y) eqn:E; [reflexivity|].
  apply Qltb_false in E. lra.
Qed.

Lemma Qltb_ge x y : y <= x -> Qltb x y = false.
Proof.
  intros H. destruct (Qltb x y) eqn:E; [|reflexivity].
  apply Qltb_true in E. lra.
Qed.

Lemma Qleb_le x y : x <= y -> Qleb x y = true.
Proof. apply Qle_bool_iff. Qed.

Lemma Qleb_gt x y : y < x -> Qleb x y = false.
Proof.
  intros H. destruct (Qleb x y) eqn:E; [|reflexivity].
  apply Qleb_true in E. lra.
Qed.

(** X8.  One call of [consume_pool] on a pool that satisfies its
    invariant, for a request that is not negative and has one decimal:
    the call grants the smaller of the request and the remaining capacity,
    the pool loses exactly that, its ceiling stays, and every other pool is
    left as it was. *)
Theorem consume_pool_grants_the_minimum (pools : gmap string Pool)
    (lever : string) (pool : Pool) (amount_fte : Q) (c s : Z) :
  pools !! pool_key lever = Some pool ->
  pool_ok pool -> 0 <= amount_fte -> on_grid 1 amount_fte ->
  let r := consume_pool pools lever amount_fte c s in
  consumed_fte r.1.1 == Qmin amount_fte (remaining_fte pool) /\
  (exists pool', r.1.2 !! pool_key lever = Some pool' /\
     remaining_fte pool' == remaining_fte pool - consumed_fte r.1.1 /\
     ceiling_fte pool' = ceiling_fte pool) /\
  (forall k, k <> pool_key lever -> r.1.2 !! k = pools !! k).
Proof.
  intros Hpool (Hg & Hlo & Hhi) Hamt Hgrid r. subst r.
  unfold consume_pool. fold (pool_key lever). rewrite Hpool.
  destruct (Qleb (remaining_fte pool) 0) eqn:Hrem.
  { apply Qleb_true in Hrem. cbn [fst snd consumed_fte].
    assert (E : Qmin amount_fte (remaining_fte pool) == remaining_fte pool)
      by (apply Q.min_r; lra).
    split; [rewrite E; lra|]. split; [|reflexivity].
    exists pool. split; [exact Hpool|]. split; [lra|reflexivity]. }
  apply Qleb_false in Hrem. cbn [fst snd consumed_fte].
  set (actual := Qmin amount_fte (remaining_fte pool)).
  assert (Hact : 0 <= actual <= remaining_fte pool).
  { unfold actual. apply Qmin_le_l_nonneg; lra. }
  assert (Hactg : on_grid 1 actual) by (unfold actual; now apply on_grid_min).
  assert (Hnew : round_nd 1 (remaining_fte pool - actual)
                 == remaining_fte pool - actual).
  { apply round_nd_fixed. now apply on_grid_minus. }
  assert (Hcons : round_nd 1 actual == actual) by now apply round_nd_fixed.
  split; [exact Hcons|]. split.
  - eexists. rewrite lookup_insert. case_decide as Hd; [|contradiction].
    split; [reflexivity|]. cbn [remaining_fte ceiling_fte].
    split; [lra|reflexivity].
  - intros k Hk. rewrite lookup_insert. case_decide as Hd; [|reflexivity].
    congruence.
Qed.

Lemma consume_pool_grants_the_minimum_witness :
  let r := consume_pool ex_pools "deflection" 13.2 0 0 in
  exists pool, ex_pools !! pool_key "deflection" = Some pool /\
  consumed_fte r.1.1 == Qmin 13.2 (remaining_fte pool) /\
  (exists pool', r.1.2 !! pool_key "deflection" = Some pool' /\
     remaining_fte pool' == remaining_fte pool - consumed_fte r.1.1 /\
     ceiling_fte pool' = ceiling_fte pool) /\
  (forall k, k <> pool_key "deflection" -> r.1.2 !! k = ex_pools !! k).
Proof.
  intros r.
  assert (Hl : ex_pools !! pool_key "deflection"
               = Some {| ceiling_fte := 232 # 5; remaining_fte := 232 # 5;
                         ceiling_saving := 2851788;
                         ceiling_contacts := Some 810186%Z;
                         remaining_contacts := Some 810186%Z;
                         ceiling_seconds := None; remaining_seconds := None;
                         remaining_saving := None |}) by (vm_compute; reflexivity).
  eexists. split; [exact Hl|].
  apply (consume_pool_grants_the_minimum ex_pools "deflection" _ 13.2 0 0 Hl).
  - split; [exists 464%Z; reflexivity|]. cbn [remaining_fte ceiling_fte]. lra.
  - lra.
  - exists 132%Z. reflexivity.
Defined.

(** X9.  A request of at least 0.001 FTE that fits into the remaining
    capacity of its pool is served in full: the granted FTE is the request
    (rounded to one decimal), the contacts and the seconds asked for are
    granted as they are, and the result is not flagged as capped. *)
Theorem request_within_pool_is_served_in_full (pools : gmap string Pool)
    (lever : string) (pool : Pool) (amount_fte : Q) (c s : Z) :
  pools !! pool_key lever = Some pool ->
  1 # 1000 <= amount_fte <= remaining_fte pool ->
  let res := (consume_pool pools lever amount_fte c s).1.1 in
  consumed_fte res = round_nd 1 amount_fte /\
  consumed_contacts res = c /\ consumed_seconds res = s /\
  capped res = false /\ unknown_lever res = false.
Proof.
  intros Hpool [Hlo Hhi] res. subst res.
  unfold consume_pool. fold (pool_key lever). rewrite Hpool.
  rewrite Qleb_gt by lra. cbn [fst snd].
  cbn [consumed_fte consumed_contacts consumed_seconds capped unknown_lever].
  assert (Emin : Qmin amount_fte (remaining_fte pool) == amount_fte)
    by (apply Q.min_l; lra).
  assert (Emax : Qmax amount_fte 0.001 == amount_fte)
    by (apply Q.max_l; lra).
  assert (Eratio : Qmin amount_fte (remaining_fte pool) / Qmax amount_fte 0.001 == 1).
  { rewrite Emin, Emax. field. lra. }
  split; [now apply round_nd_comp|].
  assert (Hz : forall z : Z,
            (if (z =? 0)%Z then 0%Z
             else py_round (inject_Z z
                            * (Qmin amount_fte (remaining_fte pool)
                               / Qmax amount_fte 0.001))) = z).
  { intros z. destruct (z =? 0)%Z eqn:E; [lia|].
    rewrite <- (py_round_inject_Z z) at 2. apply py_round_comp.
    rewrite Eratio. ring. }
  split; [apply Hz|]. split; [apply Hz|].
  split; [|reflexivity]. apply Qltb_ge. rewrite Eratio. lra.
Qed.

Lemma request_within_pool_is_served_in_full_witness :
  let res := (consume_pool ex_pools "shrinkage_reduction" 0.5 0 0).1.1 in
  consumed_fte res = round_nd 1 0.5 /\
  consumed_contacts res = 0%Z /\ consumed_seconds res = 0%Z /\
  capped res = false /\ unknown_lever res = false.
Proof.
  assert (Hl : ex_pools !! pool_key "shrinkage_reduction"
               = Some {| ceiling_fte := 8 # 5; remaining_fte := 8 # 5;
                         ceiling_saving := 98400;
                         ceiling_contacts := None; remaining_contacts := None;
                         ceiling_seconds := None; remaining_seconds := None;
                         remaining_saving := Some 98400%Z |})
    by (vm_compute; reflexivity).
  apply (request_within_pool_is_served_in_full _ _ _ 0.5 0 0 Hl).
  cbn [remaining_fte]. lra.
Defined.

(** X10.  A request of zero FTE on a pool that still has capacity consumes
    nothing but is reported as capped: the ratio of granted to requested
    is taken against [max(amount_fte, 0.001)] and comes out as 0, below
    the 0.95 threshold. *)
Theorem zero_request_is_reported_capped (pools : gmap string Pool)
    (lever : string) (pool : Pool) (c s : Z) :
  pools !! pool_key lever = Some pool ->
  0 < remaining_fte pool ->
  let res := (consume_pool pools lever 0 c s).1.1 in
  consumed_fte res = 0 /\ capped res = true /\
  unknown_lever res = false /\
  pool_remaining_fte res = Some (round_nd 1 (remaining_fte pool)).
Proof.
  intros Hpool Hrem res. subst res.
  unfold consume_pool. fold (pool_key lever). rewrite Hpool.
  rewrite Qleb_gt by lra. cbn [fst snd].
  cbn [consumed_fte capped unknown_lever pool_remaining_fte].
  assert (Emin : Qmin 0 (remaining_fte pool) == 0) by (apply Q.min_l; lra).
  split; [now apply round_nd_0|].
  split; [|split; [reflexivity|]].
  - apply Qltb_lt. rewrite Emin. reflexivity.
  - f_equal. apply round_nd_comp. rewrite Emin. ring.
Qed.

Lemma zero_request_is_reported_capped_witness :
  let res := (consume_pool ex_pools "shrinkage_reduction" 0 0 0).1.1 in
  consumed_fte res = 0 /\ capped res = true /\
  unknown_lever res = false /\
  pool_remaining_fte res = Some (round_nd 1 (8 # 5)).
Proof.
  assert (Hl : ex_pools !! pool_key "shrinkage_reduction"
               = Some {| ceiling_fte := 8 # 5; remaining_fte := 8 # 5;
                         ceiling_saving := 98400;
                         ceiling_contacts := None; remaining_contacts := None;
                         ceiling_seconds := None; remaining_seconds := None;
                         remaining_saving := Some 98400%Z |})
    by (vm_compute; reflexivity).
  apply (zero_request_is_reported_capped _ _ _ 0 0 Hl).
  cbn [remaining_fte]. lra.
Defined.

(** X11.  Without any queue the six pools that are driven by contact
    volume are empty: deflection, AHT, transfer, escalation, repeat and
    location all have a ceiling of 0 FTE, whatever the roles and the
    parameters, and nothing is divided by zero on the way. *)
Theorem no_queues_no_volume_pools (rs : list Role) (p : Params) :
  Forall (fun k => exists pool,
            pools_of (compute_pools [] rs p) !! k = Some pool /\
            ceiling_fte pool = 0 /\ remaining_fte pool = 0)
         ["deflection"; "aht_reduction"; "transfer_reduction";
          "escalation_reduction"; "repeat_reduction"; "location"]%string.
Proof.
  unfold compute_pools. cbn [pools_of Qsum fold_right].
  repeat (constructor;
          [eexists; split;
           [repeat (rewrite lookup_insert; case_decide as Hd;
                    [try discriminate Hd|try (exfalso; apply Hd; reflexivity)]);
            reflexivity|];
           cbn [ceiling_fte remaining_fte];
           split; apply round_nd_0; unfold Qdiv; ring|]).
  constructor.
Qed.

(** ** More of engines/gross.py *)

Lemma Qsum_ext_eq {A} (f g : A -> Q) (l : list A) :
  Forall (fun x => f x == g x) l -> Qsum f l == Qsum g l.
Proof.
  induction 1 as [|x l Hx _ IH]; simpl; [reflexivity|]. now rewrite Hx, IH.
Qed.

Lemma Qdiv_0_l (y : Q) : 0 / y == 0.
Proof. unfold Qdiv. ring. Qed.

Lemma Qdiv_le_compat_r (a b c : Q) : a <= b -> 0 < c -> a / c <= b / c.
Proof.
  intros H Hc. unfold Qdiv. apply Qmult_le_compat_r; [exact H|].
  apply Qlt_le_weak. now apply Qinv_lt_0_compat.
Qed.

Lemma Qmin_mono_l (a b c : Q) : a <= b -> Qmin a c <= Qmin b c.
Proof.
  intros H. apply Q.min_glb.
  - eapply Qle_trans; [apply Q.le_min_l|exact H].
  - apply Q.le_min_r.
Qed.

(** The repeat rate that [_gross_repeat] applies to a queue. *)
Lemma repeat_rate_nonneg (b : bool) (fb : Q) (q : Queue) :
  wf_queue q ->
  0 <= (if b then Qmax 0.05 fb else default 0 (repeat_ q)).
Proof.
  intros [? ? ? ? ? ? Hr ? ?]. destruct b; [apply Qmax_nonneg_l; lra|].
  now apply default_nonneg; [|lra].
Qed.

Section GrossZero.
Variables (qs : list EQueue) (affected_fte cost net_hours impact adoption : Q).
Hypothesis Hqs : Forall wf_equeue qs.
Hypothesis Hzero : impact == 0 \/ adoption == 0.

Lemma product_zero : impact * adoption == 0.
Proof. destruct Hzero as [E|E]; rewrite E; ring. Qed.

Lemma scaled_sum_zero (c : EQueue -> Q) (f : EQueue -> Q) :
  (forall q, f q == c q * (impact * adoption)) -> Qsum f qs == 0.
Proof.
  intros Hf. apply Qsum_zero. apply Forall_forall. intros q _.
  rewrite Hf, product_zero. ring.
Qed.

Lemma deflection_sum_zero :
  Qsum (fun q => qvol q * (eget deflection_eligible_pct 0 q
                           * Qmin impact (eget containment_feasibility 0 q)
                           * adoption)) qs == 0.
Proof.
  apply Qsum_zero. eapply Forall_impl; [exact Hqs|].
  intros q [_ _ Hc _ _ _]. cbv beta.
  destruct Hzero as [E|E].
  - assert (Em : Qmin impact (eget containment_feasibility 0 q) == 0).
    { rewrite E. apply Q.min_l. exact Hc. }
    rewrite Em. ring.
  - rewrite E. ring.
Qed.

Lemma repeat_sum_zero (b : bool) (fb : Q) :
  Qsum (fun q =>
          Qmin (qvol q * (if b then Qmax 0.05 fb else default 0 (repeat_ (raw q)))
                * impact * adoption)
               (qvol q * (if b then Qmax 0.05 fb else default 0 (repeat_ (raw q)))
                * 0.70)) qs == 0.
Proof.
  apply Qsum_zero. eapply Forall_impl; [exact Hqs|].
  intros q [Hraw _ _ _ _ _]. cbv beta.
  pose proof (repeat_rate_nonneg b fb _ Hraw) as Hr.
  set (rr := if b then _ else _) in *.
  assert (Hv : 0 <= qvol q) by (destruct Hraw; assumption).
  assert (E : qvol q * rr * impact * adoption == 0).
  { transitivity (qvol q * rr * (impact * adoption)); [ring|].
    rewrite product_zero. ring. }
  rewrite E. apply Q.min_l.
  apply Qmult_le_0_compat; [apply Qmult_le_0_compat; assumption|lra].
Qed.

End GrossZero.

(** X12.  An initiative without impact or without adoption has no gross
    effect, whatever its lever: on well-formed queues its gross FTE, its
    gross saving, its contacts and its seconds are all 0. *)
Theorem no_impact_or_no_adoption_no_gross (i : Initiative) (qs : list EQueue)
    (rs : list Role) (pd : option PoolResult) (p : Params) :
  Forall wf_equeue qs ->
  impact i == 0 \/ adoption i == 0 ->
  let g := compute_gross_impact i qs rs pd p in
  gross_fte g = 0 /\ gross_saving g = 0%Z /\
  gross_contacts g = 0%Z /\ gross_seconds g = 0%Z.
Proof.
  intros Hqs Hz g. subst g.
  pose proof (matching_queues_Forall _ i _ Hqs) as Hm.
  pose proof (product_zero _ _ Hz) as Hp.
  unfold compute_gross_impact, gross_dispatch.
  set (mq := matching_queues i qs) in *.
  set (aff := Qsum headcount _). set (cost := weighted_cost_of _ _).
  set (nph := _ * (1 - _)).
  repeat match goal with |- context [if String.eqb ?a ?b then _ else _] =>
    destruct (String.eqb a b) end.
  - (* deflection *)
    unfold _gross_deflection.
    pose proof (deflection_sum_zero mq _ _ Hm Hz) as E.
    cbn [gross_fte gross_saving gross_contacts gross_seconds].
    split; [apply round_nd_0; rewrite E; unfold Qdiv; ring|].
    split; [apply py_round_0; rewrite E; unfold Qdiv; ring|].
    split; [apply py_round_0; exact E|reflexivity].
  - (* AHT *)
    unfold _gross_aht_reduction.
    assert (E : Qsum (fun q =>
                  qvol q * (eget (fun e => reducible_sec (aht_decomp e))
                                 (aht (raw q) * 60 * 0.35) q
                            * impact i * adoption i)) mq == 0).
    { apply (scaled_sum_zero mq _ _ Hz
               (fun q => qvol q * eget (fun e => reducible_sec (aht_decomp e))
                                       (aht (raw q) * 60 * 0.35) q)).
      intros q. ring. }
    cbn [gross_fte gross_saving gross_contacts gross_seconds].
    split; [apply round_nd_0; rewrite E; unfold Qdiv; ring|].
    split; [apply py_round_0; rewrite E; unfold Qdiv; ring|].
    split; [reflexivity|apply py_round_0; exact E].
  - (* escalation *)
    unfold _gross_escalation.
    assert (E : Qsum (fun q =>
                  qvol q * default 0 (escalation (raw q))
                  * Qmax 0.10 (0.60 - default 0.5 (complexity (raw q)) * 0.50)
                  * impact i * adoption i) mq == 0).
    { apply (scaled_sum_zero mq _ _ Hz
               (fun q => qvol q * default 0 (escalation (raw q))
                  * Qmax 0.10 (0.60 - default 0.5 (complexity (raw q)) * 0.50))).
      intros q. ring. }
    cbn [gross_fte gross_saving gross_contacts gross_seconds].
    split; [apply round_nd_0; rewrite E; unfold Qdiv; ring|].
    split; [apply py_round_0; rewrite E; unfold Qdiv; ring|].
    split; [apply py_round_0; exact E|reflexivity].
  - (* repeat *)
    unfold _gross_repeat.
    match goal with |- context [Qltb ?w 0.02] => set (b := Qltb w 0.02) end.
    match goal with |- context [Qmax 0.05 ?f] => set (fb := f) end.
    pose proof (repeat_sum_zero mq _ _ Hm Hz b fb) as E.
    cbn [gross_fte gross_saving gross_contacts gross_seconds].
    split; [apply round_nd_0; rewrite E; unfold Qdiv; ring|].
    split; [apply py_round_0; rewrite E; unfold Qdiv; ring|].
    split; [apply py_round_0; exact E|reflexivity].
  - (* transfer *)
    unfold _gross_transfer.
    assert (E : Qsum (fun q =>
                  qvol q
                  * default (default 0 (transfer_rate (raw q))) (transfer (raw q))
                  * transfer_prev_share q * impact i * adoption i) mq == 0).
    { apply (scaled_sum_zero mq _ _ Hz
               (fun q => qvol q
                  * default (default 0 (transfer_rate (raw q))) (transfer (raw q))
                  * transfer_prev_share q)).
      intros q. ring. }
    cbn [gross_fte gross_saving gross_contacts gross_seconds].
    split; [apply round_nd_0; rewrite E; unfold Qdiv; ring|].
    split; [apply py_round_0; rewrite E; unfold Qdiv; ring|].
    split; [apply py_round_0; exact E|reflexivity].
  - (* location *)
    unfold _gross_location.
    cbn [gross_fte gross_saving gross_contacts gross_seconds].
    split; [reflexivity|]. split; [|split; reflexivity].
    apply py_round_0.
    match goal with |- ?a * ?s * impact i * adoption i * ?c * ?k == 0 =>
      transitivity (a * s * c * k * (impact i * adoption i)); [ring|] end.
    rewrite Hp. ring.
  - (* shrinkage *)
    unfold _gross_shrinkage.
    set (cur := default 0.30 (shrinkage p)).
    set (gap := Qmax 0 (cur - default 0.22 (targetShrinkage p))).
    assert (E : Qmin (cur * impact i * adoption i) gap == 0).
    { assert (E0 : cur * impact i * adoption i == 0).
      { transitivity (cur * (impact i * adoption i)); [ring|]. rewrite Hp. ring. }
      rewrite E0. apply Q.min_l. apply Q.le_max_l. }
    cbn [gross_fte gross_saving gross_contacts gross_seconds].
    split; [apply round_nd_0; rewrite E; ring|].
    split; [apply py_round_0; rewrite E; ring|]. split; reflexivity.
  - (* any other lever *)
    unfold _gross_generic.
    cbn [gross_fte gross_saving gross_contacts gross_seconds].
    assert (E : aff * impact i * adoption i * 0.75 == 0).
    { transitivity (aff * 0.75 * (impact i * adoption i)); [ring|].
      rewrite Hp. ring. }
    split; [apply round_nd_0; exact E|].
    split; [apply py_round_0; rewrite E; ring|]. split; reflexivity.
Qed.

Lemma no_impact_or_no_adoption_no_gross_witness :
  let g := compute_gross_impact (ex_init_at "deflection" 0.30 0)
             (e_annual_queues (make_env ex_data)) (roles ex_data) None
             (params ex_data) in
  gross_fte g = 0 /\ gross_saving g = 0%Z /\
  gross_contacts g = 0%Z /\ gross_seconds g = 0%Z.
Proof.
  apply (no_impact_or_no_adoption_no_gross (ex_init_at "deflection" 0.30 0)).
  - apply make_env_wf, ex_data_wf.
  - right. reflexivity.
Defined.

Lemma Qmult_le_nonneg_compat (a b c d : Q) :
  0 <= a <= b -> 0 <= c <= d -> a * c <= b * d.
Proof. intros. now apply Qmult_le_compat_nonneg. Qed.

Lemma scaled_le (c m m' a b : Q) :
  0 <= c -> 0 <= m <= m' -> a == c * m -> b == c * m' -> a <= b.
Proof.
  intros Hc Hm Ea Eb. rewrite Ea, Eb. apply Qmult_le_nonneg_compat; lra.
Qed.

Section GrossMonotone.
Variables (qs : list EQueue) (affected_fte cost net_hours : Q).
Variables (impact adoption impact' adoption' : Q).
Hypothesis Hqs : Forall wf_equeue qs.
Hypothesis Hfte : 0 <= affected_fte.
Hypothesis Himpact : 0 <= impact <= impact'.
Hypothesis Hadoption : 0 <= adoption <= adoption'.

Lemma product_le : 0 <= impact * adoption <= impact' * adoption'.
Proof.
  split; [apply Qmult_le_0_compat; lra|].
  now apply Qmult_le_nonneg_compat.
Qed.

(** A sum whose terms are a non-negative coefficient times
    [impact * adoption]. *)
Lemma scaled_sum_le (c f f' : EQueue -> Q) :
  Forall (fun q => 0 <= c q) qs ->
  (forall q, f q == c q * (impact * adoption)) ->
  (forall q, f' q == c q * (impact' * adoption')) ->
  Qsum f qs <= Qsum f' qs.
Proof.
  intros Hc Hf Hf'. apply Qsum_le. eapply Forall_impl; [exact Hc|].
  intros q Hq. cbv beta in *. rewrite Hf, Hf'.
  destruct product_le. apply Qmult_le_nonneg_compat; lra.
Qed.

(** Hours to FTE: a division by a positive number of productive hours. *)
Lemma fte_of_seconds_le (s s' : Q) :
  s <= s' ->
  round_nd 1 (s / 3600 / Qmax net_hours 1) <= round_nd 1 (s' / 3600 / Qmax net_hours 1).
Proof.
  intros H. apply round_nd_mono.
  apply Qdiv_le_compat_r; [|apply Qmax_pos_r; lra].
  apply Qdiv_le_compat_r; [exact H|lra].
Qed.

Lemma avg_aht_nonneg :
  0 <= Qsum (fun q => aht (raw q) * 60 * qvol q) qs / Qmax (Qsum qvol qs) 1.
Proof.
  apply Qdiv_nonneg; [|apply Qmax_pos_r; lra]. sum_nonneg Hqs. nonneg.
Qed.

Lemma gross_deflection_mono :
  gross_fte (_gross_deflection qs affected_fte cost net_hours impact adoption)
  <= gross_fte (_gross_deflection qs affected_fte cost net_hours impact' adoption').
Proof.
  unfold _gross_deflection. cbn [gross_fte]. apply fte_of_seconds_le.
  apply Qmult_le_compat_r; [|apply avg_aht_nonneg].
  apply Qsum_le. eapply Forall_impl; [exact Hqs|].
  intros q [[Hv _ _ _ _ _ _ _ _] He Hc _ _ _]. cbv beta.
  apply Qmult_le_nonneg_compat; [unfold qvol; lra|]. split.
  - repeat apply Qmult_le_0_compat; try lra. apply Qmin_nonneg; lra.
  - apply Qmult_le_nonneg_compat; [|lra]. split.
    + apply Qmult_le_0_compat; [lra|apply Qmin_nonneg; lra].
    + apply Qmult_le_nonneg_compat; [lra|]. split.
      * apply Qmin_nonneg; lra.
      * apply Qmin_mono_l; lra.
Qed.

Lemma gross_aht_reduction_mono total_vol :
  gross_fte (_gross_aht_reduction qs affected_fte cost net_hours impact adoption
                                  total_vol)
  <= gross_fte (_gross_aht_reduction qs affected_fte cost net_hours impact'
                                     adoption' total_vol).
Proof.
  unfold _gross_aht_reduction. cbn [gross_fte].
  apply round_nd_mono. apply Qdiv_le_compat_r; [|apply Qmax_pos_r; lra].
  apply Qdiv_le_compat_r; [|lra].
  apply (scaled_sum_le
           (fun q => qvol q * eget (fun e => reducible_sec (aht_decomp e))
                                   (aht (raw q) * 60 * 0.35) q)).
  - eapply Forall_impl; [exact Hqs|].
    intros q [[? ? ? ? ? ? ? ? ?] ? ? Hred ? ?]. unfold qvol, eget in *.
    destruct (enr q); simpl; nonneg.
  - intros q. ring.
  - intros q. ring.
Qed.

Lemma gross_escalation_mono :
  gross_fte (_gross_escalation qs affected_fte cost net_hours impact adoption)
  <= gross_fte (_gross_escalation qs affected_fte cost net_hours impact' adoption').
Proof.
  unfold _gross_escalation. cbn [gross_fte]. apply fte_of_seconds_le.
  apply Qmult_le_compat_r; [|lra].
  apply (scaled_sum_le
           (fun q => qvol q * default 0 (escalation (raw q))
                     * Qmax 0.10 (0.60 - default 0.5 (complexity (raw q)) * 0.50))).
  - eapply Forall_impl; [exact Hqs|].
    intros q [[? ? ? ? ? ? ? ? ?] ? ? ? ? ?]. unfold qvol. nonneg.
  - intros q. ring.
  - intros q. ring.
Qed.

Lemma gross_transfer_mono :
  gross_fte (_gross_transfer qs affected_fte cost net_hours impact adoption)
  <= gross_fte (_gross_transfer qs affected_fte cost net_hours impact' adoption').
Proof.
  unfold _gross_transfer. cbn [gross_fte]. apply fte_of_seconds_le.
  apply Qmult_le_compat_r; [|lra].
  apply (scaled_sum_le
           (fun q => qvol q
                     * default (default 0 (transfer_rate (raw q))) (transfer (raw q))
                     * transfer_prev_share q)).
  - eapply Forall_impl; [exact Hqs|].
    intros q [[? ? ? ? ? ? ? ? ?] ? ? ? ? ?]. unfold qvol, transfer_prev_share.
    repeat apply Qmult_le_0_compat; try assumption.
    + destruct (transfer (raw q)); simpl in *; [assumption|].
      destruct (transfer_rate (raw q)); simpl in *; [assumption|lra].
    + destruct (preventable_transfer_pct (raw q)); simpl in *; [assumption|].
      apply Qmax_nonneg_l. lra.
  - intros q. ring.
  - intros q. ring.
Qed.

Lemma gross_repeat_mono :
  gross_fte (_gross_repeat qs affected_fte cost net_hours impact adoption)
  <= gross_fte (_gross_repeat qs affected_fte cost net_hours impact' adoption').
Proof.
  unfold _gross_repeat. cbn [gross_fte]. apply fte_of_seconds_le.
  apply Qmult_le_compat_r; [|apply avg_aht_nonneg].
  match goal with |- context [Qltb ?w 0.02] => set (b := Qltb w 0.02) end.
  match goal with |- context [Qmax 0.05 ?f] => set (fb := f) end.
  apply Qsum_le. eapply Forall_impl; [exact Hqs|].
  intros q [Hraw _ _ _ _ _]. cbv beta.
  pose proof (repeat_rate_nonneg b fb _ Hraw) as Hr.
  set (rr := if b then _ else _) in *.
  assert (Hv : 0 <= qvol q) by (destruct Hraw; assumption).
  apply Qmin_mono_l.
  assert (Hc : 0 <= qvol q * rr) by (apply Qmult_le_0_compat; assumption).
  apply (scaled_le (qvol q * rr) (impact * adoption) (impact' * adoption'));
    [exact Hc|exact product_le|ring|ring].
Qed.

Lemma gross_shrinkage_mono (params : Params) :
  wf_params params ->
  gross_fte (_gross_shrinkage affected_fte cost impact adoption params)
  <= gross_fte (_gross_shrinkage affected_fte cost impact' adoption' params).
Proof.
  intros [_ Hs]. unfold _gross_shrinkage. cbn [gross_fte].
  apply round_nd_mono.
  set (cur := default 0.30 (shrinkage params)) in *.
  set (gap := Qmax 0 _).
  destruct product_le as [P0 P1].
  assert (Hm : cur * impact * adoption <= cur * impact' * adoption').
  { apply (scaled_le cur (impact * adoption) (impact' * adoption'));
      [exact Hs|exact product_le|ring|ring]. }
  apply Qmult_le_nonneg_compat; [lra|]. split.
  - apply Qmin_nonneg; [|apply Q.le_max_l].
    repeat apply Qmult_le_0_compat; lra.
  - now apply Qmin_mono_l.
Qed.

Lemma gross_generic_mono :
  gross_fte (_gross_generic affected_fte cost impact adoption)
  <= gross_fte (_gross_generic affected_fte cost impact' adoption').
Proof.
  unfold _gross_generic. cbn [gross_fte]. apply round_nd_mono.
  apply (scaled_le (affected_fte * 0.75) (impact * adoption) (impact' * adoption'));
    [apply Qmult_le_0_compat; lra|exact product_le|ring|ring].
Qed.

End GrossMonotone.

(** X13.  The gross FTE of an initiative never falls when its impact or
    its adoption rises: for two initiatives on the same lever, channels and
    roles, on well-formed inputs, the one with the higher (non-negative)
    impact and adoption has at least the gross FTE of the other. *)
Theorem gross_fte_monotone_in_impact_and_adoption (i i' : Initiative)
    (qs : list EQueue) (rs : list Role) (pd : option PoolResult) (p : Params) :
  Forall wf_equeue qs -> Forall (fun r => 0 <= headcount r) rs -> wf_params p ->
  lever i' = lever i -> channels i' = channels i ->
  target_roles i' = target_roles i ->
  0 <= impact i <= impact i' -> 0 <= adoption i <= adoption i' ->
  gross_fte (compute_gross_impact i qs rs pd p)
  <= gross_fte (compute_gross_impact i' qs rs pd p).
Proof.
  intros Hqs Hrs Hp El Ec Er Hi Ha.
  pose proof (matching_queues_Forall _ i _ Hqs) as Hm.
  assert (Hfte : 0 <= Qsum headcount (affected_roles i rs)).
  { apply Qsum_nonneg. now apply affected_roles_Forall. }
  assert (Emq : matching_queues i' qs = matching_queues i qs).
  { unfold matching_queues. now rewrite Ec. }
  assert (Ear : affected_roles i' rs = affected_roles i rs).
  { unfold affected_roles. now rewrite Er. }
  unfold compute_gross_impact, gross_dispatch. rewrite Emq, Ear, El.
  repeat match goal with |- context [if String.eqb ?a ?b then _ else _] =>
    destruct (String.eqb a b) end.
  - now apply gross_deflection_mono.
  - now apply gross_aht_reduction_mono.
  - now apply gross_escalation_mono.
  - now apply gross_repeat_mono.
  - now apply gross_transfer_mono.
  - cbn [_gross_location gross_fte]. lra.
  - now apply gross_shrinkage_mono.
  - now apply gross_generic_mono.
Qed.

Lemma gross_fte_monotone_witness :
  gross_fte (compute_gross_impact (ex_init_at "deflection" 0.10 0.50)
               (e_annual_queues (make_env ex_data)) (roles ex_data) None
               (params ex_data))
  <= gross_fte (compute_gross_impact (ex_init_at "deflection" 0.30 0.80)
                  (e_annual_queues (make_env ex_data)) (roles ex_data) None
                  (params ex_data)).
Proof.
  apply (gross_fte_monotone_in_impact_and_adoption
           (ex_init_at "deflection" 0.10 0.50) (ex_init_at "deflection" 0.30 0.80)).
  - apply make_env_wf, ex_data_wf.
  - apply ex_data_wf.
  - apply ex_data_wf.
  - reflexivity.
  - reflexivity.
  - reflexivity.
  - cbn [impact ex_init_at]. lra.
  - cbn [adoption ex_init_at]. lra.
Defined.

Lemma Qsum_filter_le {A} (f : A -> Q) (g : A -> bool) (l : list A) :
  Forall (fun x => 0 <= f x) l -> Qsum f (List.filter g l) <= Qsum f l.
Proof.
  induction 1 as [|x l Hx _ IH]; simpl; [lra|].
  destruct (g x); simpl; lra.
Qed.

(** X14.  A shrinkage initiative never asks for more than the shrinkage
    pool holds: its gross FTE is at most the ceiling of the pool that
    [compute_pools] builds from the same roles and parameters, whatever its
    impact and adoption. *)
Theorem shrinkage_gross_within_pool_ceiling (i : Initiative)
    (qs eqs : list EQueue) (rs : list Role) (pd : option PoolResult) (p : Params) :
  lever i = "shrinkage_reduction"%string ->
  Forall (fun r => 0 <= headcount r) rs ->
  exists pool,
    pools_of (compute_pools eqs rs p) !! "shrinkage_reduction"%string = Some pool /\
    gross_fte (compute_gross_impact i qs rs pd p) <= ceiling_fte pool.
Proof.
  intros El Hrs. eexists. split.
  { unfold compute_pools. cbn [pools_of].
    repeat (rewrite lookup_insert; case_decide as Hd; [discriminate Hd|clear Hd]).
    rewrite lookup_insert. case_decide as Hd; [reflexivity|].
    exfalso. now apply Hd. }
  cbn [ceiling_fte].
  unfold compute_gross_impact, gross_dispatch. rewrite El.
  cbn [String.eqb Ascii.eqb Bool.eqb]. unfold _gross_shrinkage. cbn [gross_fte].
  apply round_nd_mono.
  set (gap := Qmax 0 _).
  assert (Hgap : 0 <= gap) by apply Q.le_max_l.
  assert (Haff : 0 <= Qsum headcount (affected_roles i rs) <= Qsum headcount rs).
  { split; [apply Qsum_nonneg; now apply affected_roles_Forall|].
    now apply Qsum_filter_le. }
  set (aff := Qsum headcount (affected_roles i rs)) in *.
  set (tot := Qsum headcount rs) in *.
  set (m := Qmin _ gap).
  assert (Hm : m <= gap) by apply Q.le_min_r.
  assert (H1 : aff * m <= aff * gap).
  { rewrite (Qmult_comm aff m), (Qmult_comm aff gap).
    apply Qmult_le_compat_r; lra. }
  assert (H2 : aff * gap <= tot * gap) by (apply Qmult_le_compat_r; lra).
  lra.
Qed.

Lemma shrinkage_gross_within_pool_ceiling_witness :
  exists pool,
    pools_of (compute_pools (enrich_intents (queues ex_data)) (roles ex_data)
                            (params ex_data)) !! "shrinkage_reduction"%string
    = Some pool /\
    gross_fte (compute_gross_impact (ex_init_at "shrinkage_reduction" 0.30 0.80)
                 (e_annual_queues (make_env ex_data)) (roles ex_data) None
                 (params ex_data))
    <= ceiling_fte pool.
Proof.
  apply (shrinkage_gross_within_pool_ceiling
           (ex_init_at "shrinkage_reduction" 0.30 0.80)).
  - reflexivity.
  - apply ex_data_wf.
Defined.

(** X15.  The deflection formula caps the impact of an initiative by the
    containment feasibility of each queue: two deflection initiatives that
    differ only in an impact at or above the containment of every queue
    they match have the same gross result. *)
Theorem deflection_impact_saturates_at_containment (i i' : Initiative)
    (qs : list EQueue) (rs : list Role) (pd : option PoolResult) (p : Params) :
  lever i = "deflection"%string -> lever i' = "deflection"%string ->
  channels i' = channels i -> target_roles i' = target_roles i ->
  adoption i' = adoption i ->
  Forall (fun q => eget containment_feasibility 0 q <= impact i /\
                   eget containment_feasibility 0 q <= impact i')
         (matching_queues i qs) ->
  compute_gross_impact i' qs rs pd p = compute_gross_impact i qs rs pd p.
Proof.
  intros El El' Ec Er Ea Hsat.
  assert (Emq : matching_queues i' qs = matching_queues i qs).
  { unfold matching_queues. now rewrite Ec. }
  assert (Ear : affected_roles i' rs = affected_roles i rs).
  { unfold affected_roles. now rewrite Er. }
  unfold compute_gross_impact, gross_dispatch. rewrite Emq, Ear, El, El', Ea.
  cbn [String.eqb Ascii.eqb Bool.eqb]. unfold _gross_deflection.
  set (mq := matching_queues i qs) in *.
  assert (E : Qsum (fun q => qvol q * (eget deflection_eligible_pct 0 q
                       * Qmin (impact i') (eget containment_feasibility 0 q)
                       * adoption i)) mq
              == Qsum (fun q => qvol q * (eget deflection_eligible_pct 0 q
                       * Qmin (impact i) (eget containment_feasibility 0 q)
                       * adoption i)) mq).
  { apply Qsum_ext_eq. eapply Forall_impl; [exact Hsat|].
    intros q [H1 H2]. cbv beta.
    rewrite (Q.min_r (impact i') _ H2), (Q.min_r (impact i) _ H1). reflexivity. }
  f_equal.
  - apply round_nd_comp. now rewrite E.
  - apply py_round_comp. exact E.
  - apply py_round_comp. now rewrite E.
Qed.

Lemma deflection_impact_saturates_witness :
  compute_gross_impact (ex_init_at "deflection" 2 0.80)
    (e_annual_queues (make_env ex_data)) (roles ex_data) None (params ex_data)
  = compute_gross_impact (ex_init_at "deflection" 1 0.80)
      (e_annual_queues (make_env ex_data)) (roles ex_data) None (params ex_data).
Proof.
  apply (deflection_impact_saturates_at_containment
           (ex_init_at "deflection" 1 0.80) (ex_init_at "deflection" 2 0.80));
    try reflexivity.
  repeat constructor; vm_compute; discriminate.
Defined.

(** ** More of the cascade of engines/waterfall.py *)

Section CascadeInvariants.
Variable ramp_value : Z -> Z -> Q.

(** A property of the ledgers that every step keeps, for the initiatives
    that satisfy [Q], holds when the cascade is over. *)
Lemma cascade_invariant (P : Ledgers -> Prop) (Q : Initiative -> Prop)
    (env : Env) (order : list nat) :
  (forall led i a, Q i -> P led ->
     P (process_initiative ramp_value env led i a).1) ->
  forall led s,
  (forall k rec, k ∈ order -> s !! k = Some rec -> Q (ini rec)) ->
  P led -> P (cascade ramp_value env led s order).1.
Proof.
  intros Hstep. induction order as [|k order IH]; intros led s HQ HP.
  - exact HP.
  - rewrite cascade_cons. apply IH.
    + intros j rec Hj Hrec.
      pose proof (step_ini ramp_value env (led, s) k j) as Hini.
      rewrite Hrec in Hini. cbn [fst snd] in Hini.
      destruct (s !! j) as [rec0|] eqn:Ej; [|discriminate].
      injection Hini as ->. apply (HQ j rec0); [|exact Ej].
      apply elem_of_cons. now right.
    + unfold cascade_step. cbn [fst snd].
      destruct (s !! k) as [r|] eqn:Er; [|exact HP].
      pose proof (Hstep led (ini r) (ann r)) as H.
      destruct (process_initiative _ _ _ _ _) as [led1 a1]. cbn [fst] in *.
      apply H; [|exact HP]. apply (HQ k r); [|exact Er].
      apply elem_of_cons. now left.
Qed.

(** The three exits of one step, as far as the role ledgers go. *)
Lemma process_role_ledgers (env : Env) (led : Ledgers) (i : Initiative)
    (a : Annotations) :
  let led' := (process_initiative ramp_value env led i a).1 in
  let affected := affected_roles i (roles (e_data env)) in
  let tot_aff := Qsum headcount affected in
  (role_cum led' = role_cum led /\ role_impact led' = role_impact led) \/
  (~ tot_aff == 0 /\
   exists net yf,
     role_cum led' =
       add_role_cum (capped_reduction (lever i) net tot_aff affected (role_cum led))
                    tot_aff affected (role_cum led) /\
     role_impact led' =
       add_role_impact (capped_reduction (lever i) net tot_aff affected (role_cum led))
                       tot_aff yf affected (role_impact led)).
Proof.
  intros led' affected tot_aff. subst led'. unfold process_initiative.
  fold affected. fold tot_aff.
  destruct (Qeq_bool tot_aff 0) eqn:E0; [left; split; reflexivity|].
  apply Qeq_bool_false_neq in E0.
  destruct (_is_location _).
  - left. destruct (_ && _ && _).
    + destruct (consume_pool _ _ _ _ _) as [[c p] l].
      destruct (_ && _); split; reflexivity.
    + split; reflexivity.
  - right. split; [exact E0|].
    destruct (consume_pool _ _ _ _ _) as [[c p] l]. cbn [fst role_cum role_impact].
    eexists _, _. split; reflexivity.
Qed.

End CascadeInvariants.

Lemma add_role_cum_lookup_ne (red tot_aff : Q) (affected : list Role)
    (rc : gmap string Q) (name : string) :
  Forall (fun r => role r <> name) affected ->
  add_role_cum red tot_aff affected rc !! name = rc !! name.
Proof.
  unfold add_role_cum. intros H. revert rc.
  induction H as [|r l Hr _ IH]; intros rc; cbn [fold_left]; [reflexivity|].
  rewrite IH. now apply lookup_alter_ne.
Qed.

Lemma add_role_impact_lookup_ne (red tot_aff : Q) (yf : list Q)
    (affected : list Role) (ri : gmap string RoleLedger) (name : string) :
  Forall (fun r => role r <> name) affected ->
  add_role_impact red tot_aff yf affected ri !! name = ri !! name.
Proof.
  unfold add_role_impact. intros H. revert ri.
  induction H as [|r l Hr _ IH]; intros ri; cbn [fold_left]; [reflexivity|].
  rewrite IH. now apply lookup_alter_ne.
Qed.

Lemma str_in_false_ne (name x : string) (l : list string) :
  str_in name l = false -> str_in x l = true -> x <> name.
Proof. intros Hn Hx ->. congruence. Qed.

Lemma affected_roles_targeted (i : Initiative) (rs : list Role) :
  Forall (fun r => str_in (role r) (target_roles i) = true) (affected_roles i rs).
Proof.
  unfold affected_roles. induction rs as [|r rs IH]; cbn [List.filter]; [constructor|].
  destruct (str_in (role r) (target_roles i)) eqn:E; [constructor|]; assumption.
Qed.

(** X16.  The cascade never touches the ledgers of a role that no enabled
    initiative names among its roles: at the end of the run its cumulative
    allocation and its yearly impact are the initial ones. *)
Theorem untargeted_role_keeps_its_ledgers (ramp_value : Z -> Z -> Q) (d : Data)
    (inits : list InitRec) (name : string) :
  Forall (fun rec => enabled (ini rec) = true ->
                     str_in name (target_roles (ini rec)) = false) inits ->
  let led := (run_cascade ramp_value d inits).1 in
  role_cum led !! name = role_cum (initial_ledgers d) !! name /\
  role_impact led !! name = role_impact (initial_ledgers d) !! name.
Proof.
  intros Hun led. subst led. unfold run_cascade.
  apply (cascade_invariant ramp_value
           (fun led => role_cum led !! name = role_cum (initial_ledgers d) !! name /\
                       role_impact led !! name
                       = role_impact (initial_ledgers d) !! name)
           (fun i => str_in name (target_roles i) = false)).
  - intros led i a Hi [H1 H2].
    assert (Hne : Forall (fun r => role r <> name)
                         (affected_roles i (roles (e_data (make_env d))))).
    { eapply Forall_impl; [apply affected_roles_targeted|].
      intros r Hr. now apply (str_in_false_ne name _ (target_roles i)). }
    destruct (process_role_ledgers ramp_value (make_env d) led i a)
      as [[-> ->]|(_ & net & yf & -> & ->)].
    + split; assumption.
    + rewrite add_role_cum_lookup_ne, add_role_impact_lookup_ne by exact Hne.
      split; assumption.
  - intros k rec Hk Hrec.
    destruct (sorted_inits_spec _ _ Hk) as (r & Hr & Hen).
    rewrite Hrec in Hr. injection Hr as <-.
    rewrite Forall_lookup in Hun. exact (Hun k rec Hrec Hen).
  - split; reflexivity.
Qed.

Lemma untargeted_role_keeps_its_ledgers_witness :
  let led := (run_cascade ex_ramp ex_data ex_l1_inits).1 in
  role_cum led !! "Agent L2 / Specialist"%string
    = role_cum (initial_ledgers ex_data) !! "Agent L2 / Specialist"%string /\
  role_impact led !! "Agent L2 / Specialist"%string
    = role_impact (initial_ledgers ex_data) !! "Agent L2 / Specialist"%string.
Proof.
  apply (untargeted_role_keeps_its_ledgers ex_ramp ex_data ex_l1_inits).
  repeat constructor.
Defined.

Lemma initial_role_cum_zero (rs : list Role) (name : string) (v : Q) :
  forall m : gmap string Q,
  (forall w, m !! name = Some w -> w = 0) ->
  fold_left (fun m r => <[role r := 0]> m) rs m !! name = Some v -> v = 0.
Proof.
  induction rs as [|r rs IH]; intros m Hm; cbn [fold_left]; [apply Hm|].
  apply IH. intros w. rewrite lookup_insert. case_decide; [congruence|apply Hm].
Qed.

Lemma initial_cum_of (d : Data) (r : Role) :
  cum_of (role_cum (initial_ledgers d)) r = 0.
Proof.
  unfold cum_of, initial_ledgers. cbn [role_cum].
  destruct (_ !! role r) as [v|] eqn:E; [|reflexivity]. cbn.
  apply (initial_role_cum_zero _ _ _ _ (fun w H => ltac:(now rewrite lookup_empty in H)) E).
Qed.

(** One step on an initiative that affects at most one role keeps every
    role within its cap. *)
Lemma single_role_step (ramp_value : Z -> Z -> Q) (env : Env) (led : Ledgers)
    (i : Initiative) (a : Annotations) :
  (length (affected_roles i (roles (e_data env))) <= 1)%nat ->
  roles_within_cap (roles (e_data env)) (role_cum led) ->
  roles_within_cap (roles (e_data env))
    (role_cum (process_initiative ramp_value env led i a).1).
Proof.
  intros Hlen Hcap.
  destruct (process_role_ledgers ramp_value env led i a)
    as [[-> _]|(Hne & net & yf & -> & _)]; [exact Hcap|].
  pose proof (affected_roles_targeted i (roles (e_data env))) as Htg.
  assert (Hin : forall r, In r (roles (e_data env)) ->
            str_in (role r) (target_roles i) = true ->
            In r (affected_roles i (roles (e_data env)))).
  { intros r Hr Ht. unfold affected_roles. apply List.filter_In. now split. }
  destruct (affected_roles i (roles (e_data env))) as [|r0 [|r1 rest]] eqn:Eaff.
  - exfalso. apply Hne. reflexivity.
  - clear Hlen. apply Forall_inv in Htg.
    cbn [Qsum fold_right] in *.
    assert (Hh : ~ headcount r0 == 0) by (intros C; apply Hne; rewrite C; ring).
    unfold roles_within_cap in *. rewrite Forall_forall in Hcap.
    apply Forall_forall. intros r Hr. specialize (Hcap r Hr).
    unfold add_role_cum. cbn [fold_left]. unfold cum_of in *.
    destruct (String.eqb_spec (role r) (role r0)) as [Eq|Nq].
    + assert (r = r0) as ->.
      { apply list_elem_of_In in Hr. rewrite <- Eq in Htg.
        destruct (Hin r Hr Htg) as [E|[]]. now symmetry. }
      rewrite lookup_alter_eq.
      destruct (role_cum led !! role r0) as [c|] eqn:Ec; cbn in *; [|exact Hcap].
      unfold capped_reduction. cbn [Qsum fold_right]. unfold cum_of. rewrite Ec. cbn.
      set (room := Qmax 0 (headcount r0 * PER_ROLE_MAX_REDUCTION - c)).
      set (m := Qmin _ (room + 0)).
      assert (Hroom : room == headcount r0 * PER_ROLE_MAX_REDUCTION - c).
      { apply Q.max_r. lra. }
      assert (Hm : m <= room + 0) by apply Q.le_min_r.
      assert (Hmax : Qmax 0 m <= room).
      { apply Q.max_lub; [apply Q.le_max_l|lra]. }
      assert (Eone : headcount r0 / (headcount r0 + 0) == 1) by (field; lra).
      rewrite Eone. lra.
    + rewrite lookup_alter_ne by congruence. exact Hcap.
  - cbn in Hlen. lia.
Qed.

(** X17.  When every enabled initiative affects at most one of the roles,
    the per-role cap holds over the whole run: at the end of the cascade
    the cumulative allocation of every role is at most 45% of its
    headcount. *)
Theorem single_role_initiatives_respect_role_cap (ramp_value : Z -> Z -> Q)
    (d : Data) (inits : list InitRec) :
  Forall (fun r => 0 <= headcount r) (roles d) ->
  Forall (fun rec => enabled (ini rec) = true ->
            (length (affected_roles (ini rec) (roles d)) <= 1)%nat) inits ->
  roles_within_cap (roles d) (role_cum (run_cascade ramp_value d inits).1).
Proof.
  intros Hrs Hone. unfold run_cascade.
  apply (cascade_invariant ramp_value
           (fun led => roles_within_cap (roles d) (role_cum led))
           (fun i => (length (affected_roles i (roles d)) <= 1)%nat)).
  - intros led i a Hi Hcap.
    exact (single_role_step ramp_value (make_env d) led i a Hi Hcap).
  - intros k rec Hk Hrec.
    destruct (sorted_inits_spec _ _ Hk) as (r & Hr & Hen).
    rewrite Hrec in Hr. injection Hr as <-.
    rewrite Forall_lookup in Hone. exact (Hone k rec Hrec Hen).
  - unfold roles_within_cap. eapply Forall_impl; [exact Hrs|].
    intros r Hr. cbv beta in Hr. rewrite initial_cum_of.
    unfold PER_ROLE_MAX_REDUCTION. lra.
Qed.

Lemma single_role_initiatives_respect_role_cap_witness :
  roles_within_cap (roles ex_data)
    (role_cum (run_cascade ex_ramp ex_data ex_l1_inits).1).
Proof.
  apply (single_role_initiatives_respect_role_cap ex_ramp ex_data ex_l1_inits).
  - apply ex_data_wf.
  - repeat constructor.
Defined.

(** *** The order of the cascade is sorted *)

Lemma key_lt_trans (a b c : Z * Z * Q) :
  key_lt a b = true -> key_lt b c = true -> key_lt a c = true.
Proof.
  destruct a as [[a1 a2] a3], b as [[b1 b2] b3], c as [[c1 c2] c3].
  unfold key_lt.
  repeat match goal with
  | |- context [(?x <? ?y)%Z] => destruct (Z.ltb_spec x y)
  end; try reflexivity; try discriminate; try lia.
  intros Q1 Q2. apply Qltb_true in Q1, Q2. apply Qltb_lt. lra.
Qed.

Lemma insert_stable_Forall {A} (P : A -> Prop) (key : A -> Z * Z * Q) (x : A)
    (l : list A) :
  P x -> Forall P l -> Forall P (insert_stable key x l).
Proof.
  intros Hx. induction 1 as [|y l Hy Hl IH]; cbn [insert_stable].
  - repeat constructor. exact Hx.
  - destruct (key_lt _ _); repeat constructor; assumption.
Qed.

Lemma insert_stable_ordered {A} (key : A -> Z * Z * Q) (x : A) (l : list A) :
  ordered_by key l -> ordered_by key (insert_stable key x l).
Proof.
  induction l as [|y l IH]; cbn [insert_stable ordered_by].
  - intros _. split; [constructor|exact I].
  - intros [Hy Hl]. destruct (key_lt (key x) (key y)) eqn:E.
    + cbn [ordered_by]. split; [|split; assumption].
      constructor.
      * destruct (key_lt (key y) (key x)) eqn:E'; [|reflexivity].
        pose proof (key_lt_trans _ _ _ E E') as C.
        destruct (key x) as [[x1 x2] x3]. unfold key_lt in C.
        rewrite !Z.ltb_irrefl in C. apply Qltb_true in C. lra.
      * eapply Forall_impl; [exact Hy|]. intros z Hz. cbv beta in Hz.
        destruct (key_lt (key z) (key x)) eqn:E'; [|reflexivity].
        rewrite (key_lt_trans _ _ _ E' E) in Hz. discriminate.
    + cbn [ordered_by]. split; [|now apply IH].
      apply insert_stable_Forall; assumption.
Qed.

Lemma sorted_by_ordered {A} (key : A -> Z * Z * Q) (l : list A) :
  ordered_by key (sorted_by key l).
Proof.
  unfold sorted_by.
  assert (H : forall acc, ordered_by key acc ->
            ordered_by key (fold_left (fun acc x => insert_stable key x acc) l acc)).
  { induction l as [|x l IH]; intros acc Hacc; cbn [fold_left]; [exact Hacc|].
    apply IH. now apply insert_stable_ordered. }
  apply H. exact I.
Qed.

(** X18.  The order in which the cascade processes the initiatives is a
    rearrangement of the positions of the enabled ones (each exactly once,
    no disabled one), sorted by layer, then lever, then descending match
    score: no initiative comes after one with a greater key. *)
Theorem cascade_order_is_sorted (inits : list InitRec) :
  (forall k, k ∈ sorted_inits inits <->
     exists r, inits !! k = Some r /\ enabled (ini r) = true) /\
  NoDup (sorted_inits inits) /\
  ordered_by (position_key inits) (sorted_inits inits).
Proof.
  split; [|split; [apply sorted_inits_NoDup|]].
  - intros k. split; [apply sorted_inits_spec|].
    intros (r & Hr & Hen). unfold sorted_inits. rewrite sorted_by_perm.
    unfold enabled_indices. apply list_elem_of_In, List.filter_In. split.
    + apply List.in_seq. apply lookup_lt_Some in Hr. lia.
    + now rewrite Hr.
  - apply (sorted_by_ordered (position_key inits)).
Qed.

(** X19.  The cascade writes results only: it keeps the number of
    initiatives and the input keys of every one of them, and it leaves a
    disabled initiative exactly as it was. *)
Theorem cascade_keeps_inputs_and_disabled_initiatives
    (ramp_value : Z -> Z -> Q) (d : Data) (inits : list InitRec) :
  let out := (run_cascade ramp_value d inits).2 in
  length out = length inits /\
  (forall k, ini <$> out !! k = ini <$> inits !! k) /\
  (forall k rec, inits !! k = Some rec -> enabled (ini rec) = false ->
     out !! k = Some rec).
Proof.
  intros out. subst out. unfold run_cascade.
  split; [apply cascade_length|]. split; [intros k; apply cascade_ini|].
  intros k rec Hrec Hdis.
  rewrite cascade_lookup_other; [exact Hrec|].
  intros Hk. destruct (sorted_inits_spec _ _ Hk) as (r & Hr & Hen).
  congruence.
Qed.

(** *** The yearly factors of the ramp *)

Section YearlyFactors.
Variable ramp_value : Z -> Z -> Q.

Lemma year_months_bounds (start_month end_month ramp_months : Z) (n : nat) :
  (forall t r, 0 <= ramp_value t r <= 1) ->
  forall m,
  let '(s, a) := year_months ramp_value start_month end_month ramp_months m n in
  (0 <= a <= Z.of_nat n)%Z /\ 0 <= s <= inject_Z a.
Proof.
  intros Hrv. induction n as [|n IH]; intros m.
  - cbn [year_months]. split; [lia|]. change (inject_Z 0) with 0. lra.
  - cbn [year_months]. specialize (IH (m + 1)%Z).
    destruct (year_months _ _ _ _ _ n) as [s a].
    destruct IH as [Ha Hs].
    destruct ((m <? start_month)%Z || (end_month <? m)%Z).
    + split; [lia|exact Hs].
    + split; [lia|].
      rewrite inject_Z_plus. change (inject_Z 1) with 1.
      pose proof (Hrv (m - start_month + 1)%Z ramp_months).
      set (v := ramp_value _ _) in *. qlra.
Qed.

Lemma year_months_inactive (start_month end_month ramp_months : Z) (n : nat) :
  forall m,
  (forall j, (m <= j < m + Z.of_nat n)%Z -> (j < start_month \/ end_month < j)%Z) ->
  year_months ramp_value start_month end_month ramp_months m n = (0, 0%Z).
Proof.
  induction n as [|n IH]; intros m H; cbn [year_months]; [reflexivity|].
  rewrite IH by (intros j Hj; apply H; lia).
  assert (E : ((m <? start_month)%Z || (end_month <? m)%Z) = true).
  { destruct (H m ltac:(lia)) as [C|C].
    - apply orb_true_iff. left. now apply Z.ltb_lt.
    - apply orb_true_iff. right. now apply Z.ltb_lt. }
  now rewrite E.
Qed.

Lemma year_months_steady (start_month end_month ramp_months : Z) (n : nat) :
  (forall t r, (0 < t)%Z -> (r <= t)%Z -> ramp_value t r == 1) ->
  forall m,
  (start_month <= m)%Z -> (start_month + ramp_months - 1 <= m)%Z ->
  (m + Z.of_nat n - 1 <= end_month)%Z ->
  let '(s, a) := year_months ramp_value start_month end_month ramp_months m n in
  a = Z.of_nat n /\ s == inject_Z a.
Proof.
  intros Hrv. induction n as [|n IH]; intros m H1 H2 H3.
  - cbn [year_months]. split; reflexivity.
  - cbn [year_months].
    specialize (IH (m + 1)%Z ltac:(lia) ltac:(lia) ltac:(lia)).
    destruct (year_months _ _ _ _ _ n) as [s a]. destruct IH as [-> Hs].
    assert (E : ((m <? start_month)%Z || (end_month <? m)%Z) = false).
    { apply orb_false_iff. split; apply Z.ltb_ge; lia. }
    rewrite E. split; [lia|].
    rewrite inject_Z_plus. change (inject_Z 1) with 1.
    rewrite (Hrv (m - start_month + 1)%Z ramp_months) by lia.
    rewrite Hs. ring.
Qed.

Lemma yearly_factors_lookup (start_month end_month : Z) (horizon_years : nat)
    (ramp_months : Z) (yr : nat) :
  (yr < horizon_years)%nat ->
  _compute_yearly_factors ramp_value start_month end_month horizon_years
                          ramp_months !! yr
  = Some (let total_months := (Z.of_nat horizon_years * 12)%Z in
          let end_month :=
            Z.min (if (end_month <=? 0)%Z then total_months else end_month)
                  total_months in
          let '(month_sum, active_months) :=
            year_months ramp_value start_month end_month ramp_months
                        (Z.of_nat yr * 12 + 1) 12 in
          if (0 <? active_months)%Z then
            round_nd 4 (month_sum / inject_Z active_months
                        * inject_Z active_months / 12)
          else 0).
Proof.
  intros Hyr. unfold _compute_yearly_factors.
  rewrite list_lookup_fmap, lookup_seq_lt by exact Hyr. reflexivity.
Qed.

(** X20.  With ramp values between 0 and 1, [_compute_yearly_factors]
    returns one factor per year of the horizon, each between 0 and 1. *)
Theorem yearly_factors_are_fractions (start_month end_month : Z)
    (horizon_years : nat) (ramp_months : Z) :
  (forall t r, 0 <= ramp_value t r <= 1) ->
  let fs := _compute_yearly_factors ramp_value start_month end_month
                                    horizon_years ramp_months in
  length fs = horizon_years /\ Forall (fun f => 0 <= f <= 1) fs.
Proof.
  intros Hrv fs. subst fs. split.
  { unfold _compute_yearly_factors. now rewrite length_map, length_seq. }
  apply Forall_lookup. intros yr f Hf.
  assert (Hyr : (yr < horizon_years)%nat).
  { apply lookup_lt_Some in Hf. unfold _compute_yearly_factors in Hf.
    now rewrite length_map, length_seq in Hf. }
  rewrite yearly_factors_lookup in Hf by exact Hyr.
  apply (inj Some) in Hf. subst f. cbv zeta.
  match goal with |- context [year_months _ ?s ?e ?r ?m ?n] =>
    pose proof (year_months_bounds s e r n Hrv m) as Hb;
    destruct (year_months ramp_value s e r m n) as [ms am]
  end.
  destruct Hb as [Ha Hs]. change (Z.of_nat 12) with 12%Z in Ha.
  destruct (0 <? am)%Z eqn:Epos; [|lra].
  apply Z.ltb_lt in Epos.
  assert (Hq : 0 < inject_Z am).
  { change 0 with (inject_Z 0). now rewrite <- Zlt_Qlt. }
  assert (Hq12 : inject_Z am <= 12).
  { change 12 with (inject_Z 12). rewrite <- Zle_Qle. lia. }
  apply round_nd_unit.
  set (a := inject_Z am) in *. clearbody a.
  assert (E : ms / a * a / 12 == ms / 12) by (field; lra).
  rewrite E. split.
  - apply Qdiv_nonneg; lra.
  - apply Qle_shift_div_r; lra.
Qed.

(** X21.  A year that lies entirely before the start month, or entirely
    after a benefit end month that was set, has a factor of exactly 0,
    whatever the ramp. *)
Theorem no_benefit_outside_the_active_window (start_month end_month : Z)
    (horizon_years : nat) (ramp_months : Z) (yr : nat) :
  (yr < horizon_years)%nat ->
  ((Z.of_nat yr + 1) * 12 < start_month \/
   0 < end_month < Z.of_nat yr * 12 + 1)%Z ->
  _compute_yearly_factors ramp_value start_month end_month horizon_years
                          ramp_months !! yr = Some 0.
Proof.
  intros Hyr Hout. rewrite yearly_factors_lookup by exact Hyr. cbv zeta.
  rewrite year_months_inactive; [reflexivity|].
  intros j Hj. change (Z.of_nat 12) with 12%Z in Hj.
  destruct Hout as [Hb|[Ha1 Ha2]]; [left; lia|right].
  destruct (end_month <=? 0)%Z eqn:E; [apply Z.leb_le in E; lia|]. lia.
Qed.

(** X22.  Once the ramp is over, a full year inside the benefit window
    counts in full: if the ramp value is 1 from [ramp_months] months after
    go-live on, a year that starts at or after month
    [start_month + ramp_months - 1] and ends by the benefit end has a
    factor of exactly 1. *)
Theorem full_year_after_the_ramp_counts_in_full (start_month end_month : Z)
    (horizon_years : nat) (ramp_months : Z) (yr : nat) :
  (forall t r, (0 < t)%Z -> (r <= t)%Z -> ramp_value t r == 1) ->
  (yr < horizon_years)%nat ->
  (start_month <= Z.of_nat yr * 12 + 1)%Z ->
  (start_month + ramp_months - 1 <= Z.of_nat yr * 12 + 1)%Z ->
  (end_month <= 0 \/ (Z.of_nat yr + 1) * 12 <= end_month)%Z ->
  _compute_yearly_factors ramp_value start_month end_month horizon_years
                          ramp_months !! yr = Some 1.
Proof.
  intros Hrv Hyr H1 H2 H3. rewrite yearly_factors_lookup by exact Hyr. cbv zeta.
  match goal with |- context [year_months _ ?s ?e ?r ?m ?n] =>
    pose proof (year_months_steady s e r n Hrv m H1 H2) as Hb;
    destruct (year_months ramp_value s e r m n) as [ms am]
  end.
  destruct Hb as [-> Hs].
  { change (Z.of_nat 12) with 12%Z.
    destruct (end_month <=? 0)%Z eqn:E.
    - lia.
    - apply Z.leb_gt in E. lia. }
  change (Z.of_nat 12) with 12%Z in *. change (0 <? 12)%Z with true. cbv iota.
  f_equal. transitivity (round_nd 4 1); [|vm_compute; reflexivity].
  apply round_nd_comp. rewrite Hs. reflexivity.
Qed.

End YearlyFactors.

Lemma ex_ramp_range : forall t r : Z, 0 <= ex_ramp t r <= 1.
Proof. intros t r. unfold ex_ramp. lra. Qed.

Lemma yearly_factors_are_fractions_witness :
  let fs := _compute_yearly_factors ex_ramp 1 0 3 6 in
  length fs = 3%nat /\ Forall (fun f => 0 <= f <= 1) fs.
Proof.
  exact (yearly_factors_are_fractions ex_ramp 1 0 3 6 ex_ramp_range).
Defined.

Lemma no_benefit_outside_the_active_window_witness :
  _compute_yearly_factors ex_ramp 13 0 3 6 !! 0%nat = Some 0.
Proof.
  apply (no_benefit_outside_the_active_window ex_ramp 13 0 3 6 0); [lia|].
  left. lia.
Defined.

Lemma full_year_after_the_ramp_witness :
  _compute_yearly_factors ex_ramp 1 0 3 6 !! 1%nat = Some 1.
Proof.
  apply (full_year_after_the_ramp_counts_in_full ex_ramp 1 0 3 6 1).
  - intros t r _ _. reflexivity.
  - lia.
  - lia.
  - lia.
  - left. lia.
Defined.

(** *** The S-curve ramp outside the ramp window *)

Section RampEdges.
Local Open Scope R_scope.

(** X23.  For every real month offset and every ramp duration, zero and
    negative ones included, the ramp value is a fraction; it is 0 up to
    go-live and 1 from [ramp_months] months after go-live on, so a ramp of
    zero or negative duration is a step at go-live and never divides by
    its duration. *)
Theorem s_curve_ramp_is_a_fraction (t ramp_months : R) :
  0 <= _s_curve_ramp t ramp_months <= 1 /\
  (t <= 0 -> _s_curve_ramp t ramp_months = 0) /\
  (0 < t -> ramp_months <= t -> _s_curve_ramp t ramp_months = 1).
Proof.
  split; [apply s_curve_ramp_range|]. unfold _s_curve_ramp. split.
  - intros H. destruct (Rle_dec t 0); [reflexivity|contradiction].
  - intros H0 H1. destruct (Rle_dec t 0); [lra|].
    destruct (Rle_dec ramp_months t); [reflexivity|contradiction].
Qed.

End RampEdges.

(** ** The yearly projection of [run_waterfall] *)

Lemma osum_Some {A} (f : A -> option Q) (l : list A) :
  Forall (fun x => is_Some (f x)) l ->
  osum f l = Some (Qsum (fun x => default 0 (f x)) l).
Proof.
  induction 1 as [|x l [v Hv] _ IH]; cbn [osum Qsum fold_right]; [reflexivity|].
  rewrite Hv, IH. reflexivity.
Qed.

Lemma Qsum_perm {A} (f : A -> Q) (l l' : list A) :
  l ≡ₚ l' -> Qsum f l == Qsum f l'.
Proof.
  induction 1 as [|x l l' _ IH|x y l|l l' l'' _ IH1 _ IH2]; cbn [Qsum fold_right].
  - reflexivity.
  - fold (Qsum f l). fold (Qsum f l'). now rewrite IH.
  - ring.
  - now rewrite IH1.
Qed.

Lemma initial_yearly_lengths (d : Data) :
  yearly_lengths (horizon (params d)) (role_impact (initial_ledgers d)).
Proof.
  unfold initial_ledgers. cbn [role_impact].
  assert (H : forall (rs : list Role) (m : gmap string RoleLedger),
            yearly_lengths (horizon (params d)) m ->
            yearly_lengths (horizon (params d))
              (fold_left (fun m r =>
                 <[role r := {| baseline := headcount r;
                                yearly := repeat 0 (horizon (params d)) |}]> m)
                 rs m)).
  { induction rs as [|r rs IH]; intros m Hm; cbn [fold_left]; [exact Hm|].
    apply IH. intros k led. rewrite lookup_insert. case_decide.
    - intros [= <-]. cbn [yearly]. apply repeat_length.
    - apply Hm. }
  apply H. intros k led Hk. rewrite lookup_empty in Hk. discriminate.
Qed.

Lemma add_role_impact_lengths (h : nat) (red tot_aff : Q) (yf : list Q)
    (affected : list Role) (ri : gmap string RoleLedger) :
  yearly_lengths h ri ->
  yearly_lengths h (add_role_impact red tot_aff yf affected ri).
Proof.
  unfold add_role_impact. revert ri.
  induction affected as [|r l IH]; intros ri Hri; cbn [fold_left]; [exact Hri|].
  apply IH. intros k led.
  destruct (decide (role r = k)) as [<-|Hne].
  - rewrite lookup_alter_eq. intros Hk. apply fmap_Some in Hk as (led0 & H0 & ->).
    cbn [yearly]. rewrite length_imap. now apply (Hri (role r)).
  - rewrite lookup_alter_ne by exact Hne. apply Hri.
Qed.

Lemma run_cascade_yearly_lengths (ramp_value : Z -> Z -> Q) (d : Data)
    (inits : list InitRec) :
  yearly_lengths (horizon (params d))
                 (role_impact (run_cascade ramp_value d inits).1).
Proof.
  unfold run_cascade.
  apply (cascade_invariant ramp_value
           (fun led => yearly_lengths (horizon (params d)) (role_impact led))
           (fun _ => True)).
  - intros led i a _ H.
    destruct (process_role_ledgers ramp_value (make_env d) led i a)
      as [[_ ->]|(_ & net & yf & _ & ->)]; [exact H|].
    now apply add_role_impact_lengths.
  - intros; exact I.
  - apply initial_yearly_lengths.
Qed.

Lemma clamp_lookup (ri : gmap string RoleLedger) (k : string) (led : RoleLedger) :
  clamp_role_impact ri !! k = Some led ->
  exists led0, ri !! k = Some led0 /\ baseline led = baseline led0 /\
    yearly led = map (fun v => Qmin v (baseline led0 * PER_ROLE_MAX_REDUCTION))
                     (yearly led0).
Proof.
  unfold clamp_role_impact. rewrite lookup_fmap. intros H.
  apply fmap_Some in H as (led0 & H0 & ->). exists led0. auto.
Qed.

Lemma clamp_yearly_lengths (h : nat) (ri : gmap string RoleLedger) :
  yearly_lengths h ri -> yearly_lengths h (clamp_role_impact ri).
Proof.
  intros H k led Hk. apply clamp_lookup in Hk as (led0 & H0 & _ & ->).
  rewrite length_map. now apply (H k).
Qed.

Lemma location_yearly_length (h : nat) (sorted : list InitRec) :
  length (location_yearly h sorted) = h.
Proof.
  unfold location_yearly.
  assert (H : forall acc : list Q, length acc = h ->
            length (fold_left
              (fun acc r =>
                 if String.eqb (lever (ini r)) "cost_reduction"
                    && Qltb 0 (_annualSaving (ann r))
                 then imap (fun yr v =>
                              v + _annualSaving (ann r)
                                  * location_factor (_yearlyFactors (ann r)) yr) acc
                 else acc) sorted acc) = h).
  { induction sorted as [|r l IH]; intros acc Hacc; cbn [fold_left]; [exact Hacc|].
    apply IH. destruct (_ && _); [now rewrite length_imap|exact Hacc]. }
  apply H. apply repeat_length.
Qed.

(** The lookups of one year of the projection succeed on ledgers of the
    right length. *)
Lemma year_lookups (d : Data) (ri : gmap string RoleLedger) (loc : list Q)
    (h yr : nat) :
  yearly_lengths h ri -> length loc = h -> (yr < h)%nat ->
  (exists reduction,
     osum (fun kv : string * RoleLedger => yearly kv.2 !! yr) (map_to_list ri)
     = Some reduction) /\
  (exists saving,
     osum (fun r => led ← ri !! role r; v ← yearly led !! yr;
                    Some (v * costPerFTE r))
          (List.filter (fun r => has_key ri (role r)) (roles d)) = Some saving) /\
  (exists lv, loc !! yr = Some lv).
Proof.
  intros Hri Hloc Hyr. split; [|split].
  - eexists. apply osum_Some. apply Forall_forall. intros [k led] Hk.
    apply elem_of_map_to_list in Hk. cbn [snd].
    apply lookup_lt_is_Some. now rewrite (Hri k led Hk).
  - eexists. apply osum_Some. apply Forall_forall. intros r Hr.
    apply list_elem_of_In, List.filter_In in Hr as [_ Hk].
    unfold has_key in Hk. destruct (ri !! role r) as [led|] eqn:E; [|discriminate].
    cbn. destruct (lookup_lt_is_Some_2 (yearly led) yr) as [v Hv].
    { now rewrite (Hri _ _ E). }
    rewrite Hv. cbn. eauto.
  - apply lookup_lt_is_Some. now rewrite Hloc.
Qed.

Lemma yearly_rows_returns (d : Data) (ri : gmap string RoleLedger)
    (loc : list Q) (h : nat) (yrs : list nat) :
  yearly_lengths h ri -> length loc = h -> Forall (fun yr => (yr < h)%nat) yrs ->
  ~ 1 + discountRate (params d) == 0 ->
  forall cum, exists rows,
    yearly_rows d ri loc yrs cum = Some rows /\
    map y_year rows = map (fun yr => Z.of_nat yr + 1)%Z yrs.
Proof.
  intros Hri Hloc Hyrs Hdr.
  induction Hyrs as [|yr yrs Hyr _ IH]; intros cum; cbn [yearly_rows].
  - exists []. split; reflexivity.
  - destruct (year_lookups d ri loc h yr Hri Hloc Hyr)
      as ([red ->] & [sav ->] & [lv ->]).
    cbn [mbind option_bind].
    rewrite py_div_some by now apply Qpower_not_0.
    cbn [mbind option_bind].
    match goal with |- context [yearly_rows d ri loc yrs ?c] =>
      destruct (IH c) as (rows & -> & Hy) end.
    cbn [mbind option_bind]. eexists. split; [reflexivity|].
    cbn [map y_year]. now rewrite Hy.
Qed.

Lemma yearly_rows_raises (d : Data) (ri : gmap string RoleLedger)
    (loc : list Q) (yr : nat) (yrs : list nat) (cum : Q) :
  1 + discountRate (params d) == 0 ->
  yearly_rows d ri loc (yr :: yrs) cum = None.
Proof.
  intros Hdr. cbn [yearly_rows].
  destruct (osum _ (map_to_list ri)); [|reflexivity]. cbn [mbind option_bind].
  destruct (osum _ (List.filter _ _)); [|reflexivity]. cbn [mbind option_bind].
  destruct (loc !! yr); [|reflexivity]. cbn [mbind option_bind].
  assert (E : py_div 1 ((1 + discountRate (params d)) ^ Z.of_nat (yr + 1)) = None).
  { unfold py_div.
    assert (Ez : (1 + discountRate (params d)) ^ Z.of_nat (yr + 1) == 0).
    { rewrite Hdr. apply Qpower_0. lia. }
    apply Qeq_bool_iff in Ez. now rewrite Ez. }
  rewrite E. reflexivity.
Qed.

(** X24.  The yearly projection that follows the cascade raises (a
    division by zero) exactly when the horizon has at least one year and
    the discount rate is -100%; in every other case it returns one row per
    year of the horizon, numbered from 1. *)
Theorem projection_raises_only_at_discount_minus_one
    (ramp_value : Z -> Z -> Q) (d : Data) (inits : list InitRec) :
  (run_projection ramp_value d inits = None <->
   (0 < horizon (params d))%nat /\ 1 + discountRate (params d) == 0) /\
  (forall rows, run_projection ramp_value d inits = Some rows ->
     map y_year rows
     = map (fun yr => Z.of_nat yr + 1)%Z (seq 0 (horizon (params d)))).
Proof.
  unfold run_projection. cbv zeta.
  set (ri := clamp_role_impact _). set (loc := location_yearly _ _).
  assert (Hri : yearly_lengths (horizon (params d)) ri).
  { apply clamp_yearly_lengths, run_cascade_yearly_lengths. }
  assert (Hloc : length loc = horizon (params d)) by apply location_yearly_length.
  assert (Hyrs : Forall (fun yr => (yr < horizon (params d))%nat)
                        (seq 0 (horizon (params d)))).
  { apply Forall_forall. intros yr Hyr.
    apply list_elem_of_In, List.in_seq in Hyr. lia. }
  destruct (Qeq_dec (1 + discountRate (params d)) 0) as [Hz|Hnz].
  - destruct (horizon (params d)) as [|h] eqn:Eh.
    + cbn [seq yearly_rows]. split.
      * split; [discriminate|]. intros [C _]. lia.
      * now intros rows [= <-].
    + cbn [seq]. rewrite yearly_rows_raises by exact Hz. split.
      * split; [intros _; split; [lia|exact Hz]|reflexivity].
      * discriminate.
  - destruct (yearly_rows_returns d ri loc _ _ Hri Hloc Hyrs Hnz 0)
      as (rows & -> & Hy).
    split.
    + split; [discriminate|]. intros [_ C]. contradiction.
    + now intros rows' [= <-].
Qed.

Lemma run_projection_returns (ramp_value : Z -> Z -> Q) (d : Data)
    (inits : list InitRec) :
  ~ 1 + discountRate (params d) == 0 ->
  exists rows, run_projection ramp_value d inits = Some rows.
Proof.
  intros Hnz. unfold run_projection. cbv zeta.
  set (ri := clamp_role_impact _). set (loc := location_yearly _ _).
  assert (Hri : yearly_lengths (horizon (params d)) ri).
  { apply clamp_yearly_lengths, run_cascade_yearly_lengths. }
  assert (Hloc : length loc = horizon (params d)) by apply location_yearly_length.
  assert (Hyrs : Forall (fun yr => (yr < horizon (params d))%nat)
                        (seq 0 (horizon (params d)))).
  { apply Forall_forall. intros yr Hyr.
    apply list_elem_of_In, List.in_seq in Hyr. lia. }
  destruct (yearly_rows_returns d ri loc _ _ Hri Hloc Hyrs Hnz 0)
    as (rows & Hrows & _).
  now exists rows.
Qed.

Lemma projection_rows_numbered (ramp_value : Z -> Z -> Q) (d : Data)
    (inits : list InitRec) (rows : list YearRow) :
  run_projection ramp_value d inits = Some rows ->
  length rows = horizon (params d).
Proof.
  intros Hrows.
  assert (H : forall ri loc yrs cum rs,
            yearly_rows d ri loc yrs cum = Some rs -> length rs = length yrs).
  { intros ri loc yrs. induction yrs as [|yr yrs IH]; intros cum rs;
      cbn [yearly_rows].
    - now intros [= <-].
    - destruct (osum _ (map_to_list ri)); [|discriminate]. cbn [mbind option_bind].
      destruct (osum _ (List.filter _ _)); [|discriminate]. cbn [mbind option_bind].
      destruct (loc !! yr); [|discriminate]. cbn [mbind option_bind].
      destruct (py_div _ _); [|discriminate]. cbn [mbind option_bind].
      destruct (yearly_rows d ri loc yrs _) as [rs0|] eqn:E; [|discriminate].
      cbn [mbind option_bind]. intros [= <-]. cbn [length]. f_equal.
      exact (IH _ _ E). }
  unfold run_projection in Hrows. cbv zeta in Hrows.
  rewrite (H _ _ _ _ _ Hrows). apply length_seq.
Qed.

Lemma osum_le {A} (f : A -> option Q) (g : A -> Q) (l : list A) (s : Q) :
  Forall (fun x => forall v, f x = Some v -> v <= g x) l ->
  osum f l = Some s -> s <= Qsum g l.
Proof.
  intros H. revert s.
  induction H as [|x l Hx _ IH]; intros s; cbn [osum Qsum fold_right].
  - intros [= <-]. lra.
  - destruct (f x) as [v|]; [|discriminate]. cbn [mbind option_bind].
    destruct (osum f l) as [s0|]; [|discriminate]. cbn [mbind option_bind].
    intros [= <-]. specialize (Hx v eq_refl). specialize (IH s0 eq_refl).
    fold (Qsum g l). lra.
Qed.

Lemma osum_zero {A} (f : A -> option Q) (l : list A) (s : Q) :
  Forall (fun x => forall v, f x = Some v -> v == 0) l ->
  osum f l = Some s -> s == 0.
Proof.
  intros H. revert s.
  induction H as [|x l Hx _ IH]; intros s; cbn [osum].
  - intros [= <-]. reflexivity.
  - destruct (f x) as [v|]; [|discriminate]. cbn [mbind option_bind].
    destruct (osum f l) as [s0|]; [|discriminate]. cbn [mbind option_bind].
    intros [= <-]. rewrite (Hx v eq_refl), (IH s0 eq_refl). reflexivity.
Qed.

Lemma Qsum_map {A B} (f : B -> Q) (g : A -> B) (l : list A) :
  Qsum f (map g l) = Qsum (fun x => f (g x)) l.
Proof. induction l as [|x l IH]; cbn [map Qsum fold_right]; [reflexivity|]. now f_equal. Qed.

Lemma Qsum_scale {A} (c : Q) (f : A -> Q) (l : list A) :
  Qsum (fun x => f x * c) l == c * Qsum f l.
Proof.
  induction l as [|x l IH]; cbn [Qsum fold_right]; [ring|].
  fold (Qsum (fun x => f x * c) l). fold (Qsum f l). rewrite IH. ring.
Qed.

(** The sum of the baselines of a role ledger. *)
Lemma baseline_sum_ext (m1 m2 : gmap string RoleLedger) :
  (forall k, baseline <$> m1 !! k = baseline <$> m2 !! k) ->
  Qsum (fun kv : string * RoleLedger => baseline kv.2) (map_to_list m1)
  = Qsum (fun kv : string * RoleLedger => baseline kv.2) (map_to_list m2).
Proof.
  intros H.
  assert (E : baseline <$> m1 = baseline <$> m2).
  { apply map_eq. intros k. rewrite !lookup_fmap. apply H. }
  assert (S : forall m : gmap string RoleLedger,
            Qsum (fun kv : string * Q => kv.2) (map_to_list (baseline <$> m))
            = Qsum (fun kv : string * RoleLedger => baseline kv.2) (map_to_list m)).
  { intros m. rewrite map_to_list_fmap.
    change (prod_map Datatypes.id baseline <$> map_to_list m)
      with (map (prod_map Datatypes.id baseline) (map_to_list m)).
    rewrite Qsum_map. reflexivity. }
  rewrite <- (S m1), <- (S m2), E. reflexivity.
Qed.

Lemma add_role_impact_baseline (red tot_aff : Q) (yf : list Q)
    (affected : list Role) (ri : gmap string RoleLedger) (k : string) :
  baseline <$> add_role_impact red tot_aff yf affected ri !! k
  = baseline <$> ri !! k.
Proof.
  unfold add_role_impact. revert ri.
  induction affected as [|r l IH]; intros ri; cbn [fold_left]; [reflexivity|].
  rewrite IH. destruct (decide (role r = k)) as [<-|Hne].
  - rewrite lookup_alter_eq. now destruct (ri !! role r).
  - now rewrite lookup_alter_ne.
Qed.

Lemma run_cascade_baselines (ramp_value : Z -> Z -> Q) (d : Data)
    (inits : list InitRec) (k : string) :
  baseline <$> role_impact (run_cascade ramp_value d inits).1 !! k
  = baseline <$> role_impact (initial_ledgers d) !! k.
Proof.
  unfold run_cascade.
  apply (cascade_invariant ramp_value
           (fun led => baseline <$> role_impact led !! k
                       = baseline <$> role_impact (initial_ledgers d) !! k)
           (fun _ => True)).
  - intros led i a _ H.
    destruct (process_role_ledgers ramp_value (make_env d) led i a)
      as [[_ ->]|(_ & net & yf & _ & ->)]; [exact H|].
    now rewrite add_role_impact_baseline.
  - intros; exact I.
  - reflexivity.
Qed.

Lemma initial_baseline_sum (h : nat) (rs : list Role) :
  NoDup (map role rs) ->
  forall m : gmap string RoleLedger,
  Forall (fun r => m !! role r = None) rs ->
  Qsum (fun kv : string * RoleLedger => baseline kv.2)
       (map_to_list
          (fold_left (fun m r =>
             <[role r := {| baseline := headcount r; yearly := repeat 0 h |}]> m)
             rs m))
  == Qsum (fun kv : string * RoleLedger => baseline kv.2) (map_to_list m)
     + Qsum headcount rs.
Proof.
  induction rs as [|r rs IH]; intros Hnd m Hm; cbn [fold_left].
  - change (Qsum headcount []) with 0. ring.
  - cbn [map] in Hnd. apply NoDup_cons in Hnd as [Hr Hnd].
    apply Forall_cons in Hm as [Hmr Hm].
    rewrite IH; [|exact Hnd|].
    + rewrite (Qsum_perm _ _ _ (map_to_list_insert m (role r) _ Hmr)).
      rewrite !Qsum_cons. cbn [snd baseline]. ring.
    + apply Forall_forall. intros r' Hr'.
      rewrite Forall_forall in Hm.
      rewrite lookup_insert_ne; [now apply Hm|].
      intros E. apply Hr. rewrite E. apply list_elem_of_fmap. now exists r'.
Qed.

Lemma clamped_baseline_sum (ramp_value : Z -> Z -> Q) (d : Data)
    (inits : list InitRec) :
  NoDup (map role (roles d)) ->
  Qsum (fun kv : string * RoleLedger => baseline kv.2)
       (map_to_list (clamp_role_impact
                       (role_impact (run_cascade ramp_value d inits).1)))
  == Qsum headcount (roles d).
Proof.
  intros Hnd.
  rewrite (baseline_sum_ext _ (role_impact (initial_ledgers d))).
  - unfold initial_ledgers. cbn [role_impact].
    rewrite initial_baseline_sum; [|exact Hnd|].
    + rewrite map_to_list_empty. cbn [Qsum fold_right]. ring.
    + apply Forall_forall. intros r _. apply lookup_empty.
  - intros k. rewrite <- run_cascade_baselines with (ramp_value := ramp_value)
                                                    (inits := inits).
    unfold clamp_role_impact. rewrite lookup_fmap.
    now destruct (role_impact _ !! k).
Qed.

Lemma yearly_rows_reduction (d : Data) (ri : gmap string RoleLedger)
    (loc : list Q) (B : Q) (yrs : list nat) :
  (forall yr red,
     osum (fun kv : string * RoleLedger => yearly kv.2 !! yr) (map_to_list ri)
     = Some red -> red <= B) ->
  forall cum rows,
  yearly_rows d ri loc yrs cum = Some rows ->
  Forall (fun row => (fteReduction row <= py_round B)%Z /\
                     finalFTE row = totalFTE d - inject_Z (fteReduction row))
         rows.
Proof.
  intros HB. induction yrs as [|yr yrs IH]; intros cum rows; cbn [yearly_rows].
  - intros [= <-]. constructor.
  - destruct (osum _ (map_to_list ri)) as [red|] eqn:Ered; [|discriminate].
    cbn [mbind option_bind].
    destruct (osum _ (List.filter _ _)) as [sav|]; [|discriminate].
    cbn [mbind option_bind].
    destruct (loc !! yr) as [lv|]; [|discriminate]. cbn [mbind option_bind].
    destruct (py_div _ _) as [npv_f|]; [|discriminate]. cbn [mbind option_bind].
    destruct (yearly_rows d ri loc yrs _) as [rows0|] eqn:Erows; [|discriminate].
    cbn [mbind option_bind]. intros [= <-]. constructor.
    + cbn [fteReduction finalFTE]. split; [|reflexivity].
      apply py_round_mono. exact (HB yr red Ered).
    + exact (IH _ _ Erows).
Qed.

(** X25.  Whatever the cascade allocated, the FTE reduction that the
    projection reports for a year is at most 45% of the total headcount
    plus one half: every role's yearly ledger is clamped to 45% of its
    baseline before the years are summed, and the sum is rounded to an
    integer.  The final FTE of each row is the total FTE less that
    reduction.  Role names are taken to be distinct. *)
Theorem reported_reduction_within_workforce_cap (ramp_value : Z -> Z -> Q)
    (d : Data) (inits : list InitRec) (rows : list YearRow) :
  NoDup (map role (roles d)) ->
  run_projection ramp_value d inits = Some rows ->
  Forall (fun row =>
            inject_Z (fteReduction row)
            <= PER_ROLE_MAX_REDUCTION * Qsum headcount (roles d) + (1 # 2) /\
            finalFTE row = totalFTE d - inject_Z (fteReduction row))
         rows.
Proof.
  intros Hnd Hrows. unfold run_projection in Hrows. cbv zeta in Hrows.
  assert (Hr : Forall (fun row =>
            (fteReduction row
             <= py_round (PER_ROLE_MAX_REDUCTION * Qsum headcount (roles d)))%Z /\
            finalFTE row = totalFTE d - inject_Z (fteReduction row)) rows).
  { apply (yearly_rows_reduction _ _ _ _ _ ) with (2 := Hrows).
    intros yr red Hred.
    pose proof (clamped_baseline_sum ramp_value d inits Hnd) as Hsum.
    set (ri := clamp_role_impact _) in *.
    apply (osum_le _ (fun kv => baseline kv.2 * PER_ROLE_MAX_REDUCTION)) in Hred.
    - rewrite Qsum_scale, Hsum in Hred. exact Hred.
    - apply Forall_forall. intros [k led] Hk v Hv. cbn [snd] in *.
      apply elem_of_map_to_list in Hk.
      apply clamp_lookup in Hk as (led0 & _ & -> & Ey).
      rewrite Ey, list_lookup_fmap in Hv.
      apply fmap_Some in Hv as (v0 & _ & ->). apply Q.le_min_r. }
  eapply Forall_impl; [exact Hr|]. intros row [H1 H2]. split; [|exact H2].
  pose proof (py_round_near (PER_ROLE_MAX_REDUCTION * Qsum headcount (roles d)))
    as [_ Hn].
  rewrite Zle_Qle in H1.
  eapply Qle_trans; [exact H1|exact Hn].
Qed.

Lemma ex_data_discount : ~ 1 + discountRate (params ex_data) == 0.
Proof. cbn [ex_data params ex_params discountRate]. lra. Qed.

Lemma ex_roles_distinct : NoDup (map role (roles ex_data)).
Proof.
  cbn [ex_data roles map role ex_role_l1 ex_role_l2].
  apply NoDup_cons. split.
  - rewrite list_elem_of_singleton. discriminate.
  - apply NoDup_singleton.
Qed.

Lemma reported_reduction_within_workforce_cap_witness :
  exists rows, run_projection ex_ramp ex_data ex_inits = Some rows /\
  Forall (fun row =>
            inject_Z (fteReduction row)
            <= PER_ROLE_MAX_REDUCTION * Qsum headcount (roles ex_data) + (1 # 2) /\
            finalFTE row = totalFTE ex_data - inject_Z (fteReduction row))
         rows.
Proof.
  destruct (run_projection_returns ex_ramp ex_data ex_inits ex_data_discount)
    as [rows Hrows].
  exists rows. split; [exact Hrows|].
  exact (reported_reduction_within_workforce_cap ex_ramp ex_data ex_inits rows
           ex_roles_distinct Hrows).
Defined.

Lemma sorted_inits_none_enabled (inits : list InitRec) :
  Forall (fun rec => enabled (ini rec) = false) inits -> sorted_inits inits = [].
Proof.
  intros H. destruct (sorted_inits inits) as [|k l] eqn:E; [reflexivity|].
  exfalso.
  destruct (sorted_inits_spec inits k) as (r & Hr & Hen).
  { rewrite E. apply elem_of_cons. now left. }
  rewrite Forall_lookup in H. specialize (H k r Hr). cbv beta in H. congruence.
Qed.

Lemma initial_ledger_zero (d : Data) :
  Forall (fun r => 0 <= headcount r) (roles d) ->
  forall k led, role_impact (initial_ledgers d) !! k = Some led ->
  0 <= baseline led /\ yearly led = repeat 0 (horizon (params d)).
Proof.
  intros Hrs. unfold initial_ledgers. cbn [role_impact].
  assert (H : forall (rs : list Role) (m : gmap string RoleLedger),
            Forall (fun r => 0 <= headcount r) rs ->
            (forall k led, m !! k = Some led ->
               0 <= baseline led /\ yearly led = repeat 0 (horizon (params d))) ->
            forall k led,
            fold_left (fun m r =>
                 <[role r := {| baseline := headcount r;
                                yearly := repeat 0 (horizon (params d)) |}]> m)
                 rs m !! k = Some led ->
            0 <= baseline led /\ yearly led = repeat 0 (horizon (params d))).
  { intros rs m Hf. revert m.
    induction Hf as [|r rs Hr _ IH]; intros m Hm; cbn [fold_left]; [exact Hm|].
    apply IH. intros k led. rewrite lookup_insert. case_decide.
    - intros [= <-]. cbn [baseline yearly]. split; [exact Hr|reflexivity].
    - apply Hm. }
  apply (H _ _ Hrs). intros k led Hk. rewrite lookup_empty in Hk. discriminate.
Qed.

Lemma lookup_repeat_zero (h yr : nat) (v : Q) :
  repeat 0 h !! yr = Some v -> v = 0.
Proof.
  revert yr. induction h as [|h IH]; intros yr; cbn [repeat].
  - discriminate.
  - destruct yr as [|yr]; cbn; [now intros [= <-]|apply IH].
Qed.

Lemma yearly_rows_zero (d : Data) (ri : gmap string RoleLedger) (loc : list Q)
    (yrs : list nat) :
  (forall k led yr v, ri !! k = Some led -> yearly led !! yr = Some v -> v == 0) ->
  (forall yr v, loc !! yr = Some v -> v == 0) ->
  forall cum rows, cum == 0 ->
  yearly_rows d ri loc yrs cum = Some rows ->
  Forall (fun row => fteReduction row = 0%Z /\ annualSaving row = 0%Z /\
                     cumSaving row = 0%Z /\ y_npv row = 0%Z /\
                     finalFTE row == totalFTE d /\
                     futureCost row = inflatedCost row) rows.
Proof.
  intros Hri Hloc.
  induction yrs as [|yr yrs IH]; intros cum rows Hcum; cbn [yearly_rows].
  - intros [= <-]. constructor.
  - destruct (osum _ (map_to_list ri)) as [red|] eqn:Ered; [|discriminate].
    cbn [mbind option_bind].
    destruct (osum _ (List.filter _ _)) as [sav|] eqn:Esav; [|discriminate].
    cbn [mbind option_bind].
    destruct (loc !! yr) as [lv|] eqn:Elv; [|discriminate].
    cbn [mbind option_bind].
    destruct (py_div _ _) as [npv_f|]; [|discriminate]. cbn [mbind option_bind].
    destruct (yearly_rows d ri loc yrs _) as [rows0|] eqn:Erows; [|discriminate].
    cbn [mbind option_bind]. intros [= <-].
    assert (Hred : red == 0).
    { apply (osum_zero _ _ _ ) with (2 := Ered).
      apply Forall_forall. intros [k led] Hk v Hv. cbn [snd] in Hv.
      apply elem_of_map_to_list in Hk. exact (Hri k led yr v Hk Hv). }
    assert (Hsav : sav == 0).
    { apply (osum_zero _ _ _ ) with (2 := Esav).
      apply Forall_forall. intros r _ v Hv.
      destruct (ri !! role r) as [led|] eqn:Er; [|discriminate].
      cbn [mbind option_bind] in Hv.
      destruct (yearly led !! yr) as [v0|] eqn:Ev; [|discriminate].
      cbn [mbind option_bind] in Hv. injection Hv as <-.
      rewrite (Hri _ _ _ _ Er Ev). ring. }
    pose proof (Hloc yr lv Elv) as Hlv.
    set (base := Qsum _ (roles d)) in *.
    set (f := (1 + wageInflation (params d)) ^ Z.of_nat (yr + 1)) in *.
    assert (Hnet : base * f - (base - (sav + lv)) * f == 0).
    { rewrite Hsav, Hlv. ring. }
    constructor.
    + cbn [fteReduction annualSaving cumSaving y_npv finalFTE futureCost
           inflatedCost].
      rewrite (py_round_0 red Hred).
      split; [reflexivity|].
      split; [now apply py_round_0|].
      split; [apply py_round_0; rewrite Hnet, Hcum; ring|].
      split; [apply py_round_0; rewrite Hnet; ring|].
      split; [change (inject_Z 0) with 0; ring|].
      apply py_round_comp. rewrite Hsav, Hlv. ring.
    + apply (IH _ _) with (2 := Erows). rewrite Hnet, Hcum. ring.
Qed.

(** X26.  A portfolio without any enabled initiative projects no change:
    for roles with non-negative headcounts and a discount rate other than
    -100%, the projection returns one row per year, and every row has an
    FTE reduction, an annual saving, a cumulated saving and an NPV of 0, a
    final FTE equal to the total FTE, and a future cost equal to the
    inflated baseline cost. *)
Theorem no_enabled_initiative_projects_no_saving (ramp_value : Z -> Z -> Q)
    (d : Data) (inits : list InitRec) :
  Forall (fun r => 0 <= headcount r) (roles d) ->
  Forall (fun rec => enabled (ini rec) = false) inits ->
  ~ 1 + discountRate (params d) == 0 ->
  exists rows, run_projection ramp_value d inits = Some rows /\
    length rows = horizon (params d) /\
    Forall (fun row => fteReduction row = 0%Z /\ annualSaving row = 0%Z /\
                       cumSaving row = 0%Z /\ y_npv row = 0%Z /\
                       finalFTE row == totalFTE d /\
                       futureCost row = inflatedCost row) rows.
Proof.
  intros Hrs Hdis Hnz.
  destruct (run_projection_returns ramp_value d inits Hnz) as [rows Hrows].
  exists rows. split; [exact Hrows|].
  split; [exact (projection_rows_numbered ramp_value d inits rows Hrows)|].
  unfold run_projection in Hrows. cbv zeta in Hrows.
  unfold run_cascade in Hrows.
  rewrite (sorted_inits_none_enabled inits Hdis) in Hrows.
  unfold cascade in Hrows. cbn [fold_left fst snd omap] in Hrows.
  apply (yearly_rows_zero _ _ _ _) with (4 := Hrows); [| |reflexivity].
  - intros k led yr v Hk Hv.
    apply clamp_lookup in Hk as (led0 & H0 & _ & Ey).
    destruct (initial_ledger_zero d Hrs k led0 H0) as [Hb Hz].
    rewrite Ey, Hz, list_lookup_fmap in Hv.
    apply fmap_Some in Hv as (v0 & Hv0 & ->).
    apply lookup_repeat_zero in Hv0 as ->.
    apply Q.min_l. unfold PER_ROLE_MAX_REDUCTION.
    apply Qmult_le_0_compat; lra.
  - intros yr v Hv. unfold location_yearly in Hv. cbn [fold_left] in Hv.
    apply lookup_repeat_zero in Hv as ->. reflexivity.
Qed.

Lemma no_enabled_initiative_witness :
  exists rows, run_projection ex_ramp ex_data [] = Some rows /\
    length rows = horizon (params ex_data) /\
    Forall (fun row => fteReduction row = 0%Z /\ annualSaving row = 0%Z /\
                       cumSaving row = 0%Z /\ y_npv row = 0%Z /\
                       finalFTE row == totalFTE ex_data /\
                       futureCost row = inflatedCost row) rows.
Proof.
  apply (no_enabled_initiative_projects_no_saving ex_ramp ex_data []).
  - apply ex_data_wf.
  - constructor.
  - exact ex_data_discount.
Defined.

(** ** Normalisation and selection of the scored initiatives *)

Lemma fold_left_Qmax_ge (l : list Q) (x : Q) :
  x <= fold_left Qmax l x /\ Forall (fun y => y <= fold_left Qmax l x) l.
Proof.
  revert x. induction l as [|y l IH]; intros x; cbn [fold_left].
  - split; [lra|constructor].
  - destruct (IH (Qmax x y)) as [H1 H2].
    pose proof (Q.le_max_l x y). pose proof (Q.le_max_r x y).
    split; [lra|]. constructor; [lra|exact H2].
Qed.

Lemma max_raw_of_bounds (raw_scores : list Q) :
  0 < max_raw_of raw_scores /\ Forall (fun rs => rs <= max_raw_of raw_scores) raw_scores.
Proof.
  unfold max_raw_of. destruct raw_scores as [|x l].
  - cbv zeta. destruct (Qleb 0.001 0); (split; [lra|constructor]).
  - pose proof (fold_left_Qmax_ge l x) as [H1 H2].
    set (m := fold_left Qmax l x) in *.
    destruct (Qleb m 0) eqn:E.
    + apply Qleb_true in E. split; [lra|].
      constructor; [lra|]. eapply Forall_impl; [exact H2|].
      intros y Hy. cbv beta in Hy. lra.
    + apply Qleb_false in E. split; [exact E|]. constructor; assumption.
Qed.

Lemma select_tier_threshold (normalized : Q) (tier0 : option string) :
  (select_tier normalized tier0).1 = true <-> 20 <= normalized.
Proof.
  unfold select_tier.
  destruct (Qleb 65 normalized) eqn:E1;
    [apply Qleb_true in E1; cbn; split; [intros _; lra|reflexivity]|].
  destruct (Qleb 45 normalized) eqn:E2;
    [apply Qleb_true in E2; cbn; split; [intros _; lra|reflexivity]|].
  destruct (Qleb 20 normalized) eqn:E3;
    [apply Qleb_true in E3; cbn; split; [intros _; lra|reflexivity]|].
  apply Qleb_false in E3.
  destruct (Qleb 8 normalized); cbn; (split; [discriminate|intros; lra]).
Qed.

Lemma round_1_of_100 : round_nd 1 100 = 100.
Proof. vm_compute. reflexivity. Qed.

Lemma normalized_range (rs m : Q) :
  0 < m -> rs <= m ->
  0 <= (if Qltb 0 rs then round_nd 1 (rs / m * 100) else 0) <= 100.
Proof.
  intros Hm Hrs. destruct (Qltb 0 rs) eqn:E; [|lra].
  apply Qltb_true in E.
  assert (H1 : 0 <= rs / m) by (apply Qdiv_nonneg; lra).
  assert (H2 : rs / m <= 1) by (apply Qle_shift_div_r; lra).
  split; [apply round_nd_nonneg; lra|].
  assert (H3 : round_nd 1 (rs / m * 100) <= round_nd 1 100)
    by (apply round_nd_mono; lra).
  rewrite round_1_of_100 in H3. exact H3.
Qed.

(** X27.  After normalisation every initiative has a score between 0 and
    100 and is enabled exactly when its score is at least 20; when no raw
    score is positive, every score is 0 and nothing is enabled.  No
    division by zero can occur: a maximum that is not positive is replaced
    by 0.001. *)
Theorem normalized_scores_and_selection
    (initiatives : list (Initiative * option string)) (raw_scores : list Q) :
  Forall (fun p : Initiative * option string =>
            0 <= score p.1 <= 100 /\
            (enabled p.1 = true <-> 20 <= score p.1))
         (normalize_and_select initiatives raw_scores) /\
  (Forall (fun rs => rs <= 0) raw_scores ->
   Forall (fun p : Initiative * option string =>
             score p.1 = 0 /\ enabled p.1 = false)
          (normalize_and_select initiatives raw_scores)).
Proof.
  unfold normalize_and_select.
  destruct (max_raw_of_bounds raw_scores) as [Hpos Hle].
  set (m := max_raw_of raw_scores) in *. clearbody m.
  split.
  - apply Forall_forall. intros p Hp.
    apply list_elem_of_fmap in Hp as ([[i t] rs] & -> & Hin).
    cbn [fst snd set_score_enabled score enabled].
    assert (Hrs : rs <= m).
    { apply elem_of_zip_r in Hin. cbn [snd] in Hin.
      rewrite Forall_forall in Hle. now apply Hle. }
    split; [now apply normalized_range|apply select_tier_threshold].
  - intros Hneg. apply Forall_forall. intros p Hp.
    apply list_elem_of_fmap in Hp as ([[i t] rs] & -> & Hin).
    cbn [fst snd set_score_enabled score enabled].
    assert (Hrs : rs <= 0).
    { apply elem_of_zip_r in Hin. cbn [snd] in Hin.
      rewrite Forall_forall in Hneg. now apply Hneg. }
    rewrite (Qltb_ge 0 rs Hrs). split; [reflexivity|].
    destruct (select_tier 0 t) as [en t'] eqn:E. cbn [fst].
    destruct en; [|reflexivity].
    assert (C : (select_tier 0 t).1 = true) by now rewrite E.
    apply select_tier_threshold in C. lra.
Qed.

(** X28.  An initiative whose raw score is positive and is the highest of
    all gets a normalised score of exactly 100, is enabled, and is put in
    the tier 'strong'. *)
Theorem top_raw_score_gets_100_and_is_enabled
    (initiatives : list (Initiative * option string)) (raw_scores : list Q)
    (k : nat) (i : Initiative) (t : option string) (rs : Q) :
  initiatives !! k = Some (i, t) -> raw_scores !! k = Some rs ->
  0 < rs -> Forall (fun x => x <= rs) raw_scores ->
  exists i', normalize_and_select initiatives raw_scores !! k
             = Some (i', Some "strong"%string) /\
    score i' = 100 /\ enabled i' = true.
Proof.
  intros Hi Hrs Hpos Hmax.
  unfold normalize_and_select.
  destruct (max_raw_of_bounds raw_scores) as [Hmpos Hle].
  set (m := max_raw_of raw_scores) in *.
  assert (Em : m == rs).
  { rewrite Forall_lookup in Hle. pose proof (Hle k rs Hrs) as H1. cbv beta in H1.
    assert (H2 : m <= rs).
    { unfold m, max_raw_of. destruct raw_scores as [|x l]; [discriminate|].
      pose proof (fold_left_Qmax_ge l x) as [G1 G2].
      assert (Hge : rs <= fold_left Qmax l x).
      { assert (G : Forall (fun y => y <= fold_left Qmax l x) (x :: l))
          by (constructor; assumption).
        rewrite Forall_lookup in G. exact (G k rs Hrs). }
      assert (Hf : forall (l0 : list Q) (a : Q), a <= rs ->
                Forall (fun y => y <= rs) l0 -> fold_left Qmax l0 a <= rs).
      { induction l0 as [|y l0 IH]; intros a Ha Hl0; cbn [fold_left]; [exact Ha|].
        apply Forall_cons in Hl0 as [Hy Hl0]. apply IH; [|exact Hl0].
        now apply Q.max_lub. }
      apply Forall_cons in Hmax as [Hx Hl].
      pose proof (Hf l x Hx Hl).
      destruct (Qleb _ 0) eqn:E0; [apply Qleb_true in E0|]; lra. }
    lra. }
  clearbody m.
  rewrite list_lookup_fmap.
  assert (Hz : zip initiatives raw_scores !! k = Some ((i, t), rs)).
  { apply lookup_zip_Some. now split. }
  rewrite Hz. cbn [fmap option_fmap option_map fst snd].
  rewrite (Qltb_lt 0 rs Hpos).
  assert (En : round_nd 1 (rs / m * 100) = 100).
  { transitivity (round_nd 1 100); [|exact round_1_of_100].
    apply round_nd_comp. rewrite Em. field. lra. }
  rewrite En.
  eexists. split; [reflexivity|]. split; reflexivity.
Qed.

Lemma top_raw_score_witness :
  exists i', normalize_and_select
               [(ex_init_at "deflection" 0.30 0.80, None);
                (ex_init_at "aht_reduction" 0.30 0.80, None)] [0.02; 0.05] !! 1%nat
             = Some (i', Some "strong"%string) /\
    score i' = 100 /\ enabled i' = true.
Proof.
  apply (top_raw_score_gets_100_and_is_enabled _ _ 1
           (ex_init_at "aht_reduction" 0.30 0.80) None 0.05).
  - reflexivity.
  - reflexivity.
  - lra.
  - repeat constructor; lra.
Defined.
